(** * SubFlix: the subtitle engine (SRT codec and timing lookup)

    A shallow embedding of [class SubtitleEngine]: [parseSRT],
    [_parseTimestamp], [loadSubtitles], [clearSubtitles],
    [getSubtitleAtTime], [_binarySearchSubtitle], [getSubtitlesInRange],
    [setOffset], [setEnabled], [getSubtitleByIndex], [getTotalDuration],
    [validateSubtitles], [getStats], [exportToSRT], [_formatTimestamp] and
    [reset]; of the two searches of [Utils] ([findSubtitleAtTime],
    [findSubtitleIndexAtTime]); and of [parseSRT] and [parseTimestamp] of
    the popup.

    JavaScript strings are sequences of UTF-16 code units, JavaScript
    numbers are IEEE-754 binary64 values.  The engine and the codec are
    written once over an interface [Number] of the arithmetic they use; the
    interface is instantiated with the kernel's binary64 floats, which is
    what the program runs on and what every claim is settled on, and with
    the rationals, which only serve to tell what is lost to rounding.
    A call that can throw returns a [completion]; writing to the console
    ([Utils.log], [console.warn], [console.error]) is left out. *)

From Stdlib Require Import Ascii String.
From Stdlib Require Import ZArith NArith QArith Qround Qabs List Bool Floats Lia Lqa.
From Stdlib Require Import DecimalPos Permutation.
From Equations Require Import Equations.
Import ListNotations.

Set Implicit Arguments.
Local Open Scope Z_scope.

(** ** JavaScript strings *)

Module JsString.

(** A UTF-16 code unit, and a string of them. *)
Abbreviation code_unit := N (only parsing).
Abbreviation jsstring := (list N) (only parsing).

Definition LF : code_unit := 10%N.
Definition BACKSLASH : code_unit := 92%N.
Definition LOWER_N : code_unit := 110%N.

(** A string literal of the source; the two characters backslash-n stand
    for a line feed, as in the JavaScript literal. *)
Fixpoint unescape (s : jsstring) : jsstring :=
  match s with
  | a :: ((b :: s') as t) =>
      if (N.eqb a BACKSLASH && N.eqb b LOWER_N)%bool then LF :: unescape s'
      else a :: unescape t
  | _ => s
  end.

Definition js (s : string) : jsstring :=
  unescape (map N_of_ascii (list_ascii_of_string s)).

(** [\s] of a regular expression, also the characters [trim] removes:
    WhiteSpace and LineTerminator of ECMAScript. *)
Definition is_space (c : code_unit) : bool :=
  (existsb (N.eqb c)
     [9; 10; 11; 12; 13; 32; 160; 5760; 8232; 8233; 8239; 8287; 12288; 65279]
   || (N.leb 8192 c && N.leb c 8202))%N%bool.

(** [\d] of a regular expression: the ASCII digits. *)
Definition is_digit (c : code_unit) : bool :=
  (N.leb 48 c && N.leb c 57)%N%bool.

Fixpoint trimStart (s : jsstring) : jsstring :=
  match s with
  | c :: s' => if is_space c then trimStart s' else s
  | [] => []
  end.

Definition trimEnd (s : jsstring) : jsstring := rev (trimStart (rev s)).

(** [String.prototype.trim] *)
Definition trim (s : jsstring) : jsstring := trimEnd (trimStart s).

(** [s.split(c)] for a one-character separator *)
Fixpoint split_char (c : code_unit) (s : jsstring) : list jsstring :=
  match s with
  | [] => [[]]
  | x :: s' =>
      if N.eqb x c then [] :: split_char c s'
      else match split_char c s' with
           | l :: ls => (x :: l) :: ls
           | [] => [[x]]
           end
  end.

(** [Array.prototype.join] *)
Fixpoint join (sep : jsstring) (l : list jsstring) : jsstring :=
  match l with
  | [] => []
  | [x] => x
  | x :: l' => x ++ sep ++ join sep l'
  end.

(** [s.padStart(width, '0')] *)
Definition padStart (width : nat) (s : jsstring) : jsstring :=
  repeat 48%N (width - length s) ++ s.

Fixpoint uint_to_js (d : Decimal.uint) : jsstring :=
  match d with
  | Decimal.Nil => []
  | Decimal.D0 d => 48%N :: uint_to_js d
  | Decimal.D1 d => 49%N :: uint_to_js d
  | Decimal.D2 d => 50%N :: uint_to_js d
  | Decimal.D3 d => 51%N :: uint_to_js d
  | Decimal.D4 d => 52%N :: uint_to_js d
  | Decimal.D5 d => 53%N :: uint_to_js d
  | Decimal.D6 d => 54%N :: uint_to_js d
  | Decimal.D7 d => 55%N :: uint_to_js d
  | Decimal.D8 d => 56%N :: uint_to_js d
  | Decimal.D9 d => 57%N :: uint_to_js d
  end.

(** [String(n)] for an integer [n]: its decimal digits, with a minus sign
    when negative. *)
Definition Z_to_js (z : Z) : jsstring :=
  match z with
  | Z0 => [48%N]
  | Zpos p => uint_to_js (Pos.to_uint p)
  | Zneg p => 45%N :: uint_to_js (Pos.to_uint p)
  end.

(** [parseInt(s)] on the digit strings the timestamp pattern captures:
    the value of the leading decimal digits. *)
Fixpoint parseInt_from (acc : Z) (s : jsstring) : Z :=
  match s with
  | c :: s' =>
      if is_digit c then parseInt_from (10 * acc + (Z.of_N c - 48)) s' else acc
  | [] => acc
  end.

Definition parseInt (s : jsstring) : Z := parseInt_from 0 s.

(** A line with a character that is not white space. *)
Definition visible (s : jsstring) : bool := existsb (fun c => negb (is_space c)) s.

(** A block of text: no white space at either end and no line without
    a visible character, so no blank line inside. *)
Definition solid (b : jsstring) : Prop :=
  trim b = b /\ forallb visible (split_char LF b) = true.

(** A field of a timestamp: exactly [width] digits. *)
Definition digits (width : nat) (s : jsstring) : Prop :=
  length s = width /\ forallb is_digit s = true.

(** The characters of [HH:MM:SS,mmm], and of a timestamp line. *)
Definition clock_text (h m s ms : jsstring) : jsstring :=
  h ++ js ":" ++ m ++ js ":" ++ s ++ js "," ++ ms.

Definition stamp_line (a b : jsstring) : jsstring := a ++ js " --> " ++ b.

(** Without a line feed. *)
Definition no_LF (s : jsstring) : Prop := ~ In LF s.

Definition lf_free (s : jsstring) : bool := forallb (fun c => negb (N.eqb c LF)) s.

(** A field of [width] characters reads back as the number it was printed
    from. *)
Definition field_check (width : nat) (n : Z) : bool :=
  (length (padStart width (Z_to_js n)) =? width)%nat
  && forallb is_digit (padStart width (Z_to_js n))
  && (parseInt (padStart width (Z_to_js n)) =? n).

End JsString.

Import JsString.

(** ** Regular expressions

    The fragment the two patterns of [parseSRT] use, with the backtracking
    semantics of ECMAScript: [matches r s] lists, in priority order, the ways
    [r] matches a prefix of [s], each with the groups it captured and the
    input that is left; a greedy star tries the longest repetition first. *)

Module Regex.

Inductive regex : Type :=
| Chr (c : code_unit)
| Cls (p : code_unit -> bool)
| Star (p : code_unit -> bool)
| Grp (r : regex)
| Seq (r1 r2 : regex).

Fixpoint star_matches (p : code_unit -> bool) (s : jsstring) : list jsstring :=
  match s with
  | c :: s' => if p c then star_matches p s' ++ [s] else [s]
  | [] => [[]]
  end.

Definition consumed (s rest : jsstring) : jsstring :=
  firstn (length s - length rest) s.

Fixpoint matches (r : regex) (s : jsstring) : list (list jsstring * jsstring) :=
  match r with
  | Chr c =>
      match s with
      | x :: s' => if N.eqb x c then [([], s')] else []
      | [] => []
      end
  | Cls p =>
      match s with
      | x :: s' => if p x then [([], s')] else []
      | [] => []
      end
  | Star p => map (fun rest => ([], rest)) (star_matches p s)
  | Grp r' =>
      map (fun m => (consumed s (snd m) :: fst m, snd m)) (matches r' s)
  | Seq r1 r2 =>
      flat_map
        (fun m1 => map (fun m2 => (fst m1 ++ fst m2, snd m2)) (matches r2 (snd m1)))
        (matches r1 s)
  end.

(** The match of [r] anchored at the start of [s], if any. *)
Definition exec_at (r : regex) (s : jsstring) : option (list jsstring * jsstring) :=
  hd_error (matches r s).

(** [s.match(r)] without the global flag: the groups of the leftmost
    match. *)
Fixpoint search (r : regex) (s : jsstring) : option (list jsstring) :=
  match exec_at r s with
  | Some m => Some (fst m)
  | None =>
      match s with
      | [] => None
      | _ :: s' => search r s'
      end
  end.

(** [s.split(r)] for a pattern without groups.  [piece] holds, reversed,
    the characters of the current piece; [skip] counts the characters of
    a separator still to be passed over.  An empty match at the start of
    the current piece does not split. *)
Fixpoint split_from (r : regex) (s piece : jsstring) (skip : nat) : list jsstring :=
  match s with
  | [] => [rev piece]
  | c :: s' =>
      match skip with
      | S k => split_from r s' piece k
      | O =>
          match exec_at r s with
          | Some m =>
              match (length s - length (snd m))%nat, piece with
              | O, [] => split_from r s' [c] 0
              | O, _ :: _ => rev piece :: split_from r s' [c] 0
              | S k, _ => rev piece :: split_from r s' [] k
              end
          | None => split_from r s' (c :: piece) 0
          end
      end
  end.

Definition split (r : regex) (s : jsstring) : list jsstring :=
  match s with
  | [] => match exec_at r [] with Some _ => [] | None => [[]] end
  | _ => split_from r s [] 0
  end.

Definition digits2 : regex := Grp (Seq (Cls is_digit) (Cls is_digit)).
Definition digits3 : regex :=
  Grp (Seq (Cls is_digit) (Seq (Cls is_digit) (Cls is_digit))).

(** [(\d{2}):(\d{2}):(\d{2}),(\d{3})] *)
Definition clock : regex :=
  Seq digits2 (Seq (Chr 58) (Seq digits2 (Seq (Chr 58)
    (Seq digits2 (Seq (Chr 44) digits3)))))%N.

(** [/(\d{2}):(\d{2}):(\d{2}),(\d{3})\s*-->\s*(\d{2}):(\d{2}):(\d{2}),(\d{3})/] *)
Definition timestamp_re : regex :=
  Seq clock (Seq (Star is_space) (Seq (Chr 45) (Seq (Chr 45) (Seq (Chr 62)
    (Seq (Star is_space) clock)))))%N.

(** [/\n\s*\n/] *)
Definition blank_line_re : regex :=
  Seq (Chr LF) (Seq (Star is_space) (Chr LF)).

(** What [\s*\n] can leave of an input. *)
Definition after_blank (s : jsstring) : list (list jsstring * jsstring) :=
  matches (Seq (Star is_space) (Chr LF)) s.

End Regex.

Import Regex.

(** ** JavaScript numbers *)

(** The arithmetic the engine uses.  [of_Z] reads an integer (a [parseInt]
    result, an array length, a literal) as a number; [rem] is [%];
    [floor] and [round] are [Math.floor] and [Math.round]; [geb x y] is
    [x >= y], which is [y <= x]; [to_string] is [String(x)]. *)
Class Number (T : Type) : Type := {
  of_Z : Z -> T;
  add : T -> T -> T;
  sub : T -> T -> T;
  mul : T -> T -> T;
  div : T -> T -> T;
  rem : T -> T -> T;
  floor : T -> T;
  round : T -> T;
  leb : T -> T -> bool;
  ltb : T -> T -> bool;
  to_string : T -> jsstring
}.

Definition geb {T} `{Number T} (x y : T) : bool := leb y x.

(** The laws of [<=] and [<] the lookup relies on.  They hold for binary64
    (where every comparison with NaN is false) and for the rationals. *)
Class NumberOrder (T : Type) `{Number T} : Prop := {
  leb_trans : forall x y z, leb x y = true -> leb y z = true -> leb x z = true;
  ltb_leb_trans : forall x y z, ltb x y = true -> leb y z = true -> ltb x z = true;
  leb_ltb_trans : forall x y z, leb x y = true -> ltb y z = true -> ltb x z = true;
  ltb_not_leb : forall x y, ltb x y = true -> leb y x = false;
  leb_not_ltb : forall x y, leb x y = true -> ltb y x = false;
  ltb_leb : forall x y, ltb x y = true -> leb x y = true
}.

Arguments NumberOrder T {_}.

(** *** IEEE-754 binary64 *)

Module Float64.

Local Open Scope float_scope.

Definition float_of_Z (z : Z) : float :=
  match z with
  | Z0 => 0
  | Zpos _ => of_uint63 (Uint63.of_Z z)
  | Zneg p => - of_uint63 (Uint63.of_Z (Zpos p))
  end.

Definition signed (s : bool) (m : positive) : Z := if s then Zneg m else Zpos m.
Definition signed_zero (s : bool) : float := if s then neg_zero else zero.

(** [Math.floor]: a finite [x] is [m * 2^e] exactly. *)
Definition float_floor (x : float) : float :=
  match Prim2SF x with
  | S754_finite s m e =>
      if (0 <=? e)%Z then x
      else float_of_Z (signed s m / 2 ^ (- e))%Z
  | _ => x
  end.

(** [Math.round]: the nearest integer, a tie going up; a result of zero
    keeps the sign of [x]. *)
Definition float_round (x : float) : float :=
  match Prim2SF x with
  | S754_finite s m e =>
      if (0 <=? e)%Z then x
      else
        let z := ((2 * signed s m + 2 ^ (- e)) / 2 ^ (1 - e))%Z in
        if (z =? 0)%Z then signed_zero s else float_of_Z z
  | _ => x
  end.

(** [x % y]: the remainder of the division truncated towards zero, which
    is exact; it has the sign of [x]. *)
Definition float_rem (x y : float) : float :=
  match Prim2SF x, Prim2SF y with
  | S754_nan, _ | _, S754_nan => nan
  | S754_infinity _, _ => nan
  | _, S754_zero _ => nan
  | S754_zero _, _ => x
  | _, S754_infinity _ => x
  | S754_finite sx mx ex, S754_finite _ my ey =>
      let e := Z.min ex ey in
      let a := (Zpos mx * 2 ^ (ex - e))%Z in
      let b := (Zpos my * 2 ^ (ey - e))%Z in
      let r := (a mod b)%Z in
      if (r =? 0)%Z then signed_zero sx
      else
        let f := Z.ldexp (float_of_Z r) e in
        if sx then - f else f
  end.

(** *** [String(x)]

    [Number::toString] of ECMAScript for the values [Math.floor] and
    [Math.round] return: NaN, the infinities, the zeros and the integers.
    For an integer the digits are those of the shortest decimal
    [s * 10^p] that reads back as [x], the closest to [x] if there are
    several; they are written whole below 1e21 and with an exponent from
    there on.  Up to 2^53 this is the integer itself; above, where the
    binary64 values are more than one apart, it need not be (2^60 is
    1152921504606846976 and is printed 1152921504606847000).

    [c] reads back as the value [m * 2^e]: it lies between the two
    midpoints around the value, the midpoints included when [m] is even.
    Everything is scaled by [4 * 2^max(0, -e)], which makes the quarter of
    the gap a whole number. *)
Definition reads_back (m : positive) (e : Z) (c : Z) : bool :=
  let d := Z.max 0 (- e) in
  let scale := (4 * 2 ^ d)%Z in
  let value := (4 * Zpos m * 2 ^ (e + d))%Z in
  let gap := (4 * 2 ^ (e + d))%Z in
  let below :=
    if ((Zpos m =? 2 ^ 52) && (-1074 <? e))%Z then (gap / 4)%Z else (gap / 2)%Z in
  if Z.even (Zpos m)
  then ((value - below <=? scale * c) && (scale * c <=? value + gap / 2))%Z
  else ((value - below <? scale * c) && (scale * c <? value + gap / 2))%Z.

(** Of two decimals that read back the one closer to the value, and of
    two as close the one with the even last digit. *)
Definition closer (m : positive) (e : Z) (step c1 c2 : Z) : Z :=
  let d := Z.max 0 (- e) in
  let scale := (4 * 2 ^ d)%Z in
  let value := (4 * Zpos m * 2 ^ (e + d))%Z in
  let d1 := Z.abs (value - scale * c1) in
  let d2 := Z.abs (scale * c2 - value) in
  if (d1 <? d2)%Z then c1
  else if (d2 <? d1)%Z then c2
  else if Z.even (c1 / step) then c1 else c2.

(** The shortest decimal for the integer [v] of value [m * 2^e]: multiples
    of [10^p] are tried for [p] from the number of digits of [v] down. *)
Fixpoint shortest_from (m : positive) (e : Z) (v : Z) (p : nat) : Z :=
  let step := (10 ^ Z.of_nat p)%Z in
  let c1 := (v / step * step)%Z in
  let c2 := (c1 + step)%Z in
  match reads_back m e c1, reads_back m e c2, p with
  | true, true, _ => closer m e step c1 c2
  | true, false, _ => c1
  | false, true, _ => c2
  | false, false, S p' => shortest_from m e v p'
  | false, false, O => v
  end.

Fixpoint drop_zeros (s : jsstring) : jsstring :=
  match s with
  | c :: s' => if N.eqb c 48 then drop_zeros s' else s
  | [] => []
  end.

(** The digits of a positive integer [c]: whole below 1e21, and from there
    on the first digit, a point and the others up to the last that is not
    zero, then [e+] and the exponent. *)
Definition integer_to_js (c : Z) : jsstring :=
  if (c <? 10 ^ 21)%Z then Z_to_js c
  else
    let ds := Z_to_js c in
    let exponent := js "e+" ++ Z_to_js (Z.of_nat (length ds) - 1) in
    match rev (drop_zeros (rev ds)) with
    | [] => ds
    | [d] => d :: exponent
    | d :: more => d :: js "." ++ more ++ exponent
    end.

(** A value that is not an integer is outside of what the program prints;
    the digits of its whole part stand for it. *)
Definition float_to_string (x : float) : jsstring :=
  match Prim2SF x with
  | S754_nan => js "NaN"
  | S754_infinity false => js "Infinity"
  | S754_infinity true => js "-Infinity"
  | S754_zero _ => js "0"
  | S754_finite s m e =>
      let v := if (0 <=? e)%Z then (Zpos m * 2 ^ e)%Z else (Zpos m / 2 ^ (- e))%Z in
      if (v =? 0)%Z then js "0"
      else
        let digits := integer_to_js (shortest_from m e v (length (Z_to_js v) - 1)) in
        if s then 45%N :: digits else digits
  end.

#[export] Instance float_number : Number float := {
  of_Z := float_of_Z;
  add := PrimFloat.add;
  sub := PrimFloat.sub;
  mul := PrimFloat.mul;
  div := PrimFloat.div;
  rem := float_rem;
  floor := float_floor;
  round := float_round;
  leb := PrimFloat.leb;
  ltb := PrimFloat.ltb;
  to_string := float_to_string
}.

(** A key that orders the binary64 values which are not NaN as [<] and
    [<=] do: first the class (negative infinity, negative, zero, positive,
    positive infinity), then exponent and mantissa. *)
Definition key (f : spec_float) : option (Z * Z * Z) :=
  match f with
  | S754_nan => None
  | S754_infinity true => Some (-2, 0, 0)%Z
  | S754_finite true m e => Some (-1, - e, Zneg m)%Z
  | S754_zero _ => Some (0, 0, 0)%Z
  | S754_finite false m e => Some (1, e, Zpos m)%Z
  | S754_infinity false => Some (2, 0, 0)%Z
  end.

Definition lex_lt (a b : Z * Z * Z) : Prop :=
  let '(a1, a2, a3) := a in
  let '(b1, b2, b3) := b in
  (a1 < b1 \/ (a1 = b1 /\ (a2 < b2 \/ (a2 = b2 /\ a3 < b3))))%Z.

Definition lex_le (a b : Z * Z * Z) : Prop := lex_lt a b \/ a = b.

End Float64.

(** *** Rationals: the same arithmetic without rounding

    Not the numbers of the program: an idealisation, used to tell the
    effects of rounding from those of the algorithm.  [to_string] prints
    the whole part, which is all of a number that [floor] returned. *)

Module Exact.

Local Open Scope Q_scope.

(** Towards zero, as the quotient of [%] is. *)
Definition Qtrunc (q : Q) : Z := if Qle_bool 0 q then Qfloor q else Qceiling q.

Definition Qrem (x y : Q) : Q := x - y * inject_Z (Qtrunc (x / y)).

#[export] Instance Q_number : Number Q := {
  of_Z := inject_Z;
  add := Qplus;
  sub := Qminus;
  mul := Qmult;
  div := Qdiv;
  rem := Qrem;
  floor := fun x => inject_Z (Qfloor x);
  round := fun x => inject_Z (Qfloor (x + (1 # 2)));
  leb := Qle_bool;
  ltb := fun x y => negb (Qle_bool y x);
  to_string := fun x => Z_to_js (Qfloor x)
}.

End Exact.

(** ** The engine *)

(** What a call does: it returns a value or throws. *)
Inductive exception : Type :=
| TypeError
| Error (message : string).

Inductive completion (A : Type) : Type :=
| Return (a : A)
| Throw (e : exception).

Arguments Return {A} a.
Arguments Throw {A} e.

(** [a[i]]: [None] is [undefined]. *)
Definition get {A : Type} (a : list A) (i : Z) : option A :=
  if i <? 0 then None else nth_error a (Z.to_nat i).

(** A subtitle object [{ start, end, text }]. *)
Record Entry (T : Type) : Type := mkEntry {
  start : T;
  end_ : T;
  text : jsstring
}.

Arguments mkEntry {T} _ _ _.

(** The fields the constructor sets. *)
Record Engine (T : Type) : Type := mkEngine {
  subtitles : list (Entry T);
  currentIndex : Z;
  offset : T;
  enabled : bool;
  lastUpdateTime : T
}.

Arguments mkEngine {T} _ _ _ _ _.

(** The values a caller can pass where an array of subtitles is expected;
    an array is taken to hold subtitle objects. *)
Inductive js_value (T : Type) : Type :=
| JsUndefined
| JsNull
| JsBoolean (b : bool)
| JsNumber (x : T)
| JsString (s : jsstring)
| JsObject
| JsArray (a : list (Entry T)).

Arguments JsUndefined {T}.
Arguments JsNull {T}.
Arguments JsBoolean {T} b.
Arguments JsNumber {T} x.
Arguments JsString {T} s.
Arguments JsObject {T}.
Arguments JsArray {T} a.

(** What [getStats] returns; the object it builds for an engine without
    subtitles has no [enabled] property. *)
Record Stats (T : Type) : Type := mkStats {
  count : Z;
  duration : T;
  averageLength : T;
  longestText : jsstring;
  stats_offset : T;
  stats_enabled : option bool
}.

Arguments mkStats {T} _ _ _ _ _ _.

Section SubtitleEngine.

Context {T : Type} `{Number T}.

Definition new_engine : Engine T := mkEngine [] (-1) (of_Z 0) true (of_Z 0).

(** *** parseSRT *)

Definition _parseTimestamp (hours minutes seconds milliseconds : jsstring) : T :=
  add
    (add
       (add (mul (of_Z (parseInt hours)) (of_Z 3600))
            (mul (of_Z (parseInt minutes)) (of_Z 60)))
       (of_Z (parseInt seconds)))
    (div (of_Z (parseInt milliseconds)) (of_Z 1000)).

(** [timeMatch[i]] for a group number [i] from 1 on. *)
Definition group (timeMatch : list jsstring) (i : nat) : jsstring :=
  nth (i - 1) timeMatch [].

(** One turn of the loop over the blocks: the array of subtitles after it.
    Nothing in the body can throw on a string, so the handler of the
    [try] is never entered. *)
Definition parse_block (subs : list (Entry T)) (block : jsstring) : list (Entry T) :=
  let lines := split_char LF (trim block) in
  if (length lines <? 3)%nat then subs
  else
    match search timestamp_re (nth 1 lines []) with
    | None => subs
    | Some timeMatch =>
        let startTime :=
          _parseTimestamp (group timeMatch 1) (group timeMatch 2)
                          (group timeMatch 3) (group timeMatch 4) in
        let endTime :=
          _parseTimestamp (group timeMatch 5) (group timeMatch 6)
                          (group timeMatch 7) (group timeMatch 8) in
        let text := trim (join [LF] (skipn 2 lines)) in
        match text with
        | [] => subs
        | _ :: _ => subs ++ [mkEntry startTime endTime text]
        end
    end.

(** The lines of a block, and the blocks that add no subtitle: fewer than
    three lines, no timestamps on the second, or no text left. *)
Definition lines_of (block : jsstring) : list jsstring := split_char LF (trim block).

Definition malformed (block : jsstring) : Prop :=
  (length (lines_of block) < 3)%nat \/
  search timestamp_re (nth 1 (lines_of block) []) = None \/
  trim (join [LF] (skipn 2 (lines_of block))) = [].

Definition parseSRT (content : jsstring) : list (Entry T) :=
  let blocks := split blank_line_re (trim content) in
  fold_left parse_block blocks [].

(** *** loadSubtitles, clearSubtitles, setOffset, setEnabled, reset *)

Definition loadSubtitles (eng : Engine T) (x : js_value T) : completion unit * Engine T :=
  match x with
  | JsArray a =>
      (Return tt,
       mkEngine a (-1) (offset eng) (enabled eng) (lastUpdateTime eng))
  | _ => (Throw (Error "Subtitles must be an array"), eng)
  end.

Definition clearSubtitles (eng : Engine T) : Engine T :=
  mkEngine [] (-1) (offset eng) (enabled eng) (lastUpdateTime eng).

Definition setOffset (eng : Engine T) (o : T) : Engine T :=
  mkEngine (subtitles eng) (-1) o (enabled eng) (lastUpdateTime eng).

Definition getOffset (eng : Engine T) : T := offset eng.

Definition setEnabled (eng : Engine T) (flag : bool) : Engine T :=
  mkEngine (subtitles eng) (currentIndex eng) (offset eng) flag (lastUpdateTime eng).

Definition isEnabled (eng : Engine T) : bool := enabled eng.

Definition getSubtitleCount (eng : Engine T) : Z := Z.of_nat (length (subtitles eng)).

Definition reset (eng : Engine T) : Engine T := new_engine.

(** *** getSubtitleAtTime *)

(** [time >= sub.start && time <= sub.end] *)
Definition contains (sub : Entry T) (time : T) : bool :=
  geb time (start sub) && leb time (end_ sub).

Definition set_currentIndex (eng : Engine T) (i : Z) : Engine T :=
  mkEngine (subtitles eng) i (offset eng) (enabled eng) (lastUpdateTime eng).

(** The loop of [_binarySearchSubtitle]; reading a property of
    [undefined] throws. *)
Equations binary_search (subs : list (Entry T)) (time : T) (lft rgt : Z)
  : completion (option (Entry T * Z)) by wf (Z.to_nat (rgt - lft + 1)) lt :=
  binary_search subs time lft rgt with Z_le_dec lft rgt := {
    | right _ => Return None
    | left _ with get subs ((lft + rgt) / 2) := {
        | None => Throw TypeError
        | Some subtitle with contains subtitle time := {
            | true => Return (Some (subtitle, (lft + rgt) / 2))
            | false with ltb time (start subtitle) := {
                | true => binary_search subs time lft ((lft + rgt) / 2 - 1)
                | false => binary_search subs time ((lft + rgt) / 2 + 1) rgt } } } }.
Next Obligation. Z.div_mod_to_equations; lia. Qed.
Next Obligation. Z.div_mod_to_equations; lia. Qed.

Definition _binarySearchSubtitle (eng : Engine T) (time : T)
  : completion (option (Entry T * Z)) :=
  binary_search (subtitles eng) time 0 (Z.of_nat (length (subtitles eng)) - 1).

(** Reading [subtitles[i]] and testing whether it holds [time]. *)
Definition probe (subs : list (Entry T)) (i : Z) (time : T) : completion (option (Entry T)) :=
  match get subs i with
  | None => Throw TypeError
  | Some sub => Return (if contains sub time then Some sub else None)
  end.

Definition getSubtitleAtTime (eng : Engine T) (currentTime : T)
  : completion (option (Entry T)) * Engine T :=
  let subs := subtitles eng in
  let n := Z.of_nat (length subs) in
  let i := currentIndex eng in
  if negb (enabled eng) || (n =? 0) then (Return None, eng)
  else
    let adjustedTime := add currentTime (offset eng) in
    match (if (0 <=? i) && (i <? n) then probe subs i adjustedTime else Return None) with
    | Throw e => (Throw e, eng)
    | Return (Some current) => (Return (Some current), eng)
    | Return None =>
    match (if i + 1 <? n then probe subs (i + 1) adjustedTime else Return None) with
    | Throw e => (Throw e, eng)
    | Return (Some next) => (Return (Some next), set_currentIndex eng (i + 1))
    | Return None =>
    match (if 0 <=? i - 1 then probe subs (i - 1) adjustedTime else Return None) with
    | Throw e => (Throw e, eng)
    | Return (Some prev) => (Return (Some prev), set_currentIndex eng (i - 1))
    | Return None =>
    match _binarySearchSubtitle eng adjustedTime with
    | Throw e => (Throw e, eng)
    | Return (Some result) => (Return (Some (fst result)), set_currentIndex eng (snd result))
    | Return None => (Return None, eng)
    end end end end.

(** *** getSubtitlesInRange, getSubtitleByIndex, getTotalDuration, getStats *)

Definition getSubtitlesInRange (eng : Engine T) (startTime endTime : T) : list (Entry T) :=
  let adjustedStart := add startTime (offset eng) in
  let adjustedEnd := add endTime (offset eng) in
  filter (fun sub => leb (start sub) adjustedEnd && geb (end_ sub) adjustedStart)
         (subtitles eng).

Definition getSubtitleByIndex (eng : Engine T) (index : Z) : option (Entry T) :=
  if (0 <=? index) && (index <? Z.of_nat (length (subtitles eng)))
  then get (subtitles eng) index else None.

Definition getTotalDuration (eng : Engine T) : T :=
  match subtitles eng with
  | [] => of_Z 0
  | first :: rest => end_ (last rest first)
  end.

Definition getStats (eng : Engine T) : Stats T :=
  match subtitles eng with
  | [] => mkStats 0 (of_Z 0) (of_Z 0) [] (offset eng) None
  | first :: _ =>
      let subs := subtitles eng in
      let totalLength :=
        fold_left (fun sum sub => sum + Z.of_nat (length (text sub))) subs 0 in
      let longest :=
        fold_left
          (fun max sub => if (length (text max) <? length (text sub))%nat then sub else max)
          subs first in
      mkStats (Z.of_nat (length subs))
              (getTotalDuration eng)
              (round (div (of_Z totalLength) (of_Z (Z.of_nat (length subs)))))
              (firstn 50 (text longest) ++ js "...")
              (offset eng)
              (Some (enabled eng))
  end.

(** *** exportToSRT *)

Definition _formatTimestamp (seconds : T) : jsstring :=
  let hours := floor (div seconds (of_Z 3600)) in
  let minutes := floor (div (rem seconds (of_Z 3600)) (of_Z 60)) in
  let secs := floor (rem seconds (of_Z 60)) in
  let ms := floor (mul (rem seconds (of_Z 1)) (of_Z 1000)) in
  padStart 2 (to_string hours) ++ js ":" ++ padStart 2 (to_string minutes) ++ js ":"
    ++ padStart 2 (to_string secs) ++ js "," ++ padStart 3 (to_string ms).

(** What one call of the [forEach] callback appends. *)
Definition export_entry (index : nat) (sub : Entry T) : jsstring :=
  (Z_to_js (Z.of_nat index + 1) ++ [LF])
    ++ (_formatTimestamp (start sub) ++ js " --> " ++ _formatTimestamp (end_ sub) ++ [LF])
    ++ (text sub ++ [LF; LF]).

Fixpoint export_from (index : nat) (subs : list (Entry T)) (srtContent : jsstring) : jsstring :=
  match subs with
  | [] => srtContent
  | sub :: rest => export_from (S index) rest (srtContent ++ export_entry index sub)
  end.

Definition exportToSRT (eng : Engine T) : jsstring :=
  trim (export_from 0 (subtitles eng) []).

(** *** The calls of a client, and the engine after one *)

Inductive call : Type :=
| CallLoadSubtitles (x : js_value T)
| CallClearSubtitles
| CallSetOffset (o : T)
| CallSetEnabled (flag : bool)
| CallGetSubtitleAtTime (currentTime : T)
| CallGetSubtitlesInRange (startTime endTime : T)
| CallGetStats
| CallExportToSRT
| CallParseSRT (content : jsstring)
| CallReset.

Definition after (eng : Engine T) (c : call) : Engine T :=
  match c with
  | CallLoadSubtitles x => snd (loadSubtitles eng x)
  | CallClearSubtitles => clearSubtitles eng
  | CallSetOffset o => setOffset eng o
  | CallSetEnabled flag => setEnabled eng flag
  | CallGetSubtitleAtTime t => snd (getSubtitleAtTime eng t)
  | CallGetSubtitlesInRange _ _ => eng
  | CallGetStats => eng
  | CallExportToSRT => eng
  | CallParseSRT _ => eng
  | CallReset => reset eng
  end.

(** *** The conditions of the data model *)

(** The cursor is in [-1, N-1]. *)
Definition cursor_ok (eng : Engine T) : Prop :=
  -1 <= currentIndex eng < Z.of_nat (length (subtitles eng)).

(** Ascending by [start]. *)
Fixpoint sorted (subs : list (Entry T)) : bool :=
  match subs with
  | a :: ((b :: _) as rest) => leb (start a) (start b) && sorted rest
  | _ => true
  end.

(** No two neighbours overlap: one ends before the next starts. *)
Fixpoint non_overlapping (subs : list (Entry T)) : bool :=
  match subs with
  | a :: ((b :: _) as rest) => ltb (end_ a) (start b) && non_overlapping rest
  | _ => true
  end.

(** No entry ends before it starts. *)
Definition proper (subs : list (Entry T)) : bool :=
  forallb (fun sub => leb (start sub) (end_ sub)) subs.

(** The first entry that holds [time], with its index. *)
Fixpoint find_from (i : Z) (subs : list (Entry T)) (time : T) : option (Entry T * Z) :=
  match subs with
  | [] => None
  | sub :: rest => if contains sub time then Some (sub, i) else find_from (i + 1) rest time
  end.

Definition entry_at (subs : list (Entry T)) (time : T) : option (Entry T * Z) :=
  find_from 0 subs time.

(** *** What [exportToSRT] writes for one subtitle, and what [parseSRT]
    reads back from it *)

Definition hours_text (seconds : T) : jsstring :=
  padStart 2 (to_string (floor (div seconds (of_Z 3600)))).

Definition minutes_text (seconds : T) : jsstring :=
  padStart 2 (to_string (floor (div (rem seconds (of_Z 3600)) (of_Z 60)))).

Definition seconds_text (seconds : T) : jsstring :=
  padStart 2 (to_string (floor (rem seconds (of_Z 60)))).

Definition millis_text (seconds : T) : jsstring :=
  padStart 3 (to_string (floor (mul (rem seconds (of_Z 1)) (of_Z 1000)))).

(** The four fields come out as two, two, two and three digits. *)
Definition well_stamped (seconds : T) : Prop :=
  digits 2 (hours_text seconds) /\ digits 2 (minutes_text seconds) /\
  digits 2 (seconds_text seconds) /\ digits 3 (millis_text seconds).

(** The time read back from the fields printed for [seconds]. *)
Definition restamp (seconds : T) : T :=
  _parseTimestamp (hours_text seconds) (minutes_text seconds)
                  (seconds_text seconds) (millis_text seconds).

Definition reparse (sub : Entry T) : Entry T :=
  mkEntry (restamp (start sub)) (restamp (end_ sub)) (text sub).

Definition block (index : nat) (sub : Entry T) : jsstring :=
  Z_to_js (Z.of_nat index + 1) ++ LF ::
    stamp_line (_formatTimestamp (start sub)) (_formatTimestamp (end_ sub)) ++ LF ::
    text sub.

Fixpoint blocks_from (index : nat) (subs : list (Entry T)) : list jsstring :=
  match subs with
  | [] => []
  | sub :: rest => block index sub :: blocks_from (S index) rest
  end.

Definition exportable (sub : Entry T) : Prop :=
  solid (text sub) /\ well_stamped (start sub) /\ well_stamped (end_ sub).

End SubtitleEngine.

(** The containment property in the words of the specification: after
    [setOffset(o)], a lookup at [t - o] returns the entry whose interval
    holds [t]. *)
Definition containment_as_stated (T : Type) `{Number T} : Prop :=
  forall (eng : Engine T) (o t : T) (k : Z) (entry : Entry T),
    sorted (subtitles eng) = true -> non_overlapping (subtitles eng) = true ->
    enabled eng = true ->
    get (subtitles eng) k = Some entry -> contains entry t = true ->
    fst (getSubtitleAtTime (setOffset eng o) (sub t o)) = Return (Some entry).

Arguments containment_as_stated T {_}.

(** ** Writing and reading back with exact arithmetic *)

Module ExactCodec.

Import Exact.
Local Open Scope Q_scope.

(** A time [_formatTimestamp] has room for: below one hundred hours. *)
Definition in_clock_range (x : Q) : Prop := 0 <= x /\ x < inject_Z 360000.

(** A whole number of milliseconds. *)
Definition quantized (x : Q) : Prop := exists k : Z, x == inject_Z k / inject_Z 1000.

Definition writable (sub : Entry Q) : Prop :=
  solid (text sub) /\ in_clock_range (start sub) /\ in_clock_range (end_ sub).

(** Equal texts, times within a millisecond, and equal when the time is a
    whole number of milliseconds. *)
Definition close (t t' : Q) : Prop :=
  Qabs (t' - t) <= 1 # 1000 /\ (quantized t -> t' == t).

Definition same_subtitle (sub sub' : Entry Q) : Prop :=
  text sub' = text sub /\ close (start sub) (start sub') /\ close (end_ sub) (end_ sub').

End ExactCodec.

(** ** Sample engines *)

Module Examples.

Import Float64.
Local Open Scope float_scope.

(** The entries of the locality scenario of the specification. *)
Definition abc : list (Entry float) :=
  [mkEntry 0 2 (js "a"); mkEntry 3 5 (js "b"); mkEntry 6 8 (js "c")].

Definition playing (i : Z) (o : float) : Engine float := mkEngine abc i o true 0.

(** A subtitle from 0.1 s to 2 s, shown 10 s early. *)
Definition tenth : float := of_Z 1 / of_Z 10.
Definition early : Engine float := mkEngine [mkEntry tenth 2 (js "a")] (-1) 0 true 0.

(** The scenario of the specification. *)
Definition hello_world : jsstring :=
  js "1\n00:00:01,000 --> 00:00:04,000\nHello\n\n2\n00:00:05,500 --> 00:00:08,250\nWorld\nLine2".

(** A text that starts with a space. *)
Definition indented : Engine float := mkEngine [mkEntry 1 4 (js " Hello")] (-1) 0 true 0.

(** The subtitles of the scenario, loaded. *)
Definition hello_world_loaded : Engine float :=
  mkEngine [mkEntry 1 4 (js "Hello"); mkEntry 5.5 8.25 (js "World\nLine2")] (-1) 0 true 0.

(** A subtitle from [00:00:04,005], as [parseSRT] reads it, to 5 s. *)
Definition four_005 : float := _parseTimestamp (js "00") (js "00") (js "04") (js "005").
Definition late_start : Engine float := mkEngine [mkEntry four_005 5 (js "x")] (-1) 0 true 0.

End Examples.


(** ** The other functions: validation, the utilities, the parser of the popup *)

(** Numbers that compare: [x <= x] fails for NaN only, and two numbers that
    are not NaN are ordered one way or the other. *)
Class NumberTotal (T : Type) `{Number T} : Prop := {
  zero_comparable : leb (of_Z 0) (of_Z 0) = true;
  leb_total : forall x y,
    leb x x = true -> leb y y = true -> leb x y = false -> ltb y x = true;
  ltb_total : forall x y,
    leb x x = true -> leb y y = true -> ltb x y = false -> leb y x = true
}.

Arguments NumberTotal T {_}.

(** [Array.prototype.findIndex]: the first index whose element passes, or -1. *)
Fixpoint findIndex_from {A : Type} (p : A -> bool) (i : Z) (a : list A) : Z :=
  match a with
  | [] => -1
  | x :: rest => if p x then i else findIndex_from p (i + 1) rest
  end.

Definition findIndex {A : Type} (p : A -> bool) (a : list A) : Z := findIndex_from p 0 a.

Section Utilities.

Context {T : Type} `{Number T}.

(** *** SubtitleEngine.validateSubtitles

    The entries of an array are subtitle objects with numbers and a string,
    so the three [typeof] tests pass. *)
Definition validateSubtitles (x : js_value T) : bool :=
  match x with
  | JsArray a =>
      match a with
      | [] => false
      | _ :: _ =>
          forallb (fun sub => negb (ltb (start sub) (of_Z 0) || leb (end_ sub) (start sub))) a
      end
  | _ => false
  end.

(** *** Utils.findSubtitleAtTime, Utils.findSubtitleIndexAtTime

    [None] for [subtitles] is [null] or [undefined].  The loop of
    [findSubtitleAtTime] is the loop of [_binarySearchSubtitle]; it returns
    the subtitle without its index. *)
Definition findSubtitleAtTime (subtitles : option (list (Entry T))) (currentTime offset : T)
  : completion (option (Entry T)) :=
  match subtitles with
  | None => Return None
  | Some subs =>
      if (Z.of_nat (length subs) =? 0) then Return None
      else
        let adjustedTime := add currentTime offset in
        match binary_search subs adjustedTime 0 (Z.of_nat (length subs) - 1) with
        | Throw e => Throw e
        | Return (Some found) => Return (Some (fst found))
        | Return None => Return None
        end
  end.

(** The [for] loop from [i] on, [steps] turns long. *)
Fixpoint scan_window (subs : list (Entry T)) (adjustedTime : T) (i : Z) (steps : nat)
  : completion (option Z) :=
  match steps with
  | O => Return None
  | S k =>
      match get subs i with
      | None => Throw TypeError
      | Some subtitle =>
          if contains subtitle adjustedTime then Return (Some i)
          else scan_window subs adjustedTime (i + 1) k
      end
  end.

Definition findSubtitleIndexAtTime (subtitles : option (list (Entry T)))
           (currentTime offset : T) (lastIndex : Z) : completion Z :=
  match subtitles with
  | None => Return (-1)
  | Some subs =>
      if (Z.of_nat (length subs) =? 0) then Return (-1)
      else
        let adjustedTime := add currentTime offset in
        let startIndex := Z.max 0 (lastIndex - 5) in
        let endIndex := Z.min (Z.of_nat (length subs)) (lastIndex + 10) in
        match scan_window subs adjustedTime startIndex (Z.to_nat (endIndex - startIndex)) with
        | Throw e => Throw e
        | Return (Some i) => Return i
        | Return None => Return (findIndex (fun sub => contains sub adjustedTime) subs)
        end
  end.

(** *** parseSRT and parseTimestamp of the popup

    The text is the lines from the third on, joined; it is not trimmed and
    not tested. *)
Definition popup_parseTimestamp (hours minutes seconds milliseconds : jsstring) : T :=
  add
    (add
       (add (mul (of_Z (parseInt hours)) (of_Z 3600))
            (mul (of_Z (parseInt minutes)) (of_Z 60)))
       (of_Z (parseInt seconds)))
    (div (of_Z (parseInt milliseconds)) (of_Z 1000)).

Definition popup_parse_block (subs : list (Entry T)) (block : jsstring) : list (Entry T) :=
  let lines := split_char LF (trim block) in
  if (length lines <? 3)%nat then subs
  else
    match search timestamp_re (nth 1 lines []) with
    | None => subs
    | Some timeMatch =>
        let startTime :=
          popup_parseTimestamp (group timeMatch 1) (group timeMatch 2)
                               (group timeMatch 3) (group timeMatch 4) in
        let endTime :=
          popup_parseTimestamp (group timeMatch 5) (group timeMatch 6)
                               (group timeMatch 7) (group timeMatch 8) in
        let text := join [LF] (skipn 2 lines) in
        subs ++ [mkEntry startTime endTime text]
    end.

Definition popup_parseSRT (content : jsstring) : list (Entry T) :=
  let blocks := split blank_line_re (trim content) in
  fold_left popup_parse_block blocks [].

(** *** Conditions used below *)

(** Neither the start nor the end of an entry is NaN. *)
Definition comparable (sub : Entry T) : bool :=
  leb (start sub) (start sub) && leb (end_ sub) (end_ sub).

(** An entry with its text trimmed. *)
Definition trim_text (sub : Entry T) : Entry T :=
  mkEntry (start sub) (end_ sub) (trim (text sub)).

End Utilities.

(** A string without a blank line: no line feed, white space, line feed in
    a row. *)
Definition no_blank (s : jsstring) : Prop :=
  forall a w b, s = a ++ LF :: w ++ LF :: b -> forallb is_space w = true -> False.

(** * Properties *)

Unset Implicit Arguments.

Import Float64 Exact Examples.

(** ** The order of binary64 and of the rationals *)

Module Float64Order.

Import Float64.

Lemma SFcompare_key (x y : spec_float) (c : comparison) :
  SFcompare x y = Some c <->
  exists a b, key x = Some a /\ key y = Some b /\
    match c with Lt => lex_lt a b | Eq => a = b | Gt => lex_lt b a end.
Proof.
  destruct x as [sx|sx| |sx mx ex], y as [sy|sy| |sy my ey];
    try destruct sx; try destruct sy; cbn [SFcompare key];
    try (split; [intros [= <-]; do 2 eexists; repeat split; cbn; lia
                | intros (a & b & [= <-] & [= <-] & Hc); f_equal;
                  destruct c; cbn in Hc; try reflexivity; try lia; congruence ]);
    try (split; [discriminate | intros (a & b & Ha & Hb & _); discriminate]).
  all: change (PosDef.Pos.compare_cont Eq mx my) with (Pos.compare mx my).
  all: split;
    [ intros E; injection E as <-; do 2 eexists; repeat split;
      destruct (Z.compare_spec ex ey), (Pos.compare_spec mx my); cbn; subst;
      try reflexivity; lia
    | intros (a & b & Ha & Hb & Hc); injection Ha as <-; injection Hb as <-; f_equal;
      destruct (Z.compare_spec ex ey), (Pos.compare_spec mx my), c; cbn in Hc; subst;
      try reflexivity; try (injection Hc; intros; lia); try lia ].
Qed.

Lemma leb_key (x y : float) :
  PrimFloat.leb x y = true <->
  exists a b, key (Prim2SF x) = Some a /\ key (Prim2SF y) = Some b /\ lex_le a b.
Proof.
  rewrite leb_spec. unfold SFleb.
  destruct (SFcompare (Prim2SF x) (Prim2SF y)) as [c|] eqn:E.
  - apply SFcompare_key in E. destruct E as (a & b & Ha & Hb & Hc).
    split.
    + intros Hle. exists a, b. repeat split; trivial.
      destruct c; [right | left | discriminate]; trivial.
    + intros (a' & b' & Ha' & Hb' & Hle).
      rewrite Ha in Ha'. rewrite Hb in Hb'. injection Ha' as <-. injection Hb' as <-.
      destruct c; trivial.
      destruct a as [[a1 a2] a3], b as [[b1 b2] b3].
      destruct Hle as [Hlt | Heq]; cbn in *; [lia | injection Heq; intros; lia].
  - split; [discriminate |].
    intros (a & b & Ha & Hb & Hle). exfalso.
    destruct Hle as [Hlt | ->].
    + assert (E' : SFcompare (Prim2SF x) (Prim2SF y) = Some Lt)
        by (apply SFcompare_key; eauto).
      congruence.
    + assert (E' : SFcompare (Prim2SF x) (Prim2SF y) = Some Eq)
        by (apply SFcompare_key; eauto).
      congruence.
Qed.

Lemma ltb_key (x y : float) :
  PrimFloat.ltb x y = true <->
  exists a b, key (Prim2SF x) = Some a /\ key (Prim2SF y) = Some b /\ lex_lt a b.
Proof.
  rewrite ltb_spec. unfold SFltb.
  destruct (SFcompare (Prim2SF x) (Prim2SF y)) as [c|] eqn:E.
  - apply SFcompare_key in E. destruct E as (a & b & Ha & Hb & Hc).
    split.
    + intros Hlt. exists a, b. repeat split; trivial.
      destruct c; trivial; discriminate.
    + intros (a' & b' & Ha' & Hb' & Hlt).
      rewrite Ha in Ha'. rewrite Hb in Hb'. injection Ha' as <-. injection Hb' as <-.
      destruct c; trivial; exfalso;
        destruct a as [[a1 a2] a3], b as [[b1 b2] b3]; cbn in *;
        [injection Hc; intros; lia | lia].
  - split; [discriminate |].
    intros (a & b & Ha & Hb & Hlt). exfalso.
    assert (E' : SFcompare (Prim2SF x) (Prim2SF y) = Some Lt)
      by (apply SFcompare_key; eauto).
    congruence.
Qed.

Ltac lex :=
  unfold lex_le, lex_lt;
  repeat match goal with
    | a : (Z * Z * Z)%type |- _ => destruct a as [[? ?] ?]
    end;
  intros;
  repeat match goal with
    | H : _ \/ (_, _, _) = (_, _, _) |- _ => destruct H as [H | H]
    | H : (_, _, _) = (_, _, _) |- _ => injection H as -> -> ->
    end;
  try lia; try (left; lia); try (right; reflexivity).

Lemma lex_le_trans a b c : lex_le a b -> lex_le b c -> lex_le a c.
Proof. lex. Qed.

Lemma lex_lt_le_trans a b c : lex_lt a b -> lex_le b c -> lex_lt a c.
Proof. lex. Qed.

Lemma lex_le_lt_trans a b c : lex_le a b -> lex_lt b c -> lex_lt a c.
Proof. lex. Qed.

Lemma lex_lt_not_le a b : lex_lt a b -> lex_le b a -> False.
Proof. lex. Qed.

Ltac keys :=
  repeat match goal with
    | H : PrimFloat.leb _ _ = true |- _ =>
        apply leb_key in H; destruct H as (? & ? & ? & ? & ?)
    | H : PrimFloat.ltb _ _ = true |- _ =>
        apply ltb_key in H; destruct H as (? & ? & ? & ? & ?)
    | H : key ?x = Some _, H' : key ?x = Some _ |- _ =>
        rewrite H in H'; injection H' as <-
    end.

#[export] Instance float_order : NumberOrder float.
Proof.
  constructor; cbn [leb ltb float_number].
  - intros x y z Hxy Hyz. keys. apply leb_key. do 2 eexists; repeat split; eauto.
    eapply lex_le_trans; eassumption.
  - intros x y z Hxy Hyz. keys. apply ltb_key. do 2 eexists; repeat split; eauto.
    eapply lex_lt_le_trans; eassumption.
  - intros x y z Hxy Hyz. keys. apply ltb_key. do 2 eexists; repeat split; eauto.
    eapply lex_le_lt_trans; eassumption.
  - intros x y Hxy. destruct (PrimFloat.leb y x) eqn:E; trivial. exfalso. keys.
    eapply lex_lt_not_le; eassumption.
  - intros x y Hxy. destruct (PrimFloat.ltb y x) eqn:E; trivial. exfalso. keys.
    eapply lex_lt_not_le; eassumption.
  - intros x y Hxy. keys. apply leb_key. do 2 eexists; repeat split; eauto.
    left. assumption.
Qed.

End Float64Order.

Module ExactOrder.

Import Exact.

Lemma Qltb_iff (x y : Q) : negb (Qle_bool y x) = true <-> (x < y)%Q.
Proof.
  rewrite negb_true_iff, <- not_true_iff_false, Qle_bool_iff.
  split; [apply Qnot_le_lt | apply Qlt_not_le].
Qed.

#[export] Instance Q_order : NumberOrder Q.
Proof.
  constructor; cbn [leb ltb Q_number]; intros *.
  - rewrite !Qle_bool_iff. apply Qle_trans.
  - rewrite !Qltb_iff, Qle_bool_iff. apply Qlt_le_trans.
  - rewrite !Qltb_iff, Qle_bool_iff. apply Qle_lt_trans.
  - rewrite Qltb_iff, <- not_true_iff_false, Qle_bool_iff. apply Qlt_not_le.
  - rewrite negb_false_iff. trivial.
  - rewrite Qltb_iff, Qle_bool_iff. apply Qlt_le_weak.
Qed.

End ExactOrder.

(** ** The lookup *)

Section EngineProperties.

Context {T : Type} {num : Number T} {ord : NumberOrder T}.

Implicit Types (subs : list (Entry T)) (eng : Engine T) (time : T).

Lemma get_nth_error {A} (a : list A) (i : Z) (x : A) :
  get a i = Some x <-> 0 <= i /\ nth_error a (Z.to_nat i) = Some x.
Proof.
  unfold get. destruct (Z.ltb_spec i 0); split; try discriminate; intuition lia.
Qed.

Lemma get_range {A} (a : list A) (i : Z) (x : A) :
  get a i = Some x -> 0 <= i < Z.of_nat (length a).
Proof.
  intros [Hi Hn]%get_nth_error.
  assert (Hlt : (Z.to_nat i < length a)%nat) by (apply nth_error_Some; congruence).
  lia.
Qed.

Lemma get_defined {A} (a : list A) (i : Z) :
  0 <= i < Z.of_nat (length a) -> exists x, get a i = Some x.
Proof.
  intros Hi. destruct (nth_error a (Z.to_nat i)) as [x|] eqn:E.
  - exists x. apply get_nth_error. split; [lia | assumption].
  - apply nth_error_None in E. lia.
Qed.

Lemma get_In {A} (a : list A) (i : Z) (x : A) : get a i = Some x -> In x a.
Proof. intros [_ Hn]%get_nth_error. eapply nth_error_In; eassumption. Qed.

Lemma head_before_rest subs :
  forall a, sorted (a :: subs) = true -> non_overlapping (a :: subs) = true ->
  forall b, In b subs ->
    leb (start a) (start b) = true /\ ltb (end_ a) (start b) = true.
Proof.
  induction subs as [|b1 rest IH]; intros a Hs Hn b Hb; [destruct Hb |].
  cbn [sorted non_overlapping] in Hs, Hn.
  apply andb_prop in Hs as [Hab Hs]. apply andb_prop in Hn as [Hlt Hn].
  destruct Hb as [<- | Hb]; [auto |].
  destruct (IH b1 Hs Hn b Hb) as [Hle _].
  split; [eapply leb_trans | eapply ltb_leb_trans]; eassumption.
Qed.

Lemma sorted_tail a subs : sorted (a :: subs) = true -> sorted subs = true.
Proof. destruct subs; cbn; [trivial | intros [_ ?]%andb_prop; assumption]. Qed.

Lemma non_overlapping_tail a subs :
  non_overlapping (a :: subs) = true -> non_overlapping subs = true.
Proof. destruct subs; cbn; [trivial | intros [_ ?]%andb_prop; assumption]. Qed.

Lemma ordered_nth subs :
  sorted subs = true -> non_overlapping subs = true ->
  forall (i j : nat) a b, (i < j)%nat ->
    nth_error subs i = Some a -> nth_error subs j = Some b ->
    leb (start a) (start b) = true /\ ltb (end_ a) (start b) = true.
Proof.
  induction subs as [|a0 rest IH]; intros Hs Hn i j a b Hij Ha Hb.
  - destruct i; discriminate.
  - destruct j as [|j]; [lia |]. cbn in Hb. destruct i as [|i].
    + injection Ha as <-. eapply head_before_rest; eauto using nth_error_In.
    + cbn in Ha. eapply IH with (i := i) (j := j); eauto using sorted_tail, non_overlapping_tail; lia.
Qed.

Lemma ordered_get subs (i j : Z) a b :
  sorted subs = true -> non_overlapping subs = true -> i < j ->
  get subs i = Some a -> get subs j = Some b ->
  leb (start a) (start b) = true /\ ltb (end_ a) (start b) = true.
Proof.
  intros Hs Hn Hij [Hi Ha]%get_nth_error [Hj Hb]%get_nth_error.
  eapply ordered_nth with (i := Z.to_nat i) (j := Z.to_nat j); eauto; lia.
Qed.

Lemma contains_bounds (sub : Entry T) time :
  contains sub time = true <->
  leb (start sub) time = true /\ leb time (end_ sub) = true.
Proof. unfold contains, geb. apply andb_true_iff. Qed.

(** Before the entry that holds [time]: it ends too early, and [time] is
    not before its start. *)
Lemma earlier_entry subs (i k : Z) a e time :
  sorted subs = true -> non_overlapping subs = true -> i < k ->
  get subs i = Some a -> get subs k = Some e -> contains e time = true ->
  contains a time = false /\ ltb time (start a) = false.
Proof.
  intros Hs Hn Hik Ha He [Hlo Hhi]%contains_bounds.
  destruct (ordered_get subs i k a e Hs Hn Hik Ha He) as [Hle Hlt].
  split.
  - unfold contains. apply andb_false_iff. right.
    apply ltb_not_leb. eapply ltb_leb_trans; eassumption.
  - apply leb_not_ltb. eapply leb_trans; eassumption.
Qed.

(** After the entry that holds [time]: [time] is before its start. *)
Lemma later_entry subs (i k : Z) a e time :
  sorted subs = true -> non_overlapping subs = true -> k < i ->
  get subs i = Some a -> get subs k = Some e -> contains e time = true ->
  contains a time = false /\ ltb time (start a) = true.
Proof.
  intros Hs Hn Hik Ha He [Hlo Hhi]%contains_bounds.
  destruct (ordered_get subs k i e a Hs Hn Hik He Ha) as [Hle Hlt].
  assert (Hbefore : ltb time (start a) = true) by (eapply leb_ltb_trans; eassumption).
  split; [| assumption].
  unfold contains, geb. apply andb_false_iff. left. apply ltb_not_leb. assumption.
Qed.

(** At most one entry holds a given time. *)
Lemma contains_unique subs (i k : Z) a e time :
  sorted subs = true -> non_overlapping subs = true ->
  get subs i = Some a -> get subs k = Some e ->
  contains a time = true -> contains e time = true -> i = k /\ a = e.
Proof.
  intros Hs Hn Ha He Hca Hce.
  destruct (Z.lt_trichotomy i k) as [Hlt | [-> | Hgt]].
  - destruct (earlier_entry subs i k a e time Hs Hn Hlt Ha He Hce). congruence.
  - split; congruence.
  - destruct (later_entry subs i k a e time Hs Hn Hgt Ha He Hce). congruence.
Qed.

Lemma binary_search_found subs time (k : Z) e :
  sorted subs = true -> non_overlapping subs = true ->
  get subs k = Some e -> contains e time = true ->
  forall lft rgt, 0 <= lft -> rgt < Z.of_nat (length subs) -> lft <= k <= rgt ->
  binary_search subs time lft rgt = Return (Some (e, k)).
Proof.
  intros Hs Hn He Hc lft rgt.
  funelim (binary_search subs time lft rgt); intros Hlo Hhi Hk.
  all: try lia.
  - destruct (get_defined subs ((lft + rgt) / 2)) as [x Hx];
      [Z.div_mod_to_equations; lia | congruence].
  - destruct (contains_unique subs _ _ _ _ time Hs Hn Heq0 He Heq Hc) as [<- <-].
    reflexivity.
  - apply (H subs time k e Hs Hn He Hc lft ((lft + rgt) / 2 - 1) eq_refl eq_refl);
      [lia | Z.div_mod_to_equations; lia |].
    destruct (Z.lt_trichotomy k ((lft + rgt) / 2)) as [Hlt | [-> | Hgt]].
    + lia.
    + congruence.
    + destruct (earlier_entry subs _ _ _ _ time Hs Hn Hgt Heq1 He Hc). congruence.
  - apply (H subs time k e Hs Hn He Hc ((lft + rgt) / 2 + 1) rgt eq_refl eq_refl);
      [Z.div_mod_to_equations; lia | lia |].
    destruct (Z.lt_trichotomy k ((lft + rgt) / 2)) as [Hlt | [-> | Hgt]].
    + destruct (later_entry subs _ _ _ _ time Hs Hn Hlt Heq1 He Hc). congruence.
    + congruence.
    + lia.
Qed.

Lemma binary_search_none subs time :
  (forall sub, In sub subs -> contains sub time = false) ->
  forall lft rgt, 0 <= lft -> rgt < Z.of_nat (length subs) ->
  binary_search subs time lft rgt = Return None.
Proof.
  intros Hnone lft rgt.
  funelim (binary_search subs time lft rgt); intros Hlo Hhi.
  - reflexivity.
  - destruct (get_defined subs ((lft + rgt) / 2)) as [x Hx];
      [Z.div_mod_to_equations; lia | congruence].
  - apply get_In in Heq0. rewrite (Hnone _ Heq0) in Heq. discriminate.
  - apply H; [assumption | lia | Z.div_mod_to_equations; lia].
  - apply H; [assumption | Z.div_mod_to_equations; lia | lia].
Qed.

Lemma find_from_some subs time : forall (i k : Z) e,
  find_from i subs time = Some (e, k) ->
  i <= k /\ nth_error subs (Z.to_nat (k - i)) = Some e /\ contains e time = true.
Proof.
  induction subs as [|a rest IH]; intros i k e Hf; [discriminate |].
  cbn [find_from] in Hf. destruct (contains a time) eqn:Ea.
  - injection Hf as <- <-. rewrite Z.sub_diag. auto with zarith.
  - apply IH in Hf as (Hik & Hnth & Hc). repeat split; [lia | | assumption].
    replace (Z.to_nat (k - i)) with (S (Z.to_nat (k - (i + 1)))) by lia. assumption.
Qed.

Lemma find_from_none subs time : forall (i : Z),
  find_from i subs time = None ->
  forall sub, In sub subs -> contains sub time = false.
Proof.
  induction subs as [|a rest IH]; intros i Hf sub Hin; [destruct Hin |].
  cbn [find_from] in Hf. destruct (contains a time) eqn:Ea; [discriminate |].
  destruct Hin as [<- | Hin]; [assumption | eauto].
Qed.

Lemma entry_at_some subs time e (k : Z) :
  entry_at subs time = Some (e, k) ->
  get subs k = Some e /\ contains e time = true.
Proof.
  intros (Hk & Hnth & Hc)%find_from_some. rewrite Z.sub_0_r in Hnth.
  split; [apply get_nth_error; auto | assumption].
Qed.

Lemma entry_at_none subs time :
  entry_at subs time = None ->
  forall sub, In sub subs -> contains sub time = false.
Proof. apply find_from_none. Qed.

(** An entry that holds [time] in an ordered sequence is the one
    [entry_at] finds. *)
Lemma entry_at_unique subs time e (k : Z) :
  sorted subs = true -> non_overlapping subs = true ->
  get subs k = Some e -> contains e time = true ->
  entry_at subs time = Some (e, k).
Proof.
  intros Hs Hn He Hc. destruct (entry_at subs time) as [[e' k']|] eqn:E.
  - apply entry_at_some in E as [He' Hc'].
    destruct (contains_unique subs _ _ _ _ time Hs Hn He He' Hc Hc') as [-> ->].
    reflexivity.
  - apply get_In in He. rewrite (entry_at_none subs time E e He) in Hc. discriminate.
Qed.

Lemma set_currentIndex_same eng : set_currentIndex eng (currentIndex eng) = eng.
Proof. destruct eng; reflexivity. Qed.

Lemma probe_defined subs (i : Z) time :
  0 <= i < Z.of_nat (length subs) ->
  exists sub, get subs i = Some sub /\
    probe subs i time = Return (if contains sub time then Some sub else None).
Proof.
  intros Hi. destruct (get_defined subs i Hi) as [sub Hsub].
  exists sub. unfold probe. rewrite Hsub. auto.
Qed.

(** One of the three probes around the cursor, when some entry holds
    [time]: it misses, or it returns that entry. *)
Lemma guarded_probe_found subs time e (k : Z) (guard : bool) (j : Z) :
  sorted subs = true -> non_overlapping subs = true ->
  get subs k = Some e -> contains e time = true ->
  (guard = true -> 0 <= j < Z.of_nat (length subs)) ->
  let r := if guard then probe subs j time else Return None in
  r = Return None \/ (r = Return (Some e) /\ j = k).
Proof.
  intros Hs Hn He Hc Hj. destruct guard; cbn; [| auto].
  destruct (probe_defined subs j time (Hj eq_refl)) as (a & Ha & ->).
  destruct (contains a time) eqn:Ca; [| auto].
  destruct (contains_unique subs _ _ _ _ time Hs Hn Ha He Ca Hc) as [-> ->]. auto.
Qed.

Lemma guarded_probe_none subs time (guard : bool) (j : Z) :
  (forall sub, In sub subs -> contains sub time = false) ->
  (guard = true -> 0 <= j < Z.of_nat (length subs)) ->
  (if guard then probe subs j time else Return None) = Return None.
Proof.
  intros Hnone Hj. destruct guard; [| reflexivity].
  destruct (probe_defined subs j time (Hj eq_refl)) as (a & Ha & ->).
  rewrite (Hnone a (get_In _ _ _ Ha)). reflexivity.
Qed.

(** What a lookup does on an ordered sequence, whichever of the four
    paths answers. *)
Lemma getSubtitleAtTime_spec eng time :
  sorted (subtitles eng) = true -> non_overlapping (subtitles eng) = true ->
  cursor_ok eng -> enabled eng = true ->
  getSubtitleAtTime eng time =
    match entry_at (subtitles eng) (add time (offset eng)) with
    | Some (sub, index) => (Return (Some sub), set_currentIndex eng index)
    | None => (Return None, eng)
    end.
Proof.
  intros Hs Hn Hcur Hen. unfold cursor_ok in Hcur.
  unfold getSubtitleAtTime, _binarySearchSubtitle. rewrite Hen. cbn [negb orb].
  set (subs := subtitles eng) in *. set (adj := add time (offset eng)).
  set (n := Z.of_nat (length subs)) in *. set (i := currentIndex eng) in *.
  destruct (Z.eqb_spec n 0) as [Hz | Hnz].
  { destruct subs; [reflexivity | cbn in Hz; lia]. }
  destruct (entry_at subs adj) as [[e k]|] eqn:E.
  - apply entry_at_some in E as [He Hc].
    destruct (guarded_probe_found subs adj e k ((0 <=? i) && (i <? n)) i Hs Hn He Hc)
      as [-> | [-> <-]]; [lia | | subst i; rewrite set_currentIndex_same; reflexivity].
    destruct (guarded_probe_found subs adj e k (i + 1 <? n) (i + 1) Hs Hn He Hc)
      as [-> | [-> <-]]; [lia | | reflexivity].
    destruct (guarded_probe_found subs adj e k (0 <=? i - 1) (i - 1) Hs Hn He Hc)
      as [-> | [-> <-]]; [lia | | reflexivity].
    rewrite (binary_search_found subs adj k e Hs Hn He Hc); [reflexivity | lia | lia |].
    apply get_range in He. lia.
  - pose proof (entry_at_none subs adj E) as Hnone.
    rewrite !guarded_probe_none by (trivial; lia).
    rewrite binary_search_none by (trivial; lia). reflexivity.
Qed.

End EngineProperties.

(** ** The cursor, loading and the enable flag *)

Section Invariant.

Context {T : Type} {num : Number T}.

Implicit Types (subs : list (Entry T)) (eng : Engine T) (time : T).

(** A match of the binary search is an entry of the searched range that
    holds the time. *)
Lemma binary_search_index subs time (lft rgt : Z) e (k : Z) :
  binary_search subs time lft rgt = Return (Some (e, k)) ->
  lft <= k <= rgt /\ get subs k = Some e /\ contains e time = true.
Proof.
  funelim (binary_search subs time lft rgt); intros Hr; try discriminate.
  - injection Hr as <- <-. repeat split; trivial; Z.div_mod_to_equations; lia.
  - apply H in Hr. intuition (Z.div_mod_to_equations; lia).
  - apply H in Hr. intuition (Z.div_mod_to_equations; lia).
Qed.

(** A lookup leaves the engine as it is or moves the cursor to an index
    of the sequence. *)
Lemma getSubtitleAtTime_state eng time :
  cursor_ok eng ->
  snd (getSubtitleAtTime eng time) = eng \/
  exists k, 0 <= k < Z.of_nat (length (subtitles eng)) /\
    snd (getSubtitleAtTime eng time) = set_currentIndex eng k.
Proof.
  unfold cursor_ok. intros Hcur.
  unfold getSubtitleAtTime, _binarySearchSubtitle.
  destruct (negb (enabled eng) || _)%bool; [left; reflexivity |].
  destruct (if (0 <=? currentIndex eng) && _ then _ else _)%bool as [[?|]|];
    try (left; reflexivity).
  destruct (currentIndex eng + 1 <? _) eqn:G2;
    [destruct (probe _ _ _) as [[?|]|] |];
    try (left; reflexivity); try (right; eexists; split; [| reflexivity]; lia).
  all: destruct (0 <=? currentIndex eng - 1) eqn:G3;
    [destruct (probe _ _ _) as [[?|]|] |];
    try (left; reflexivity); try (right; eexists; split; [| reflexivity]; lia).
  all: destruct (binary_search _ _ _ _) as [[[e k]|]|] eqn:B; try (left; reflexivity).
  all: apply binary_search_index in B as (Hk & _ & _).
  all: right; exists k; split; [lia | reflexivity].
Qed.

Lemma getSubtitleAtTime_cursor eng time :
  cursor_ok eng -> cursor_ok (snd (getSubtitleAtTime eng time)).
Proof.
  intros Hcur.
  destruct (getSubtitleAtTime_state eng time Hcur) as [-> | (k & Hk & ->)];
    [assumption |].
  unfold cursor_ok. cbn. lia.
Qed.

Lemma binary_search_returns subs time (lft rgt : Z) :
  0 <= lft -> rgt < Z.of_nat (length subs) ->
  exists r, binary_search subs time lft rgt = Return r.
Proof.
  funelim (binary_search subs time lft rgt); intros Hlo Hhi.
  - eexists; reflexivity.
  - destruct (get_defined subs ((lft + rgt) / 2)) as [x Hx];
      [Z.div_mod_to_equations; lia | congruence].
  - eexists; reflexivity.
  - apply H; [lia | Z.div_mod_to_equations; lia].
  - apply H; [Z.div_mod_to_equations; lia | lia].
Qed.

(** A lookup never throws when the cursor is in range. *)
Lemma getSubtitleAtTime_returns eng time :
  cursor_ok eng -> exists r, fst (getSubtitleAtTime eng time) = Return r.
Proof.
  unfold cursor_ok. intros Hcur.
  unfold getSubtitleAtTime, _binarySearchSubtitle.
  destruct (negb (enabled eng) || (_ =? 0))%bool eqn:G0; [eexists; reflexivity |].
  assert (Hprobe : forall (guard : bool) j,
             (guard = true -> 0 <= j < Z.of_nat (length (subtitles eng))) ->
             exists r, (if guard then probe (subtitles eng) j (add time (offset eng))
                        else Return None) = Return r).
  { intros [|] j Hj; [| eexists; reflexivity].
    destruct (probe_defined (subtitles eng) j (add time (offset eng)) (Hj eq_refl))
      as (a & _ & ->). eexists; reflexivity. }
  destruct (Hprobe ((0 <=? currentIndex eng) && (currentIndex eng <? Z.of_nat (length (subtitles eng))))%bool
              (currentIndex eng)) as [[?|] ->]; [lia | eexists; reflexivity |].
  destruct (Hprobe (currentIndex eng + 1 <? Z.of_nat (length (subtitles eng)))
              (currentIndex eng + 1)) as [[?|] ->]; [lia | eexists; reflexivity |].
  destruct (Hprobe (0 <=? currentIndex eng - 1) (currentIndex eng - 1))
    as [[?|] ->]; [lia | eexists; reflexivity |].
  destruct (binary_search_returns (subtitles eng) (add time (offset eng)) 0
              (Z.of_nat (length (subtitles eng)) - 1)) as [[?|] ->];
    try lia; eexists; reflexivity.
Qed.

Lemma new_engine_cursor : cursor_ok (@new_engine T num).
Proof. unfold cursor_ok. cbn. lia. Qed.

(** C6. The cursor stays an integer of [-1, N-1], N the length of the
    loaded sequence, through every call on the engine: [loadSubtitles]
    (also when it throws), [clearSubtitles], [setOffset], [setEnabled],
    [getSubtitleAtTime] on each of its paths, [getSubtitlesInRange],
    [getStats], [exportToSRT], [parseSRT] and [reset]. *)
Theorem cursor_invariant eng (c : call) :
  cursor_ok eng -> cursor_ok (after eng c).
Proof.
  intros Hcur. destruct c as [x| | | | | | | | |]; cbn [after]; trivial.
  - destruct x; cbn; trivial. unfold cursor_ok. cbn. lia.
  - unfold cursor_ok. cbn. lia.
  - unfold cursor_ok. cbn. unfold cursor_ok in Hcur. lia.
  - apply getSubtitleAtTime_cursor. assumption.
  - apply new_engine_cursor.
Qed.

(** Hence the cursor is in range after any sequence of calls on a new
    engine. *)
Corollary cursor_always (calls : list call) :
  cursor_ok (fold_left after calls new_engine).
Proof.
  assert (Hall : forall eng, cursor_ok eng -> cursor_ok (fold_left after calls eng)).
  { induction calls as [|c calls IH]; intros eng Hcur; cbn; [assumption |].
    apply IH, cursor_invariant, Hcur. }
  apply Hall, new_engine_cursor.
Qed.

(** C5. [loadSubtitles(x)] throws exactly when [x] is not an array; then
    the engine is as before.  Any array is accepted as it is: it becomes
    the sequence and the cursor goes to -1, the other fields staying. *)
Theorem loadSubtitles_array_only eng (x : js_value T) :
  ((exists e, fst (loadSubtitles eng x) = Throw e) <-> forall a, x <> JsArray a) /\
  ((forall a, x <> JsArray a) -> snd (loadSubtitles eng x) = eng) /\
  (forall a, x = JsArray a ->
     loadSubtitles eng x =
       (Return tt, mkEngine a (-1) (offset eng) (enabled eng) (lastUpdateTime eng))).
Proof.
  split; [| split].
  - destruct x; cbn; split;
      try (intros _ a; discriminate); try (intros _; eexists; reflexivity).
    + intros [e He]. discriminate.
    + intros Hna. destruct (Hna a eq_refl).
  - destruct x; cbn; trivial. intros Hna. destruct (Hna a eq_refl).
  - intros a ->. reflexivity.
Qed.

(** C8. [setEnabled(flag)] writes the flag and nothing else, the cursor
    included; a lookup on a disabled engine, or on one without
    subtitles, returns null for every time and leaves the engine as it
    is. *)
Theorem setEnabled_lookup eng (flag : bool) time :
  setEnabled eng flag =
    mkEngine (subtitles eng) (currentIndex eng) (offset eng) flag (lastUpdateTime eng) /\
  currentIndex (setEnabled eng flag) = currentIndex eng /\
  getSubtitleAtTime (setEnabled eng false) time = (Return None, setEnabled eng false) /\
  (forall sub, In sub (subtitles eng) -> contains sub (add time (offset eng)) = true ->
     fst (getSubtitleAtTime (setEnabled eng false) time) = Return None) /\
  (enabled eng = false \/ subtitles eng = [] ->
     getSubtitleAtTime eng time = (Return None, eng)).
Proof.
  repeat split.
  intros [Hdis | Hempty]; unfold getSubtitleAtTime.
  - rewrite Hdis. reflexivity.
  - rewrite Hempty. cbn. rewrite orb_true_r. reflexivity.
Qed.

End Invariant.

(** ** Containment, gaps and the offset *)

Import Float64Order ExactOrder.

Section Lookup.

Context {T : Type} {num : Number T} {ord : NumberOrder T}.

Implicit Types (subs : list (Entry T)) (eng : Engine T) (time : T).

(** C1 (amended). On a sequence ascending by start and without overlap,
    with the engine enabled and the cursor anywhere in [-1, N-1], a lookup
    at a playback time whose adjusted time [time + offset], as the engine
    computes it, lies in [entry.start, entry.end] returns that entry and
    leaves the cursor on it, whichever of the four paths answers. *)
Theorem lookup_containment eng time (k : Z) (entry : Entry T) :
  sorted (subtitles eng) = true -> non_overlapping (subtitles eng) = true ->
  cursor_ok eng -> enabled eng = true ->
  get (subtitles eng) k = Some entry ->
  contains entry (add time (offset eng)) = true ->
  getSubtitleAtTime eng time = (Return (Some entry), set_currentIndex eng k).
Proof.
  intros Hs Hn Hcur Hen He Hc.
  rewrite getSubtitleAtTime_spec by assumption.
  rewrite (entry_at_unique _ _ _ _ Hs Hn He Hc). reflexivity.
Qed.

Lemma proper_get subs (i : Z) a :
  proper subs = true -> get subs i = Some a -> leb (start a) (end_ a) = true.
Proof.
  intros Hp Ha%get_In. unfold proper in Hp. rewrite forallb_forall in Hp. auto.
Qed.

(** No entry holds a time that falls between two neighbours. *)
Lemma gap_holds_nothing subs time (i : Z) a b :
  sorted subs = true -> non_overlapping subs = true -> proper subs = true ->
  get subs i = Some a -> get subs (i + 1) = Some b ->
  ltb (end_ a) time = true -> ltb time (start b) = true ->
  entry_at subs time = None.
Proof.
  intros Hs Hn Hp Ha Hb Hafter Hbefore.
  destruct (entry_at subs time) as [[e k]|] eqn:E; [exfalso | reflexivity].
  apply entry_at_some in E as [He [Hlo Hhi]%contains_bounds].
  assert (Hlate : leb time (end_ a) = false) by (apply ltb_not_leb; assumption).
  assert (Hearly : leb (start b) time = false) by (apply ltb_not_leb; assumption).
  destruct (Z.lt_trichotomy k i) as [Hlt | [-> | Hgt]].
  - destruct (ordered_get subs k i e a Hs Hn Hlt He Ha) as [_ Hea].
    pose proof (proper_get subs i a Hp Ha) as Hpa.
    assert (Hee : ltb (end_ e) time = true).
    { eapply ltb_leb_trans; [| apply ltb_leb; eassumption].
      eapply ltb_leb_trans; eassumption. }
    apply ltb_not_leb in Hee. congruence.
  - congruence.
  - destruct (Z.eq_dec k (i + 1)) as [-> | Hne]; [congruence |].
    destruct (ordered_get subs (i + 1) k b e Hs Hn ltac:(lia) Hb He) as [Hbe _].
    assert (leb (start b) time = true) by (eapply leb_trans; eassumption).
    congruence.
Qed.

(** C3. On a sequence of entries (none ending before it starts) that is
    ascending and without overlap, with the engine enabled, a lookup whose
    adjusted time lies strictly between the end of an entry and the start
    of the next returns null and leaves the engine, the cursor included,
    as it was. *)
Theorem gap_lookup eng time (i : Z) (a b : Entry T) :
  sorted (subtitles eng) = true -> non_overlapping (subtitles eng) = true ->
  proper (subtitles eng) = true ->
  cursor_ok eng -> enabled eng = true ->
  get (subtitles eng) i = Some a -> get (subtitles eng) (i + 1) = Some b ->
  ltb (end_ a) (add time (offset eng)) = true ->
  ltb (add time (offset eng)) (start b) = true ->
  getSubtitleAtTime eng time = (Return None, eng) /\
  currentIndex (snd (getSubtitleAtTime eng time)) = currentIndex eng.
Proof.
  intros Hs Hn Hp Hcur Hen Ha Hb Hafter Hbefore.
  rewrite getSubtitleAtTime_spec by assumption.
  rewrite (gap_holds_nothing _ _ _ _ _ Hs Hn Hp Ha Hb Hafter Hbefore). auto.
Qed.

(** C7. [setOffset(o)] stores [o] and puts the cursor at -1; the
    sequence, the enable flag and [lastUpdateTime] stay.  On a sequence
    ascending and without overlap the next lookup answers by the new
    offset alone: the entry that holds [time + o], or null when there is
    none (or the engine is disabled). *)
Theorem setOffset_lookup eng (o : T) time :
  sorted (subtitles eng) = true -> non_overlapping (subtitles eng) = true ->
  setOffset eng o = mkEngine (subtitles eng) (-1) o (enabled eng) (lastUpdateTime eng) /\
  fst (getSubtitleAtTime (setOffset eng o) time) =
    Return (if enabled eng
            then option_map fst (entry_at (subtitles eng) (add time o))
            else None) /\
  (forall entry, fst (getSubtitleAtTime (setOffset eng o) time) = Return (Some entry) ->
     In entry (subtitles eng) /\ contains entry (add time o) = true).
Proof.
  intros Hs Hn.
  assert (Hlook : fst (getSubtitleAtTime (setOffset eng o) time) =
            Return (if enabled eng
                    then option_map fst (entry_at (subtitles eng) (add time o))
                    else None)).
  { destruct (enabled eng) eqn:Hen.
    - rewrite getSubtitleAtTime_spec; cbn [setOffset subtitles offset enabled]; trivial.
      + destruct (entry_at _ _) as [[e k]|]; reflexivity.
      + unfold cursor_ok. cbn. lia.
    - unfold getSubtitleAtTime. cbn [setOffset enabled]. rewrite Hen. reflexivity. }
  split; [reflexivity | split; [assumption |]].
  intros entry Hr. rewrite Hlook in Hr. injection Hr as Hr.
  destruct (enabled eng); [| discriminate].
  destruct (entry_at _ _) as [[e k]|] eqn:E; [| discriminate].
  injection Hr as ->. apply entry_at_some in E as [He Hc].
  split; [eapply get_In; eassumption | assumption].
Qed.

End Lookup.

(** The containment property as the specification words it holds when the
    arithmetic is exact. *)
Lemma containment_exact : containment_as_stated Q.
Proof.
  intros eng o t k entry Hs Hn Hen He Hc.
  assert (Hadj : contains entry (add (sub t o) o) = true).
  { unfold contains, geb in *. cbn [add sub leb Exact.Q_number] in *.
    assert (Heq : (t - o + o == t)%Q) by ring.
    rewrite Heq. assumption. }
  rewrite getSubtitleAtTime_spec; cbn [setOffset subtitles offset enabled]; trivial.
  - rewrite (entry_at_unique _ _ _ _ Hs Hn He Hadj). reflexivity.
  - unfold cursor_ok. cbn. apply get_range in He. lia.
Qed.


(** C1 as stated fails on binary64: [(0.1 - (-10)) + (-10)] is below
    [0.1], so with the entry from 0.1 s to 2 s the time [0.1] lies in the
    entry and the lookup at [0.1 - (-10)] after [setOffset(-10)] returns
    null. *)
Lemma containment_binary64_counterexample : ~ containment_as_stated float.
Proof.
  intros Hstated.
  specialize (Hstated early (of_Z (-10)) tenth 0 (mkEntry tenth (of_Z 2) (js "a"))
                eq_refl eq_refl eq_refl eq_refl eq_refl).
  vm_compute in Hstated. discriminate.
Qed.

(** [lookup_containment] on the entries a, b, c with offset 1: from the
    cursor on a, the lookup at 3 s (adjusted 4 s) returns b. *)
Lemma lookup_containment_witness :
  getSubtitleAtTime (playing 0 (of_Z 1)) (of_Z 3) =
    (Return (Some (mkEntry (of_Z 3) (of_Z 5) (js "b"))),
     set_currentIndex (playing 0 (of_Z 1)) 1).
Proof.
  apply (lookup_containment (playing 0 (of_Z 1)) (of_Z 3) 1); try reflexivity.
  unfold cursor_ok; cbn; lia.
Defined.

(** [gap_lookup] on the entries a, b, c: at 5.5 s, between b and c, the
    lookup returns null and the cursor stays on b. *)
Lemma gap_lookup_witness :
  getSubtitleAtTime (playing 1 (of_Z 0)) (5.5)%float = (Return None, playing 1 (of_Z 0)) /\
  currentIndex (snd (getSubtitleAtTime (playing 1 (of_Z 0)) (5.5)%float)) = 1.
Proof.
  apply (gap_lookup (playing 1 (of_Z 0)) 5.5%float 1
           (mkEntry (of_Z 3) (of_Z 5) (js "b")) (mkEntry (of_Z 6) (of_Z 8) (js "c")));
    try reflexivity.
  unfold cursor_ok; cbn; lia.
Defined.

(** [setOffset_lookup] on the entries a, b, c: after [setOffset(3)] the
    lookup at 4 s returns c, not the entry b the cursor was on. *)
Lemma setOffset_lookup_witness :
  fst (getSubtitleAtTime (setOffset (playing 1 (of_Z 0)) (of_Z 3)) (of_Z 4)) =
    Return (Some (mkEntry (of_Z 6) (of_Z 8) (js "c"))).
Proof.
  exact (proj1 (proj2 (setOffset_lookup (playing 1 (of_Z 0)) (of_Z 3) (of_Z 4)
                         eq_refl eq_refl))).
Defined.

(** [cursor_invariant] on a lookup that moves the cursor. *)
Lemma cursor_invariant_witness :
  cursor_ok (after (playing 1 (of_Z 0)) (CallGetSubtitleAtTime (of_Z 7))).
Proof.
  apply (cursor_invariant (playing 1 (of_Z 0)) (CallGetSubtitleAtTime (of_Z 7))).
  unfold cursor_ok; cbn; lia.
Defined.

(** ** Strings, patterns and blocks *)

Module JsStringFacts.


Lemma trimStart_suffix (s : jsstring) : exists w, s = w ++ trimStart s /\ forallb is_space w = true.
Proof.
  induction s as [|c s IH]; [exists []; auto |].
  cbn [trimStart]. destruct (is_space c) eqn:E; [| exists []; auto].
  destruct IH as (w & Hs & Hw). exists (c :: w). cbn. rewrite E, Hw. split; [congruence | reflexivity].
Qed.

Lemma trimStart_fixed (c : code_unit) (s : jsstring) :
  is_space c = false -> trimStart (c :: s) = c :: s.
Proof. intros E. cbn. rewrite E. reflexivity. Qed.

Lemma trimStart_length (s : jsstring) : (length (trimStart s) <= length s)%nat.
Proof.
  destruct (trimStart_suffix s) as (w & Hs & _).
  rewrite Hs at 2. rewrite length_app. lia.
Qed.

Lemma trimEnd_length (s : jsstring) : (length (trimEnd s) <= length s)%nat.
Proof.
  unfold trimEnd. rewrite length_rev. rewrite <- (length_rev s). apply trimStart_length.
Qed.

Lemma trimStart_same_length (s : jsstring) :
  length (trimStart s) = length s -> trimStart s = s.
Proof.
  intros Hlen. destruct (trimStart_suffix s) as (w & Hs & _).
  rewrite Hs in Hlen at 2. rewrite length_app in Hlen.
  destruct w; [symmetry; exact Hs | cbn in Hlen; lia].
Qed.

(** A string that [trim] leaves alone has no white space at either end. *)
Lemma trim_fixed_ends (s : jsstring) :
  trim s = s -> trimStart s = s /\ trimEnd s = s.
Proof.
  intros Ht. unfold trim in Ht.
  assert (Hstart : trimStart s = s).
  { apply trimStart_same_length.
    pose proof (trimStart_length s). pose proof (trimEnd_length (trimStart s)).
    rewrite Ht in *. lia. }
  rewrite Hstart in Ht. auto.
Qed.

Lemma trimEnd_app (s t : jsstring) :
  trimEnd t = t -> t <> [] -> trimEnd (s ++ t) = s ++ t.
Proof.
  unfold trimEnd. intros Ht Hne.
  rewrite rev_app_distr.
  assert (Hrev : trimStart (rev t) = rev t).
  { rewrite <- (rev_involutive (trimStart (rev t))). rewrite Ht. reflexivity. }
  destruct (rev t) as [|c r] eqn:Er.
  - apply (f_equal (@rev _)) in Er. rewrite rev_involutive in Er. contradiction.
  - cbn [app]. cbn [trimStart] in Hrev |- *.
    destruct (is_space c) eqn:Ec.
    + exfalso. pose proof (trimStart_length r) as Hl. rewrite Hrev in Hl. cbn in Hl. lia.
    + change (c :: r ++ rev s) with ((c :: r) ++ rev s).
      rewrite <- Er, <- rev_app_distr. apply rev_involutive.
Qed.

Lemma trim_app (c : code_unit) (s t : jsstring) :
  is_space c = false -> trimEnd t = t -> t <> [] -> trim (c :: s ++ t) = c :: s ++ t.
Proof.
  intros Ec Ht Hne. unfold trim. rewrite trimStart_fixed by assumption.
  apply (trimEnd_app (c :: s) t Ht Hne).
Qed.

(** [trim] removes what [format] appends after the last text. *)
Lemma trimEnd_spaces (s w : jsstring) :
  forallb is_space w = true -> trimEnd (s ++ w) = trimEnd s.
Proof.
  unfold trimEnd. intros Hw. rewrite rev_app_distr. f_equal.
  assert (Hrev : forallb is_space (rev w) = true).
  { rewrite forallb_forall in *. intros x Hx. apply Hw, in_rev, Hx. }
  induction (rev w) as [|x r IH]; [reflexivity |].
  cbn in Hrev |- *. apply andb_prop in Hrev as [-> Hr]. auto.
Qed.


Lemma split_char_nonempty (c : code_unit) (s : jsstring) : split_char c s <> [].
Proof.
  induction s as [|x s IH]; cbn; [discriminate |].
  destruct (N.eqb x c); [discriminate |].
  destruct (split_char c s); [contradiction | discriminate].
Qed.

Lemma split_char_app (s t : jsstring) :
  no_LF s -> split_char LF (s ++ LF :: t) = s :: split_char LF t.
Proof.
  unfold no_LF. induction s as [|x s IH]; intros Hs; cbn [app split_char].
  - rewrite N.eqb_refl. reflexivity.
  - destruct (N.eqb_spec x LF) as [-> | Hx]; [exfalso; apply Hs; left; reflexivity |].
    rewrite IH; [reflexivity |]. intros Hin. apply Hs. right. assumption.
Qed.

Lemma split_char_line (s : jsstring) : no_LF s -> split_char LF s = [s].
Proof.
  unfold no_LF. induction s as [|x s IH]; intros Hs; cbn [split_char]; [reflexivity |].
  destruct (N.eqb_spec x LF) as [-> | Hx]; [exfalso; apply Hs; left; reflexivity |].
  rewrite IH; [reflexivity |]. intros Hin. apply Hs. right. assumption.
Qed.

Lemma split_char_lines (s : jsstring) : Forall no_LF (split_char LF s).
Proof.
  induction s as [|x s IH]; cbn [split_char].
  - constructor; [intros [] | constructor].
  - destruct (N.eqb_spec x LF) as [-> | Hx].
    + constructor; [intros [] | assumption].
    + destruct (split_char LF s) as [|l ls]; [constructor; [| constructor] |].
      * intros [Hin | []]. congruence.
      * inversion IH as [|? ? Hl Hls]; subst. constructor; [| assumption].
        intros [Hin | Hin]; [congruence | contradiction].
Qed.

Lemma join_cons (sep x : jsstring) (l : list jsstring) :
  l <> [] -> join sep (x :: l) = x ++ sep ++ join sep l.
Proof. destruct l; [contradiction | reflexivity]. Qed.

Lemma join_split_char (s : jsstring) : join [LF] (split_char LF s) = s.
Proof.
  induction s as [|x s IH]; cbn [split_char]; [reflexivity |].
  destruct (N.eqb_spec x LF) as [-> | Hx].
  - rewrite join_cons by apply split_char_nonempty. rewrite IH. reflexivity.
  - pose proof (split_char_nonempty LF s) as Hne.
    destruct (split_char LF s) as [|l ls]; [contradiction |].
    destruct ls as [|l' ls]; cbn [join] in IH |- *.
    + congruence.
    + rewrite <- IH. reflexivity.
Qed.

End JsStringFacts.

Module RegexFacts.
Import JsStringFacts.

Lemma is_space_LF : is_space LF = true.
Proof. reflexivity. Qed.

Lemma not_space_not_LF (c : code_unit) : is_space c = false -> c <> LF.
Proof. intros Hc ->. discriminate. Qed.

Lemma flat_map_nil {A B} (f : A -> list B) (l : list A) :
  (forall x, In x l -> f x = []) -> flat_map f l = [].
Proof.
  induction l as [|a l IH]; intros Hf; cbn; [reflexivity |].
  rewrite Hf by (left; reflexivity). apply IH. intros x Hx. apply Hf. right. assumption.
Qed.


Lemma after_blank_unfold (s : jsstring) :
  after_blank s =
  flat_map (fun rest => match rest with
                        | x :: s' => if N.eqb x LF then [([], s')] else []
                        | [] => []
                        end) (star_matches is_space s).
Proof.
  unfold after_blank. cbn [matches]. rewrite flat_map_concat_map, map_map, <- flat_map_concat_map.
  apply flat_map_ext. intros rest. cbn [fst snd app].
  destruct rest as [|x s']; [reflexivity |]. destruct (N.eqb x LF); reflexivity.
Qed.

Lemma star_matches_app (p : code_unit -> bool) (w s : jsstring) :
  forallb p w = true -> exists more, star_matches p (w ++ s) = star_matches p s ++ more.
Proof.
  induction w as [|c w IH]; intros Hw; cbn [app].
  - exists []. symmetry. apply app_nil_r.
  - cbn in Hw. apply andb_prop in Hw as [Hc Hw]. destruct (IH Hw) as [more Hmore].
    cbn [star_matches]. rewrite Hc, Hmore, <- app_assoc. eexists. reflexivity.
Qed.

(** No blank line starts at a line feed that is followed by a line with a
    visible character. *)
Lemma after_blank_visible (w : jsstring) (x : code_unit) (s : jsstring) :
  forallb is_space w = true -> no_LF w -> is_space x = false ->
  after_blank (w ++ x :: s) = [].
Proof.
  intros Hw Hlf Hx. rewrite after_blank_unfold.
  match goal with |- flat_map ?g _ = _ => set (f := g) end.
  induction w as [|c w IH]; cbn [app star_matches].
  - rewrite Hx. cbn. rewrite (proj2 (N.eqb_neq x LF)) by (apply not_space_not_LF; assumption).
    reflexivity.
  - cbn in Hw. apply andb_prop in Hw as [Hc Hw]. rewrite Hc.
    rewrite flat_map_app, IH; trivial.
    + cbn. rewrite (proj2 (N.eqb_neq c LF)); [reflexivity |].
      intros ->. apply Hlf. left. reflexivity.
    + intros Hin. apply Hlf. right. assumption.
Qed.

Lemma visible_split (l : jsstring) :
  visible l = true ->
  exists w x s, l = w ++ x :: s /\ forallb is_space w = true /\ is_space x = false.
Proof.
  induction l as [|c l IH]; [discriminate |]. cbn. intros Hv.
  destruct (is_space c) eqn:Ec.
  - cbn in Hv. destruct (IH Hv) as (w & x & s & -> & Hw & Hx).
    exists (c :: w), x, s. cbn. rewrite Ec, Hw. auto.
  - exists [], c, l. auto.
Qed.

Lemma exec_at_unfold (s : jsstring) :
  exec_at blank_line_re s =
  match s with
  | x :: s' => if N.eqb x LF then hd_error (after_blank s') else None
  | [] => None
  end.
Proof.
  unfold exec_at, blank_line_re, after_blank. cbn [matches].
  destruct s as [|x s']; [reflexivity |]. destruct (N.eqb x LF); [| reflexivity].
  cbn [flat_map fst snd app]. rewrite app_nil_r.
  rewrite map_ext with (g := fun m => m) by (intros [? ?]; reflexivity).
  rewrite map_id. reflexivity.
Qed.

(** Inside a block: a line feed followed by a visible line is no separator. *)
Lemma exec_at_inside (l tail : jsstring) :
  no_LF l -> visible l = true -> exec_at blank_line_re (LF :: l ++ tail) = None.
Proof.
  intros Hlf Hv. rewrite exec_at_unfold, N.eqb_refl.
  destruct (visible_split l Hv) as (w & x & s & -> & Hw & Hx).
  rewrite <- app_assoc. cbn [app]. rewrite after_blank_visible; trivial.
  intros Hin. apply Hlf. apply in_or_app. left. assumption.
Qed.

Lemma exec_at_char (c : code_unit) (s : jsstring) :
  c <> LF -> exec_at blank_line_re (c :: s) = None.
Proof. intros Hc. rewrite exec_at_unfold, (proj2 (N.eqb_neq c LF)); trivial. Qed.

(** Between blocks: the separator is matched whole. *)
Lemma exec_at_separator (w : jsstring) (x : code_unit) (s : jsstring) :
  forallb is_space w = true -> is_space x = false ->
  exec_at blank_line_re (LF :: w ++ LF :: x :: s) = Some ([], x :: s).
Proof.
  intros Hw Hx. rewrite exec_at_unfold, N.eqb_refl, after_blank_unfold.
  destruct (star_matches_app is_space w (LF :: x :: s) Hw) as [more ->].
  cbn [star_matches]. rewrite is_space_LF, Hx. cbn [app flat_map].
  rewrite (proj2 (N.eqb_neq x LF)) by (apply not_space_not_LF; assumption).
  rewrite N.eqb_refl. reflexivity.
Qed.

Lemma split_from_skip (u s piece : jsstring) :
  split_from blank_line_re (u ++ s) piece (length u) = split_from blank_line_re s piece 0.
Proof.
  induction u as [|c u IH]; cbn [app length].
  - destruct s; reflexivity.
  - cbn [split_from]. apply IH.
Qed.

Lemma split_from_line (l tail piece : jsstring) :
  no_LF l ->
  split_from blank_line_re (l ++ tail) piece 0 =
  split_from blank_line_re tail (rev l ++ piece) 0.
Proof.
  revert piece. induction l as [|c l IH]; intros piece Hlf; [reflexivity |].
  cbn [app split_from]. rewrite exec_at_char by (intros ->; apply Hlf; left; reflexivity).
  rewrite IH by (intros Hin; apply Hlf; right; assumption).
  cbn [rev]. rewrite <- app_assoc. reflexivity.
Qed.

(** The lines of a block are gathered into one piece. *)
Lemma split_from_lines (lines : list jsstring) :
  lines <> [] -> Forall no_LF lines -> forallb visible lines = true ->
  forall tail piece,
  split_from blank_line_re (join [LF] lines ++ tail) piece 0 =
  split_from blank_line_re tail (rev (join [LF] lines) ++ piece) 0.
Proof.
  induction lines as [|l rest IH]; intros Hne Hlf Hv tail piece; [contradiction |].
  inversion Hlf as [|? ? Hl Hrest]; subst. cbn in Hv. apply andb_prop in Hv as [_ Hvrest].
  destruct rest as [|l2 rest].
  - cbn [join]. apply split_from_line. assumption.
  - rewrite join_cons by discriminate. rewrite <- !app_assoc.
    rewrite split_from_line by assumption. cbn [app split_from].
    assert (Hin : exec_at blank_line_re (LF :: join [LF] (l2 :: rest) ++ tail) = None).
    { inversion Hrest as [|? ? Hl2 _]; subst. pose proof Hvrest as Hv2. cbn in Hv2.
      apply andb_prop in Hv2 as [Hv2 _].
      destruct rest as [|l3 rest]; cbn [join]; [apply exec_at_inside; assumption |].
      rewrite <- app_assoc. apply exec_at_inside; assumption. }
    rewrite Hin. rewrite IH by (trivial; discriminate).
    f_equal. rewrite rev_app_distr. cbn [rev app]. rewrite <- !app_assoc. reflexivity.
Qed.

End RegexFacts.

Module TimestampFacts.
Import JsStringFacts RegexFacts.

Lemma digit_not_space (c : code_unit) : is_digit c = true -> is_space c = false.
Proof.
  unfold is_digit, is_space. intros [Hlo Hhi]%andb_prop.
  apply N.leb_le in Hlo, Hhi.
  apply orb_false_intro.
  - cbn [existsb].
    repeat (apply orb_false_intro; [apply N.eqb_neq; lia |]). reflexivity.
  - apply andb_false_intro1. apply N.leb_gt. lia.
Qed.

Lemma consumed_app (u rest : jsstring) : consumed (u ++ rest) rest = u.
Proof.
  unfold consumed. rewrite length_app, Nat.add_sub.
  rewrite firstn_app, Nat.sub_diag, firstn_all. cbn. apply app_nil_r.
Qed.

Lemma matches_seq_one (r1 r2 : regex) (s s1 s2 : jsstring) (c1 c2 : list jsstring) :
  matches r1 s = [(c1, s1)] -> matches r2 s1 = [(c2, s2)] ->
  matches (Seq r1 r2) s = [(c1 ++ c2, s2)].
Proof. intros H1 H2. cbn [matches]. rewrite H1. cbn. rewrite H2. reflexivity. Qed.

Lemma matches_chr (c : code_unit) (s : jsstring) : matches (Chr c) (c :: s) = [([], s)].
Proof. cbn. rewrite N.eqb_refl. reflexivity. Qed.

Lemma matches_digits2 (d1 d2 : code_unit) (s : jsstring) :
  is_digit d1 = true -> is_digit d2 = true ->
  matches digits2 (d1 :: d2 :: s) = [([[d1; d2]], s)].
Proof.
  intros H1 H2. unfold digits2. cbn [matches flat_map map fst snd app].
  rewrite H1. cbn [matches flat_map map fst snd app]. rewrite H2. cbn [map fst snd app].
  change (d1 :: d2 :: s) with ([d1; d2] ++ s). rewrite consumed_app. reflexivity.
Qed.

Lemma matches_digits3 (d1 d2 d3 : code_unit) (s : jsstring) :
  is_digit d1 = true -> is_digit d2 = true -> is_digit d3 = true ->
  matches digits3 (d1 :: d2 :: d3 :: s) = [([[d1; d2; d3]], s)].
Proof.
  intros H1 H2 H3. unfold digits3. cbn [matches flat_map map fst snd app].
  rewrite H1. cbn [matches flat_map map fst snd app]. rewrite H2.
  cbn [matches flat_map map fst snd app]. rewrite H3. cbn [map fst snd app].
  change (d1 :: d2 :: d3 :: s) with ([d1; d2; d3] ++ s). rewrite consumed_app. reflexivity.
Qed.



Lemma digits2_inv (s : jsstring) :
  digits 2 s -> exists d1 d2, s = [d1; d2] /\ is_digit d1 = true /\ is_digit d2 = true.
Proof.
  intros [Hl Hd]. destruct s as [|d1 [|d2 [|]]]; try discriminate.
  cbn in Hd. apply andb_prop in Hd as [H1 [H2 _]%andb_prop]. eauto.
Qed.

Lemma digits3_inv (s : jsstring) :
  digits 3 s -> exists d1 d2 d3, s = [d1; d2; d3] /\
    is_digit d1 = true /\ is_digit d2 = true /\ is_digit d3 = true.
Proof.
  intros [Hl Hd]. destruct s as [|d1 [|d2 [|d3 [|]]]]; try discriminate.
  cbn in Hd. apply andb_prop in Hd as [H1 [H2 [H3 _]%andb_prop]%andb_prop]. eauto 7.
Qed.

Lemma matches_clock (h m s ms rest : jsstring) :
  digits 2 h -> digits 2 m -> digits 2 s -> digits 3 ms ->
  matches clock (clock_text h m s ms ++ rest) = [([h; m; s; ms], rest)].
Proof.
  intros (h1 & h2 & -> & ? & ?)%digits2_inv (m1 & m2 & -> & ? & ?)%digits2_inv
         (s1 & s2 & -> & ? & ?)%digits2_inv (f1 & f2 & f3 & -> & ? & ? & ?)%digits3_inv.
  unfold clock, clock_text. cbn [app js unescape map list_ascii_of_string].
  change (matches
    (Seq digits2 (Seq (Chr 58) (Seq digits2 (Seq (Chr 58)
      (Seq digits2 (Seq (Chr 44) digits3)))))%N)
    (h1 :: h2 :: 58%N :: m1 :: m2 :: 58%N :: s1 :: s2 :: 44%N :: f1 :: f2 :: f3 :: rest)
    = [([[h1; h2]] ++ [] ++ [[m1; m2]] ++ [] ++ [[s1; s2]] ++ [] ++ [[f1; f2; f3]], rest)]).
  repeat (eapply matches_seq_one;
          [first [apply matches_digits2; assumption | apply matches_chr] |]).
  apply matches_digits3; assumption.
Qed.

End TimestampFacts.

Module TimestampLine.
Import JsStringFacts RegexFacts TimestampFacts.

Lemma map_pair_id (l : list (list jsstring * jsstring)) :
  map (fun m2 => ([] ++ fst m2, snd m2)) l = l.
Proof. rewrite <- (map_id l) at 2. apply map_ext. intros [? ?]. reflexivity. Qed.

(** One space before something that is no space and that [r] needs. *)
Lemma matches_space_then (r : regex) (x : code_unit) (s : jsstring) :
  is_space x = false -> matches r (32%N :: x :: s) = [] ->
  matches (Seq (Star is_space) r) (32%N :: x :: s) = matches r (x :: s).
Proof.
  intros Hx Hr. cbn [matches star_matches].
  change (is_space 32%N) with true. cbn iota. rewrite Hx.
  cbn [app map flat_map fst snd]. rewrite Hr. cbn [map app].
  rewrite map_pair_id. rewrite !app_nil_r. reflexivity.
Qed.

Lemma matches_clock_space (s : jsstring) : matches clock (32%N :: s) = [].
Proof. reflexivity. Qed.


Lemma clock_text_first (h m s ms : jsstring) :
  digits 2 h -> exists d rest, clock_text h m s ms = d :: rest /\ is_digit d = true.
Proof.
  intros (h1 & h2 & -> & ? & ?)%digits2_inv. unfold clock_text. cbn [app]. eauto.
Qed.

Lemma search_stamp_line (h m s ms h' m' s' ms' : jsstring) :
  digits 2 h -> digits 2 m -> digits 2 s -> digits 3 ms ->
  digits 2 h' -> digits 2 m' -> digits 2 s' -> digits 3 ms' ->
  search timestamp_re (stamp_line (clock_text h m s ms) (clock_text h' m' s' ms')) =
  Some [h; m; s; ms; h'; m'; s'; ms'].
Proof.
  intros Hh Hm Hs Hms Hh' Hm' Hs' Hms'.
  assert (Hall : matches timestamp_re
            (stamp_line (clock_text h m s ms) (clock_text h' m' s' ms')) =
            [([h; m; s; ms; h'; m'; s'; ms'], [])]).
  { unfold timestamp_re, stamp_line.
    change [h; m; s; ms; h'; m'; s'; ms'] with ([h; m; s; ms] ++ [h'; m'; s'; ms']).
    eapply matches_seq_one; [apply matches_clock; assumption |].
    destruct (clock_text_first h' m' s' ms' Hh') as (d & rest & E & Hd).
    change (js " --> ") with [32; 45; 45; 62; 32]%N. cbn [app].
    rewrite matches_space_then by reflexivity.
    change [h'; m'; s'; ms'] with ([] ++ [] ++ [] ++ [h'; m'; s'; ms']).
    do 3 (eapply matches_seq_one; [apply matches_chr |]).
    rewrite E. rewrite matches_space_then;
      [| apply digit_not_space; assumption | apply matches_clock_space].
    rewrite <- E. rewrite <- (app_nil_r (clock_text h' m' s' ms')).
    apply matches_clock; assumption. }
  unfold stamp_line in *.
  destruct (clock_text h m s ms ++ js " --> " ++ clock_text h' m' s' ms') eqn:E;
    cbn [search]; unfold exec_at; rewrite Hall; reflexivity.
Qed.

End TimestampLine.

Module BlockFacts.
Import JsStringFacts RegexFacts TimestampFacts TimestampLine.

Lemma solid_lines (b : jsstring) :
  solid b ->
  split_char LF b <> [] /\ Forall no_LF (split_char LF b) /\
  forallb visible (split_char LF b) = true.
Proof.
  intros [_ Hv]. auto using split_char_nonempty, split_char_lines.
Qed.

Lemma solid_nonempty (b : jsstring) : solid b -> b <> [].
Proof. intros [_ Hv] ->. discriminate. Qed.

Lemma solid_first (b : jsstring) :
  solid b -> exists x s, b = x :: s /\ is_space x = false.
Proof.
  intros Hb. pose proof (solid_nonempty b Hb) as Hne. destruct Hb as [Ht _].
  apply trim_fixed_ends in Ht as [Hs _].
  destruct b as [|x s]; [contradiction |]. exists x, s. split; [reflexivity |].
  destruct (is_space x) eqn:Ex; [exfalso | reflexivity].
  cbn in Hs. rewrite Ex in Hs.
  pose proof (trimStart_length s) as Hl. rewrite Hs in Hl. cbn in Hl. lia.
Qed.

Lemma solid_trimEnd (b : jsstring) : solid b -> trimEnd b = b.
Proof. intros [Ht _]. apply trim_fixed_ends in Ht. tauto. Qed.

(** A block stays one piece, up to the separator or the end. *)
Lemma split_from_block (b tail piece : jsstring) :
  solid b ->
  split_from blank_line_re (b ++ tail) piece 0 =
  split_from blank_line_re tail (rev b ++ piece) 0.
Proof.
  intros (Hne & Hlf & Hv)%solid_lines.
  rewrite <- (join_split_char b) at 1 2. apply split_from_lines; assumption.
Qed.

Lemma split_from_separator (w : jsstring) (x : code_unit) (s piece : jsstring) :
  forallb is_space w = true -> is_space x = false ->
  split_from blank_line_re (LF :: w ++ LF :: x :: s) piece 0 =
  rev piece :: split_from blank_line_re (x :: s) [] 0.
Proof.
  intros Hw Hx. cbn [split_from]. rewrite exec_at_separator by assumption. cbn [snd].
  replace (length (LF :: w ++ LF :: x :: s) - length (x :: s))%nat
    with (S (length (w ++ [LF]))) by (cbn [length]; rewrite !length_app; cbn [length]; lia).
  replace (w ++ LF :: x :: s) with ((w ++ [LF]) ++ x :: s) by (rewrite <- app_assoc; reflexivity).
  rewrite split_from_skip. reflexivity.
Qed.

Lemma split_from_blocks (blocks : list jsstring) :
  blocks <> [] -> Forall solid blocks ->
  split_from blank_line_re (join [LF; LF] blocks) [] 0 = blocks.
Proof.
  induction blocks as [|b rest IH]; intros Hne Hall; [contradiction |].
  inversion Hall as [|? ? Hb Hrest]; subst.
  destruct rest as [|b2 rest].
  - cbn [join]. rewrite <- (app_nil_r b) at 1. rewrite split_from_block by assumption.
    cbn [split_from]. rewrite app_nil_r, rev_involutive. reflexivity.
  - rewrite join_cons by discriminate. rewrite split_from_block by assumption.
    rewrite app_nil_r.
    assert (Hfirst : exists x s, join [LF; LF] (b2 :: rest) = x :: s /\ is_space x = false).
    { inversion Hrest as [|? ? Hb2 _]; subst.
      destruct (solid_first b2 Hb2) as (x & s & -> & Hx).
      destruct rest; cbn [join app]; eauto. }
    destruct Hfirst as (x & s & E & Hx).
    specialize (IH ltac:(discriminate) Hrest). rewrite E in IH |- *.
    change ([LF; LF] ++ x :: s) with (LF :: [] ++ LF :: x :: s).
    rewrite (split_from_separator [] x s (rev b) eq_refl Hx).
    rewrite rev_involutive, IH. reflexivity.
Qed.

Lemma join_blocks_first (blocks : list jsstring) :
  blocks <> [] -> Forall solid blocks ->
  exists x s, join [LF; LF] blocks = x :: s /\ is_space x = false.
Proof.
  intros Hne Hall. destruct blocks as [|b rest]; [contradiction |].
  inversion Hall as [|? ? Hb _]; subst.
  destruct (solid_first b Hb) as (x & s & -> & Hx).
  destruct rest; cbn [join app]; eauto.
Qed.

Lemma split_blocks (blocks : list jsstring) :
  blocks <> [] -> Forall solid blocks ->
  split blank_line_re (join [LF; LF] blocks) = blocks.
Proof.
  intros Hne Hall. destruct (join_blocks_first blocks Hne Hall) as (x & s & E & _).
  unfold split. rewrite E, <- E. apply split_from_blocks; assumption.
Qed.

Lemma trimEnd_join_blocks (blocks : list jsstring) :
  blocks <> [] -> Forall solid blocks ->
  trimEnd (join [LF; LF] blocks) = join [LF; LF] blocks.
Proof.
  induction blocks as [|b rest IH]; intros Hne Hall; [contradiction |].
  inversion Hall as [|? ? Hb Hrest]; subst.
  destruct rest as [|b2 rest]; [apply solid_trimEnd; assumption |].
  rewrite join_cons by discriminate. rewrite app_assoc.
  apply trimEnd_app; [apply IH; trivial; discriminate |].
  destruct (join_blocks_first (b2 :: rest) ltac:(discriminate) Hrest) as (x & s & -> & _).
  discriminate.
Qed.

Lemma trim_join_blocks (blocks : list jsstring) :
  blocks <> [] -> Forall solid blocks ->
  trim (join [LF; LF] blocks) = join [LF; LF] blocks.
Proof.
  intros Hne Hall. unfold trim.
  destruct (join_blocks_first blocks Hne Hall) as (x & s & E & Hx).
  rewrite E, trimStart_fixed, <- E by assumption.
  apply trimEnd_join_blocks; assumption.
Qed.

Section Blocks.

Context {T : Type} {num : Number T}.

Lemma parse_block_app (subs : list (Entry T)) (b : jsstring) :
  parse_block subs b = subs ++ parse_block [] b.
Proof.
  unfold parse_block.
  destruct (length (split_char LF (trim b)) <? 3)%nat; [symmetry; apply app_nil_r |].
  destruct (search timestamp_re _); [| symmetry; apply app_nil_r].
  destruct (trim (join [LF] _)); [symmetry; apply app_nil_r | reflexivity].
Qed.

Lemma fold_parse_block (blocks : list jsstring) (subs : list (Entry T)) :
  fold_left parse_block blocks subs = subs ++ flat_map (parse_block []) blocks.
Proof.
  revert subs. induction blocks as [|b rest IH]; intros subs; cbn [fold_left flat_map].
  - symmetry. apply app_nil_r.
  - rewrite IH, (parse_block_app subs b), <- app_assoc. reflexivity.
Qed.

(** The subtitles of a text are those of its blocks, each on its own. *)
Lemma parseSRT_flat_map (content : jsstring) :
  parseSRT content = flat_map (parse_block (T := T) []) (split blank_line_re (trim content)).
Proof. unfold parseSRT. apply fold_parse_block. Qed.

Lemma parseSRT_blocks (blocks : list jsstring) :
  Forall solid blocks ->
  parseSRT (join [LF; LF] blocks) = flat_map (parse_block (T := T) []) blocks.
Proof.
  intros Hall. rewrite parseSRT_flat_map.
  destruct blocks as [|b rest]; [reflexivity |].
  rewrite trim_join_blocks, split_blocks by (trivial; discriminate). reflexivity.
Qed.

End Blocks.

End BlockFacts.

Module CodecFacts.
Import JsStringFacts RegexFacts TimestampFacts TimestampLine BlockFacts.

Lemma uint_to_js_digits (d : Decimal.uint) : forallb is_digit (uint_to_js d) = true.
Proof. induction d; cbn [uint_to_js forallb]; trivial; rewrite IHd; reflexivity. Qed.

Lemma uint_to_js_nonnil (d : Decimal.uint) : d <> Decimal.Nil -> uint_to_js d <> [].
Proof. destruct d; intros Hd; [contradiction | discriminate ..]. Qed.

(** The ordinal of a block: digits, at least one. *)
Lemma ordinal_digits (index : nat) :
  exists d ds, Z_to_js (Z.of_nat index + 1) = d :: ds /\ forallb is_digit (d :: ds) = true.
Proof.
  destruct (Z.of_nat index + 1) as [|p|p] eqn:E; try lia.
  cbn [Z_to_js]. pose proof (uint_to_js_digits (Pos.to_uint p)) as Hd.
  pose proof (uint_to_js_nonnil _ (DecimalPos.Unsigned.to_uint_nonnil p)) as Hne.
  destruct (uint_to_js (Pos.to_uint p)) as [|d ds]; [contradiction | eauto].
Qed.


Lemma lf_free_no_LF (s : jsstring) : lf_free s = true -> no_LF s.
Proof.
  unfold lf_free, no_LF. rewrite forallb_forall. intros Hs Hin.
  specialize (Hs LF Hin). rewrite N.eqb_refl in Hs. discriminate.
Qed.

Lemma digits_lf_free (s : jsstring) : forallb is_digit s = true -> lf_free s = true.
Proof.
  unfold lf_free. rewrite !forallb_forall. intros Hs c Hc. specialize (Hs c Hc).
  apply negb_true_iff, N.eqb_neq. apply not_space_not_LF, digit_not_space, Hs.
Qed.

Lemma clock_text_lf_free (h m s ms : jsstring) :
  digits 2 h -> digits 2 m -> digits 2 s -> digits 3 ms ->
  lf_free (clock_text h m s ms) = true.
Proof.
  intros [_ Hh] [_ Hm] [_ Hs] [_ Hms]. unfold clock_text, lf_free.
  rewrite !forallb_app. fold (lf_free h) (lf_free m) (lf_free s) (lf_free ms).
  rewrite (digits_lf_free h), (digits_lf_free m), (digits_lf_free s), (digits_lf_free ms)
    by assumption.
  reflexivity.
Qed.

Section Codec.

Context {T : Type} {num : Number T}.

Implicit Types (sub : Entry T) (subs : list (Entry T)) (seconds : T).

Lemma _formatTimestamp_fields seconds :
  _formatTimestamp seconds =
  clock_text (hours_text seconds) (minutes_text seconds)
             (seconds_text seconds) (millis_text seconds).
Proof. reflexivity. Qed.

Lemma stamp_lf_free (a b : T) :
  well_stamped a -> well_stamped b ->
  lf_free (stamp_line (_formatTimestamp a) (_formatTimestamp b)) = true.
Proof.
  intros (? & ? & ? & ?) (? & ? & ? & ?). unfold stamp_line, lf_free.
  rewrite !forallb_app. rewrite !_formatTimestamp_fields.
  fold (lf_free (clock_text (hours_text a) (minutes_text a) (seconds_text a) (millis_text a))).
  fold (lf_free (clock_text (hours_text b) (minutes_text b) (seconds_text b) (millis_text b))).
  rewrite (clock_text_lf_free (hours_text a)), (clock_text_lf_free (hours_text b))
    by assumption.
  reflexivity.
Qed.

Lemma stamp_visible (a b : T) :
  well_stamped a -> visible (stamp_line (_formatTimestamp a) (_formatTimestamp b)) = true.
Proof.
  intros (Hh & _). rewrite _formatTimestamp_fields.
  destruct (clock_text_first (hours_text a) (minutes_text a) (seconds_text a) (millis_text a) Hh)
    as (d & rest & -> & Hd).
  unfold stamp_line. cbn [app visible existsb]. rewrite (digit_not_space d Hd). reflexivity.
Qed.

(** The lines of a block: ordinal, timestamps, then the lines of the text. *)
Lemma block_lines (index : nat) sub :
  exportable sub ->
  split_char LF (block index sub) =
    Z_to_js (Z.of_nat index + 1)
      :: stamp_line (_formatTimestamp (start sub)) (_formatTimestamp (end_ sub))
      :: split_char LF (text sub).
Proof.
  intros (_ & Ha & Hb). unfold block.
  destruct (ordinal_digits index) as (d & ds & E & Hd).
  rewrite split_char_app by (rewrite E; apply lf_free_no_LF, digits_lf_free, Hd).
  rewrite split_char_app by (apply lf_free_no_LF, stamp_lf_free; assumption).
  reflexivity.
Qed.

Lemma block_solid (index : nat) sub : exportable sub -> solid (block index sub).
Proof.
  intros Hex. pose proof Hex as (Htext & Ha & Hb). split.
  - unfold block. destruct (ordinal_digits index) as (d & ds & -> & Hd).
    cbn in Hd. apply andb_prop in Hd as [Hd _].
    replace ((d :: ds) ++ LF :: stamp_line (_formatTimestamp (start sub))
                                            (_formatTimestamp (end_ sub)) ++ LF :: text sub)
      with (d :: (ds ++ LF :: stamp_line (_formatTimestamp (start sub))
                                          (_formatTimestamp (end_ sub)) ++ [LF]) ++ text sub)
      by (cbn [app]; rewrite <- !app_assoc; cbn [app]; rewrite <- !app_assoc; reflexivity).
    apply trim_app;
      [apply digit_not_space, Hd | apply solid_trimEnd, Htext | apply solid_nonempty, Htext].
  - rewrite block_lines by assumption. cbn [forallb].
    destruct (ordinal_digits index) as (d & ds & -> & Hd).
    cbn in Hd. apply andb_prop in Hd as [Hd _].
    cbn [visible existsb]. rewrite (digit_not_space d Hd). cbn [negb orb andb].
    rewrite stamp_visible by assumption. apply Htext.
Qed.

(** What [parseSRT] makes of the block written for a subtitle. *)
Lemma parse_block_block (index : nat) sub :
  exportable sub -> parse_block [] (block index sub) = [reparse sub].
Proof.
  intros Hex. pose proof Hex as (Htext & Ha & Hb).
  unfold parse_block.
  rewrite (proj1 (block_solid index sub Hex)), block_lines by assumption.
  pose proof (split_char_nonempty LF (text sub)) as Hne.
  destruct (split_char LF (text sub)) as [|l ls] eqn:El; [contradiction |].
  cbn [length Nat.ltb Nat.leb nth skipn].
  rewrite !_formatTimestamp_fields.
  destruct Ha as (? & ? & ? & ?), Hb as (? & ? & ? & ?).
  rewrite search_stamp_line by assumption.
  cbn [group nth Nat.sub]. rewrite <- El, join_split_char.
  rewrite (proj1 Htext).
  pose proof (solid_nonempty _ Htext) as Hnt.
  destruct (text sub) as [|c t] eqn:Et; [contradiction |].
  unfold reparse, restamp. rewrite Et. reflexivity.
Qed.

Lemma export_entry_block (index : nat) sub :
  export_entry index sub = block index sub ++ [LF; LF].
Proof.
  unfold export_entry, block, stamp_line.
  repeat (rewrite <- ?app_assoc; cbn [app]; rewrite <- ?app_assoc). reflexivity.
Qed.

Lemma export_from_blocks subs : forall (index : nat) (srtContent : jsstring),
  export_from index subs srtContent =
  srtContent ++ concat (map (fun b => b ++ [LF; LF]) (blocks_from index subs)).
Proof.
  induction subs as [|sub rest IH]; intros index srtContent; cbn [export_from blocks_from map concat].
  - symmetry. apply app_nil_r.
  - rewrite IH, export_entry_block, <- app_assoc. reflexivity.
Qed.

Lemma concat_blocks (blocks : list jsstring) :
  blocks <> [] ->
  concat (map (fun b => b ++ [LF; LF]) blocks) = join [LF; LF] blocks ++ [LF; LF].
Proof.
  induction blocks as [|b rest IH]; intros Hne; [contradiction |].
  destruct rest as [|b2 rest]; [cbn; rewrite app_nil_r; reflexivity |].
  rewrite join_cons by discriminate. cbn [map concat]. cbn [map concat] in IH.
  rewrite IH by discriminate. rewrite <- !app_assoc. reflexivity.
Qed.

Lemma blocks_from_solid subs : forall (index : nat),
  Forall exportable subs -> Forall solid (blocks_from index subs).
Proof.
  induction subs as [|sub rest IH]; intros index Hall; cbn [blocks_from]; [constructor |].
  inversion Hall; subst. constructor; [apply block_solid; assumption | apply IH; assumption].
Qed.

Lemma blocks_from_parse subs : forall (index : nat),
  Forall exportable subs ->
  flat_map (parse_block []) (blocks_from index subs) = map reparse subs.
Proof.
  induction subs as [|sub rest IH]; intros index Hall; cbn [blocks_from flat_map map];
    [reflexivity |].
  inversion Hall; subst. rewrite parse_block_block, IH by assumption. reflexivity.
Qed.

(** The text written for an engine: its blocks, a blank line between
    two. *)
Lemma exportToSRT_blocks (eng : Engine T) :
  Forall exportable (subtitles eng) ->
  exportToSRT eng = join [LF; LF] (blocks_from 0 (subtitles eng)).
Proof.
  intros Hall. unfold exportToSRT. rewrite export_from_blocks. cbn [app].
  pose proof (blocks_from_solid (subtitles eng) 0 Hall) as Hsolid.
  destruct (blocks_from 0 (subtitles eng)) as [|b rest] eqn:E; [reflexivity |].
  rewrite concat_blocks by discriminate.
  unfold trim.
  destruct (join_blocks_first (b :: rest) ltac:(discriminate) Hsolid) as (x & s & Ej & Hx).
  rewrite Ej. cbn [app]. rewrite trimStart_fixed by assumption.
  change (x :: s ++ [LF; LF]) with ((x :: s) ++ [LF; LF]).
  rewrite trimEnd_spaces by reflexivity. rewrite <- Ej.
  apply trimEnd_join_blocks; [discriminate | assumption].
Qed.

(** Reading back what was written: every subtitle comes back with its
    text, and with the times its printed fields spell. *)
Lemma parseSRT_exportToSRT (eng : Engine T) :
  Forall exportable (subtitles eng) ->
  parseSRT (exportToSRT eng) = map reparse (subtitles eng).
Proof.
  intros Hall. rewrite exportToSRT_blocks by assumption.
  rewrite parseSRT_blocks by (apply blocks_from_solid; assumption).
  apply blocks_from_parse. assumption.
Qed.

End Codec.

End CodecFacts.

Module ExactClock.
Import Exact.
Local Open Scope Q_scope.

Lemma Qfloor_unique (y : Q) (z : Z) :
  inject_Z z <= y -> y < inject_Z (z + 1) -> Qfloor y = z.
Proof.
  intros Hlo Hhi.
  pose proof (Qfloor_le y) as Hfl. pose proof (Qlt_floor y) as Hlt.
  assert (H1 : (z < Qfloor y + 1)%Z).
  { rewrite Zlt_Qlt. eapply Qle_lt_trans; eassumption. }
  assert (H2 : (Qfloor y < z + 1)%Z).
  { rewrite Zlt_Qlt. eapply Qle_lt_trans; eassumption. }
  lia.
Qed.

Lemma Qfloor_bounds (y : Q) : inject_Z (Qfloor y) <= y /\ y < inject_Z (Qfloor y) + 1.
Proof.
  split; [apply Qfloor_le |].
  pose proof (Qlt_floor y) as H. rewrite inject_Z_plus in H. exact H.
Qed.

Lemma Qfloor_div (x : Q) (n : Z) :
  (0 < n)%Z -> Qfloor (x / inject_Z n) = (Qfloor x / n)%Z.
Proof.
  intros Hn. destruct (Qfloor_bounds x) as [Hlo Hhi].
  set (F := Qfloor x) in *.
  assert (HF : F = (n * (F / n) + F mod n)%Z) by (apply Z.div_mod; lia).
  pose proof (Z.mod_pos_bound F n Hn) as Hr.
  assert (Hq : inject_Z F == inject_Z n * inject_Z (F / n) + inject_Z (F mod n)).
  { rewrite <- inject_Z_mult, <- inject_Z_plus, <- HF. reflexivity. }
  assert (Hn' : inject_Z 0 < inject_Z n) by (rewrite <- Zlt_Qlt; exact Hn).
  assert (Hr0 : inject_Z 0 <= inject_Z (F mod n)) by (rewrite <- Zle_Qle; lia).
  assert (Hr1 : inject_Z (F mod n) + 1 <= inject_Z n).
  { change 1 with (inject_Z 1). rewrite <- inject_Z_plus, <- Zle_Qle. lia. }
  change (inject_Z 0) with 0 in Hn', Hr0.
  apply Qfloor_unique.
  - apply Qle_shift_div_l; [assumption |]. nra.
  - apply Qlt_shift_div_r; [assumption |]. rewrite inject_Z_plus.
    change (inject_Z 1) with 1. nra.
Qed.

Lemma Qfloor_minus_Z (x : Q) (k : Z) : Qfloor (x - inject_Z k) = (Qfloor x - k)%Z.
Proof.
  destruct (Qfloor_bounds x) as [Hlo Hhi].
  apply Qfloor_unique.
  - unfold Z.sub. rewrite inject_Z_plus, inject_Z_opp. lra.
  - replace (Qfloor x - k + 1)%Z with (Qfloor x + 1 + - k)%Z by lia.
    rewrite !inject_Z_plus, inject_Z_opp. change (inject_Z 1) with 1. lra.
Qed.

Lemma Qfloor_nonneg (x : Q) : 0 <= x -> (0 <= Qfloor x)%Z.
Proof. intros Hx. apply (Qfloor_resp_le 0 x Hx). Qed.

Lemma Qfloor_below (x : Q) (n : Z) : x < inject_Z n -> (Qfloor x < n)%Z.
Proof.
  intros Hx. rewrite Zlt_Qlt. eapply Qle_lt_trans; [apply Qfloor_le | exact Hx].
Qed.

Lemma Qtrunc_nonneg (q : Q) : 0 <= q -> Qtrunc q = Qfloor q.
Proof. intros Hq. unfold Qtrunc. rewrite (proj2 (Qle_bool_iff 0 q) Hq). reflexivity. Qed.


(** The whole seconds of a time, split as [_formatTimestamp] does. *)
Lemma Qrem_floor (x : Q) (n : Z) :
  0 <= x -> (0 < n)%Z ->
  Qrem x (inject_Z n) == x - inject_Z (n * (Qfloor x / n)).
Proof.
  intros Hx Hn. unfold Qrem.
  assert (Hn' : inject_Z 0 < inject_Z n) by (rewrite <- Zlt_Qlt; exact Hn).
  change (inject_Z 0) with 0 in Hn'.
  rewrite Qtrunc_nonneg by (apply Qle_shift_div_l; [assumption | lra]).
  rewrite Qfloor_div by assumption. rewrite inject_Z_mult. reflexivity.
Qed.

Lemma hours_value (x : Q) :
  Qfloor (x / inject_Z 3600) = (Qfloor x / 3600)%Z.
Proof. apply Qfloor_div. lia. Qed.

Lemma minutes_value (x : Q) :
  0 <= x -> Qfloor (Qrem x (inject_Z 3600) / inject_Z 60) = ((Qfloor x mod 3600) / 60)%Z.
Proof.
  intros Hx. rewrite Qrem_floor by (trivial; lia).
  rewrite Qfloor_div, Qfloor_minus_Z by lia. rewrite Z.mod_eq by lia. reflexivity.
Qed.

Lemma seconds_value (x : Q) :
  0 <= x -> Qfloor (Qrem x (inject_Z 60)) = (Qfloor x mod 60)%Z.
Proof.
  intros Hx. rewrite Qrem_floor by (trivial; lia).
  rewrite Qfloor_minus_Z. rewrite Z.mod_eq by lia. reflexivity.
Qed.

Lemma millis_value (x : Q) :
  0 <= x ->
  Qfloor (Qrem x (inject_Z 1) * inject_Z 1000) = (Qfloor (x * inject_Z 1000) - 1000 * Qfloor x)%Z.
Proof.
  intros Hx. rewrite Qrem_floor by (trivial; lia).
  rewrite Z.div_1_r, Z.mul_1_l.
  assert (E : (x - inject_Z (Qfloor x)) * inject_Z 1000 ==
              x * inject_Z 1000 - inject_Z (1000 * Qfloor x)).
  { rewrite inject_Z_mult. change (inject_Z 1000) with 1000. ring. }
  rewrite E. apply Qfloor_minus_Z.
Qed.

Lemma millis_range (x : Q) :
  (0 <= Qfloor (x * inject_Z 1000) - 1000 * Qfloor x < 1000)%Z.
Proof.
  destruct (Qfloor_bounds x) as [Hlo Hhi].
  destruct (Qfloor_bounds (x * inject_Z 1000)) as [Hlo' Hhi'].
  change (inject_Z 1000) with 1000 in *.
  assert (H1 : inject_Z (1000 * Qfloor x) < inject_Z (Qfloor (x * 1000) + 1)).
  { rewrite inject_Z_mult, inject_Z_plus. change (inject_Z 1000) with 1000.
    change (inject_Z 1) with 1. lra. }
  assert (H2 : inject_Z (Qfloor (x * 1000)) < inject_Z (1000 * Qfloor x + 1000)).
  { rewrite inject_Z_plus, inject_Z_mult. change (inject_Z 1000) with 1000. lra. }
  rewrite <- Zlt_Qlt in H1, H2. lia.
Qed.

End ExactClock.

(** ** Round trip with exact arithmetic *)

Module ExactRoundTrip.
Import JsStringFacts RegexFacts TimestampFacts TimestampLine BlockFacts CodecFacts.
Import Exact ExactCodec ExactClock.
Local Open Scope Q_scope.

Lemma field_checked (width : nat) (bound : nat) (n : Z) :
  forallb (fun k => field_check width (Z.of_nat k)) (seq 0 bound) = true ->
  (0 <= n < Z.of_nat bound)%Z ->
  digits width (padStart width (Z_to_js n)) /\ parseInt (padStart width (Z_to_js n)) = n.
Proof.
  intros Hall Hn. rewrite forallb_forall in Hall.
  specialize (Hall (Z.to_nat n)). rewrite Z2Nat.id in Hall by lia.
  assert (Hin : In (Z.to_nat n) (seq 0 bound)) by (apply in_seq; lia).
  apply Hall in Hin. unfold field_check in Hin.
  apply andb_prop in Hin as [[Hl Hd]%andb_prop Hp].
  apply Nat.eqb_eq in Hl. apply Z.eqb_eq in Hp. unfold digits. auto.
Qed.

Lemma field2 (n : Z) :
  (0 <= n < 100)%Z ->
  digits 2 (padStart 2 (Z_to_js n)) /\ parseInt (padStart 2 (Z_to_js n)) = n.
Proof. apply (field_checked 2 100). vm_compute. reflexivity. Qed.

Lemma field3 (n : Z) :
  (0 <= n < 1000)%Z ->
  digits 3 (padStart 3 (Z_to_js n)) /\ parseInt (padStart 3 (Z_to_js n)) = n.
Proof. apply (field_checked 3 1000). vm_compute. reflexivity. Qed.

Section Fields.

Variable x : Q.
Hypothesis Hx : in_clock_range x.

Let F : Z := Qfloor x.

Lemma whole_seconds_range : (0 <= F < 360000)%Z.
Proof.
  destruct Hx as [H0 H1]. split; [apply Qfloor_nonneg; assumption | apply Qfloor_below; assumption].
Qed.

Lemma hours_text_exact : hours_text x = padStart 2 (Z_to_js (F / 3600)).
Proof.
  unfold hours_text. cbn [to_string floor div of_Z Q_number].
  rewrite Qfloor_Z, hours_value. reflexivity.
Qed.

Lemma minutes_text_exact : minutes_text x = padStart 2 (Z_to_js ((F mod 3600) / 60)).
Proof.
  unfold minutes_text. cbn [to_string floor div rem of_Z Q_number].
  rewrite Qfloor_Z, minutes_value by apply Hx. reflexivity.
Qed.

Lemma seconds_text_exact : seconds_text x = padStart 2 (Z_to_js (F mod 60)).
Proof.
  unfold seconds_text. cbn [to_string floor rem of_Z Q_number].
  rewrite Qfloor_Z, seconds_value by apply Hx. reflexivity.
Qed.

Lemma millis_text_exact :
  millis_text x = padStart 3 (Z_to_js (Qfloor (x * inject_Z 1000) - 1000 * F)).
Proof.
  unfold millis_text. cbn [to_string floor mul rem of_Z Q_number].
  rewrite Qfloor_Z, millis_value by apply Hx. reflexivity.
Qed.

Lemma well_stamped_exact : well_stamped x.
Proof.
  pose proof whole_seconds_range as HF. pose proof (millis_range x) as Hms. fold F in Hms.
  unfold well_stamped.
  rewrite hours_text_exact, minutes_text_exact, seconds_text_exact, millis_text_exact.
  split; [| split; [| split]].
  - apply field2. Z.div_mod_to_equations; lia.
  - apply field2. Z.div_mod_to_equations; lia.
  - apply field2. Z.div_mod_to_equations; lia.
  - apply field3. lia.
Qed.

(** The time read back is the time written, cut to whole milliseconds. *)
Lemma restamp_exact : restamp x == inject_Z (Qfloor (x * inject_Z 1000)) / inject_Z 1000.
Proof.
  pose proof whole_seconds_range as HF. pose proof (millis_range x) as Hms. fold F in Hms.
  unfold restamp, _parseTimestamp.
  rewrite hours_text_exact, minutes_text_exact, seconds_text_exact, millis_text_exact.
  rewrite (proj2 (field2 (F / 3600) ltac:(Z.div_mod_to_equations; lia))).
  rewrite (proj2 (field2 ((F mod 3600) / 60) ltac:(Z.div_mod_to_equations; lia))).
  rewrite (proj2 (field2 (F mod 60) ltac:(Z.div_mod_to_equations; lia))).
  rewrite (proj2 (field3 _ Hms)).
  cbn [add mul div of_Z Q_number].
  set (K := Qfloor (x * inject_Z 1000)).
  assert (HFsum : (F / 3600 * 3600 + F mod 3600 / 60 * 60 + F mod 60 = F)%Z)
    by (Z.div_mod_to_equations; lia).
  rewrite <- !inject_Z_mult, <- !inject_Z_plus, HFsum.
  unfold Z.sub. rewrite inject_Z_plus, inject_Z_opp, inject_Z_mult.
  change (inject_Z 1000) with 1000. field.
Qed.

Lemma restamp_close : close x (restamp x).
Proof.
  destruct (Qfloor_bounds (x * inject_Z 1000)) as [Hlo Hhi].
  change (inject_Z 1000) with 1000 in *.
  split.
  - rewrite restamp_exact. change (inject_Z 1000) with 1000.
    set (K := inject_Z (Qfloor (x * 1000))) in *.
    apply Qabs_Qle_condition. split.
    + apply Qle_minus_iff. 
      assert (E : K / 1000 - x + - - (1 # 1000) == (K + 1 - x * 1000) / 1000) by field.
      rewrite E. apply Qle_shift_div_l; lra.
    + assert (E : K / 1000 - x == (K - x * 1000) / 1000) by field.
      rewrite E. apply Qle_shift_div_r; lra.
  - intros [k Hk]. rewrite restamp_exact. change (inject_Z 1000) with 1000 in *.
    assert (E : x * 1000 == inject_Z k) by (rewrite Hk; field).
    rewrite E, Qfloor_Z. symmetry. exact Hk.
Qed.

End Fields.

Lemma writable_exportable (sub : Entry Q) : writable sub -> exportable sub.
Proof.
  intros (Htext & Ha & Hb). split; [exact Htext |].
  split; apply well_stamped_exact; assumption.
Qed.

Lemma reparse_same (sub : Entry Q) : writable sub -> same_subtitle sub (reparse sub).
Proof.
  intros (Htext & Ha & Hb). unfold same_subtitle, reparse. cbn [text start end_].
  auto using restamp_close.
Qed.

(** With exact arithmetic in place of binary64 (which is not what the
    program runs on): for entries whose times lie in [0, 100 h) and whose
    texts are solid, the times read back are within a millisecond of the
    times written, and equal to them when they are whole numbers of
    milliseconds.  What binary64 loses of this it loses to rounding. *)
Lemma roundtrip_exact_arithmetic (eng : Engine Q) :
  Forall writable (subtitles eng) ->
  Forall2 same_subtitle (subtitles eng) (parseSRT (exportToSRT eng)).
Proof.
  intros Hall.
  rewrite parseSRT_exportToSRT
    by (eapply Forall_impl; [apply writable_exportable | exact Hall]).
  induction Hall as [|sub rest Hsub _ IH]; cbn [map]; constructor;
    [apply reparse_same; assumption | exact IH].
Qed.

End ExactRoundTrip.

(** ** Malformed blocks and the scenario *)

Section Tolerance.

Context {T : Type} {num : Number T}.

Import BlockFacts.

Lemma malformed_skipped (subs : list (Entry T)) (b : jsstring) :
  malformed b -> parse_block subs b = subs.
Proof.
  unfold malformed, lines_of, parse_block. intros [Hshort | [Hstamp | Htext]].
  - apply Nat.ltb_lt in Hshort. rewrite Hshort. reflexivity.
  - rewrite Hstamp. destruct (_ <? _)%nat; reflexivity.
  - rewrite Htext. destruct (_ <? _)%nat; [reflexivity |]. destruct (search _ _); reflexivity.
Qed.

Lemma parse_block_one (b : jsstring) :
  parse_block (T := T) [] b = [] \/ exists sub, parse_block [] b = [sub].
Proof.
  unfold parse_block. destruct (_ <? _)%nat; [auto |].
  destruct (search _ _); [| auto]. destruct (trim (join _ _)); [auto |].
  right. eexists. reflexivity.
Qed.

Lemma well_formed_parsed (b : jsstring) (m : list jsstring) (subs : list (Entry T)) :
  (3 <= length (lines_of b))%nat ->
  search timestamp_re (nth 1 (lines_of b) []) = Some m ->
  trim (join [LF] (skipn 2 (lines_of b))) <> [] ->
  parse_block subs b =
    subs ++ [mkEntry (_parseTimestamp (group m 1) (group m 2) (group m 3) (group m 4))
                     (_parseTimestamp (group m 5) (group m 6) (group m 7) (group m 8))
                     (trim (join [LF] (skipn 2 (lines_of b))))].
Proof.
  unfold lines_of, parse_block. intros Hlen Hm Htext.
  apply Nat.ltb_ge in Hlen. rewrite Hlen, Hm.
  destruct (trim (join _ _)); [contradiction | reflexivity].
Qed.

(** C9. [parseSRT] is a total function of the text: whatever the input,
    it returns the subtitles of the blocks of the text, each block on its
    own.  A block with fewer than three lines, or without timestamps on its
    second line, or without text, adds nothing, and the blocks around it
    are parsed all the same; any other block adds its entry; the empty
    text, and a text with malformed blocks only, give the empty sequence. *)
Theorem parseSRT_tolerant (content : jsstring) :
  parseSRT content =
    flat_map (parse_block (T := T) []) (split blank_line_re (trim content)) /\
  (forall b subs, malformed b -> parse_block (T := T) subs b = subs) /\
  (forall b, parse_block (T := T) [] b = [] \/ exists sub, parse_block [] b = [sub]) /\
  (forall b m subs,
     (3 <= length (lines_of b))%nat ->
     search timestamp_re (nth 1 (lines_of b) []) = Some m ->
     trim (join [LF] (skipn 2 (lines_of b))) <> [] ->
     parse_block subs b =
       subs ++ [mkEntry (_parseTimestamp (group m 1) (group m 2) (group m 3) (group m 4))
                        (_parseTimestamp (group m 5) (group m 6) (group m 7) (group m 8))
                        (trim (join [LF] (skipn 2 (lines_of b))))]) /\
  (forall before b after,
     malformed b -> Forall solid (before ++ b :: after) ->
     parseSRT (join [LF; LF] (before ++ b :: after)) =
       parseSRT (T := T) (join [LF; LF] before) ++ parseSRT (join [LF; LF] after)) /\
  parseSRT (T := T) [] = [] /\
  (Forall malformed (split blank_line_re (trim content)) -> parseSRT (T := T) content = []).
Proof.
  split; [apply parseSRT_flat_map |].
  split; [intros b subs Hb; apply malformed_skipped, Hb |].
  split; [apply parse_block_one |].
  split; [apply well_formed_parsed |].
  split; [| split; [reflexivity |]].
  - intros before b after Hb Hall.
    pose proof Hall as Hall2. apply Forall_app in Hall2 as [Hbefore Hafter].
    inversion Hafter; subst.
    rewrite !parseSRT_blocks by assumption.
    rewrite flat_map_app. cbn [flat_map].
    rewrite (malformed_skipped [] b Hb). reflexivity.
  - intros Hall. rewrite parseSRT_flat_map. apply RegexFacts.flat_map_nil.
    intros b Hb. rewrite Forall_forall in Hall. apply malformed_skipped, Hall, Hb.
Qed.

End Tolerance.

Import ExactCodec.

(** A block with an ordinal and timestamps but no text is dropped and its
    neighbours stay. *)
Example two_line_block_dropped :
  parseSRT (js "1\n00:00:01,000 --> 00:00:04,000\nHello\n\n2\n00:00:05,000 --> 00:00:06,000\n\n3\n00:00:09,000 --> 00:00:10,000\nBye")
  = [mkEntry 1%float 4%float (js "Hello"); mkEntry 9%float 10%float (js "Bye")].
Proof. vm_compute. reflexivity. Qed.

(** C10. The scenario of the specification: two entries, from 1 s to 4 s
    and from 5.5 s to 8.25 s, the second with two lines of text; a
    timestamp is read as [h * 3600 + m * 60 + s + ms / 1000]. *)
Theorem parseSRT_scenario :
  parseSRT hello_world =
    [mkEntry 1%float 4%float (js "Hello");
     mkEntry 5.5%float 8.25%float (js "World\nLine2")] /\
  _parseTimestamp (js "00") (js "00") (js "05") (js "500") = 5.5%float /\
  _parseTimestamp (js "00") (js "00") (js "08") (js "250")
    = (of_Z 0 * of_Z 3600 + of_Z 0 * of_Z 60 + of_Z 8 + of_Z 250 / of_Z 1000)%float.
Proof. repeat split; vm_compute; reflexivity. Qed.


(** From one hundred hours on the hours take three characters and the
    block written is not read back at all. *)
Example hundred_hours_lost :
  parseSRT (exportToSRT (mkEngine [mkEntry 360000%float 360001%float (js "x")] (-1) 0%float true 0%float))
  = @nil (Entry float).
Proof. vm_compute. reflexivity. Qed.

(** In binary64 the time read from [00:00:01,001] is written back as
    [00:00:01,000]: a millisecond is lost to rounding. *)
Example millisecond_lost :
  exportToSRT (mkEngine (parseSRT (js "1\n00:00:01,001 --> 00:00:04,000\nHello"))
                        (-1) 0%float true 0%float)
  = js "1\n00:00:01,000 --> 00:00:04,000\nHello".
Proof. vm_compute. reflexivity. Qed.

(** In binary64 the subtitles of the scenario, written and read back, are
    the same. *)
Example scenario_written_and_read :
  parseSRT (exportToSRT (mkEngine (parseSRT hello_world) (-1) 0%float true 0%float))
  = [mkEntry 1%float 4%float (js "Hello"); mkEntry 5.5%float 8.25%float (js "World\nLine2")].
Proof. vm_compute. reflexivity. Qed.
(** * More of the engine *)

Section EngineExtras.

Context {T : Type} {num : Number T}.

Implicit Types (subs : list (Entry T)) (eng : Engine T) (time : T).

Lemma probe_some subs (i : Z) time sub :
  probe subs i time = Return (Some sub) ->
  get subs i = Some sub /\ contains sub time = true.
Proof.
  unfold probe. destruct (get subs i) as [a|]; [| discriminate].
  destruct (contains a time) eqn:E; [| discriminate].
  intros [= <-]. auto.
Qed.

Lemma getSubtitleByIndex_get eng (i : Z) sub :
  get (subtitles eng) i = Some sub -> getSubtitleByIndex eng i = Some sub.
Proof.
  intros Hg. pose proof (get_range _ _ _ Hg) as Hi. unfold getSubtitleByIndex.
  destruct (Z.leb_spec 0 i); [| lia].
  destruct (Z.ltb_spec i (Z.of_nat (length (subtitles eng)))); [| lia]. exact Hg.
Qed.

(** X1. On any sequence, ordered or not, a lookup from a cursor in range
    does not throw; a subtitle it returns holds the adjusted time and is
    the one under the cursor afterwards; when it returns null the engine is
    as before. *)
Theorem getSubtitleAtTime_sound eng time :
  cursor_ok eng ->
  (exists r, fst (getSubtitleAtTime eng time) = Return r) /\
  (forall sub, fst (getSubtitleAtTime eng time) = Return (Some sub) ->
     contains sub (add time (offset eng)) = true /\
     getSubtitleByIndex (snd (getSubtitleAtTime eng time))
                        (currentIndex (snd (getSubtitleAtTime eng time))) = Some sub) /\
  (fst (getSubtitleAtTime eng time) = Return None ->
     snd (getSubtitleAtTime eng time) = eng).
Proof.
  intros Hcur. split; [apply getSubtitleAtTime_returns, Hcur |].
  unfold cursor_ok in Hcur. unfold getSubtitleAtTime, _binarySearchSubtitle.
  destruct (negb (enabled eng) || _)%bool; [split; [discriminate | reflexivity] |].
  destruct (if (0 <=? currentIndex eng) && _ then _ else _)%bool as [[cur|]|] eqn:P1.
  { split; [| discriminate]. intros sub [= <-].
    destruct ((0 <=? currentIndex eng) && _)%bool; [| discriminate].
    apply probe_some in P1 as [Hg Hc]. split; [exact Hc |].
    apply getSubtitleByIndex_get. exact Hg. }
  2: { split; [discriminate | reflexivity]. }
  destruct (if currentIndex eng + 1 <? _ then _ else _) as [[next|]|] eqn:P2.
  { split; [| discriminate]. intros sub [= <-].
    destruct (currentIndex eng + 1 <? _); [| discriminate].
    apply probe_some in P2 as [Hg Hc]. split; [exact Hc |].
    apply getSubtitleByIndex_get. exact Hg. }
  2: { split; [discriminate | reflexivity]. }
  destruct (if 0 <=? currentIndex eng - 1 then _ else _) as [[prev|]|] eqn:P3.
  { split; [| discriminate]. intros sub [= <-].
    destruct (0 <=? currentIndex eng - 1); [| discriminate].
    apply probe_some in P3 as [Hg Hc]. split; [exact Hc |].
    apply getSubtitleByIndex_get. exact Hg. }
  2: { split; [discriminate | reflexivity]. }
  destruct (binary_search _ _ _ _) as [[[e k]|]|] eqn:B.
  - split; [| discriminate]. intros sub [= <-].
    apply binary_search_index in B as (_ & Hg & Hc). split; [exact Hc |].
    apply getSubtitleByIndex_get. exact Hg.
  - split; [discriminate | reflexivity].
  - split; [discriminate | reflexivity].
Qed.

Lemma longest_fold (l : list (Entry T)) : forall init,
  let longest :=
    fold_left (fun max sub => if (length (text max) <? length (text sub))%nat then sub else max)
              l init in
  (longest = init \/ In longest l) /\
  (length (text init) <= length (text longest))%nat /\
  (forall sub, In sub l -> (length (text sub) <= length (text longest))%nat).
Proof.
  induction l as [|a rest IH]; intros init; cbn [fold_left].
  - cbn. repeat split; auto. intros sub [].
  - destruct (Nat.ltb_spec (length (text init)) (length (text a))) as [Hlt | Hge].
    + destruct (IH a) as (Hin & Ha & Hall). cbn zeta in *. repeat split.
      * right. destruct Hin as [-> | Hin]; [left; reflexivity | right; exact Hin].
      * lia.
      * intros sub [<- | Hsub]; [exact Ha | apply Hall, Hsub].
    + destruct (IH init) as (Hin & Hi & Hall). cbn zeta in *. repeat split.
      * destruct Hin as [-> | Hin]; [left; reflexivity | right; right; exact Hin].
      * exact Hi.
      * intros sub [<- | Hsub]; [lia | apply Hall, Hsub].
Qed.


End EngineExtras.

Section OrderedExtras.

Context {T : Type} {num : Number T} {ord : NumberOrder T}.

Implicit Types (subs : list (Entry T)) (eng : Engine T) (time : T).

(** X3. On an ordered sequence the cursor is a cache and nothing more: a
    lookup returns the same subtitle from every cursor in range, so the
    reset of the cursor on a seek does not change what is shown. *)
Theorem cursor_transparent eng time (i : Z) :
  sorted (subtitles eng) = true -> non_overlapping (subtitles eng) = true ->
  cursor_ok eng -> -1 <= i < Z.of_nat (length (subtitles eng)) ->
  fst (getSubtitleAtTime (set_currentIndex eng i) time) = fst (getSubtitleAtTime eng time).
Proof.
  intros Hs Hn Hcur Hi. destruct (enabled eng) eqn:Hen.
  - rewrite !getSubtitleAtTime_spec; trivial.
    cbn [set_currentIndex subtitles offset].
    destruct (entry_at _ _) as [[e k]|]; reflexivity.
  - unfold getSubtitleAtTime. cbn [set_currentIndex enabled]. rewrite Hen. reflexivity.
Qed.

Lemma filter_contains_ordered subs time :
  sorted subs = true -> non_overlapping subs = true ->
  forall i : Z,
  filter (fun sub => contains sub time) subs =
    match find_from i subs time with Some found => [fst found] | None => [] end.
Proof.
  induction subs as [|a rest IH]; intros Hs Hn i; [reflexivity |].
  cbn [filter find_from]. destruct (contains a time) eqn:Ca.
  - cbn [fst]. f_equal.
    assert (Hnone : forall b, In b rest -> contains b time = false).
    { intros b Hb. destruct (head_before_rest rest a Hs Hn b Hb) as [_ Hlt].
      apply contains_bounds in Ca as [_ Hhi].
      unfold contains, geb. apply andb_false_iff. left.
      apply ltb_not_leb. eapply leb_ltb_trans; eassumption. }
    clear - Hnone. induction rest as [|b rest IH]; [reflexivity |].
    cbn [filter]. rewrite (Hnone b) by (left; reflexivity).
    apply IH. intros c Hc. apply Hnone. right. exact Hc.
  - apply IH; eauto using sorted_tail, non_overlapping_tail.
Qed.

(** X4. [getSubtitlesInRange(t, t)] lists, in the order of the sequence,
    the subtitles that hold [t + offset], whether the engine is enabled or
    not; on an ordered sequence there is at most one, and an enabled engine
    returns it from [getSubtitleAtTime(t)] (null when there is none). *)
Theorem getSubtitlesInRange_point eng time :
  getSubtitlesInRange eng time time =
    filter (fun sub => contains sub (add time (offset eng))) (subtitles eng) /\
  (sorted (subtitles eng) = true -> non_overlapping (subtitles eng) = true ->
   (length (getSubtitlesInRange eng time time) <= 1)%nat /\
   (cursor_ok eng -> enabled eng = true ->
    fst (getSubtitleAtTime eng time) = Return (hd_error (getSubtitlesInRange eng time time)))).
Proof.
  assert (Hfilter : getSubtitlesInRange eng time time =
            filter (fun sub => contains sub (add time (offset eng))) (subtitles eng)).
  { unfold getSubtitlesInRange. apply filter_ext. intros sub. unfold contains, geb.
    reflexivity. }
  split; [exact Hfilter |]. intros Hs Hn. rewrite Hfilter.
  rewrite (filter_contains_ordered _ _ Hs Hn 0). fold (entry_at (subtitles eng) (add time (offset eng))).
  split.
  - destruct (entry_at _ _); cbn; lia.
  - intros Hcur Hen. rewrite getSubtitleAtTime_spec by assumption.
    destruct (entry_at _ _) as [[e k]|]; reflexivity.
Qed.

Lemma last_cons {A} (r : list A) : forall b d, last (b :: r) d = last r b.
Proof.
  induction r as [|c r IH]; intros b d; [reflexivity |].
  change (last (b :: c :: r) d) with (last (c :: r) d). rewrite !IH. reflexivity.
Qed.

Lemma getTotalDuration_last eng :
  subtitles eng <> [] ->
  exists final, get (subtitles eng) (Z.of_nat (length (subtitles eng)) - 1) = Some final /\
                getTotalDuration eng = end_ final.
Proof.
  intros Hne. unfold getTotalDuration.
  destruct (subtitles eng) as [|first rest]; [contradiction |].
  exists (last rest first). split; [| reflexivity].
  apply get_nth_error. split; [cbn [length]; lia |].
  replace (Z.to_nat (Z.of_nat (length (first :: rest)) - 1)) with (length rest)
    by (cbn [length]; lia).
  clear Hne. revert first. induction rest as [|b rest IH]; intros first; [reflexivity |].
  cbn [length nth_error]. rewrite (IH b). f_equal. symmetry. apply last_cons.
Qed.

(** X5. On an ordered sequence of entries that do not end before they
    start, nothing is shown outside the span of the subtitles: a lookup
    whose adjusted time is after [getTotalDuration()] or before the start of
    the first subtitle returns null and leaves the engine as it is. *)
Theorem silent_outside eng time :
  sorted (subtitles eng) = true -> non_overlapping (subtitles eng) = true ->
  proper (subtitles eng) = true -> cursor_ok eng -> enabled eng = true ->
  ltb (getTotalDuration eng) (add time (offset eng)) = true \/
  (exists first, get (subtitles eng) 0 = Some first /\
                 ltb (add time (offset eng)) (start first) = true) ->
  getSubtitleAtTime eng time = (Return None, eng).
Proof.
  intros Hs Hn Hp Hcur Hen Hout. rewrite getSubtitleAtTime_spec by assumption.
  set (adj := add time (offset eng)) in *.
  destruct (entry_at (subtitles eng) adj) as [[e k]|] eqn:E; [exfalso | reflexivity].
  apply entry_at_some in E as [He [Hlo Hhi]%contains_bounds].
  destruct Hout as [Hafter | (first & Hfirst & Hbefore)].
  - destruct (getTotalDuration_last eng) as (final & Hfinal & Hd).
    { intros Hnil. apply get_In in He. rewrite Hnil in He. destruct He. }
    rewrite Hd in Hafter. pose proof (get_range _ _ _ He) as Hk.
    destruct (Z.eq_dec k (Z.of_nat (length (subtitles eng)) - 1)) as [-> | Hne].
    + assert (e = final) by congruence. subst e.
      apply ltb_not_leb in Hafter. congruence.
    + assert (Hlast : k < Z.of_nat (length (subtitles eng)) - 1) by lia.
      destruct (ordered_get _ _ _ _ _ Hs Hn Hlast He Hfinal) as [_ Hlt].
      pose proof (proper_get _ _ _ Hp Hfinal) as Hpf.
      assert (Hee : ltb (end_ e) adj = true).
      { eapply ltb_leb_trans; [| apply ltb_leb; exact Hafter].
        eapply ltb_leb_trans; eassumption. }
      apply ltb_not_leb in Hee. congruence.
  - pose proof (get_range _ _ _ He) as Hk.
    destruct (Z.eq_dec k 0) as [-> | Hne].
    + assert (e = first) by congruence. subst e. apply ltb_not_leb in Hbefore. congruence.
    + assert (Hpos : 0 < k) by lia.
      destruct (ordered_get _ _ _ _ _ Hs Hn Hpos Hfirst He) as [Hle _].
      assert (Hb : ltb adj (start e) = true) by (eapply ltb_leb_trans; eassumption).
      apply ltb_not_leb in Hb. congruence.
Qed.

End OrderedExtras.

(** * Numbers that are not NaN *)

Module Float64Total.

Import Float64 Float64Order.

Lemma lex_total a b : lex_le a b \/ lex_lt b a.
Proof.
  destruct a as [[a1 a2] a3], b as [[b1 b2] b3]. unfold lex_le, lex_lt.
  destruct (Z.lt_trichotomy a1 b1) as [? | [-> | ?]]; [left; left; lia | | right; lia].
  destruct (Z.lt_trichotomy a2 b2) as [? | [-> | ?]]; [left; left; lia | | right; lia].
  destruct (Z.lt_trichotomy a3 b3) as [? | [-> | ?]];
    [left; left; lia | left; right; reflexivity | right; lia].
Qed.

Lemma leb_refl_key (x : float) :
  PrimFloat.leb x x = true -> exists a, key (Prim2SF x) = Some a.
Proof. intros (a & _ & Ha & _)%leb_key. eauto. Qed.

#[export] Instance float_total : NumberTotal float.
Proof.
  constructor; cbn [leb ltb of_Z float_number].
  - reflexivity.
  - intros x y [a Ha]%leb_refl_key [b Hb]%leb_refl_key Hxy.
    apply ltb_key. exists b, a. repeat split; trivial.
    destruct (lex_total a b) as [Hle | Hlt]; [| exact Hlt].
    assert (PrimFloat.leb x y = true) by (apply leb_key; eauto).
    congruence.
  - intros x y [a Ha]%leb_refl_key [b Hb]%leb_refl_key Hxy.
    apply leb_key. exists b, a. repeat split; trivial.
    destruct (lex_total b a) as [Hle | Hlt]; [exact Hle |].
    assert (PrimFloat.ltb x y = true) by (apply ltb_key; eauto).
    congruence.
Qed.

End Float64Total.

Module ExactTotal.

Import Exact ExactOrder.

#[export] Instance Q_total : NumberTotal Q.
Proof.
  constructor; cbn [leb ltb of_Z Q_number].
  - reflexivity.
  - intros x y _ _ Hxy. rewrite Hxy. reflexivity.
  - intros x y _ _ Hxy. apply negb_false_iff in Hxy. exact Hxy.
Qed.

End ExactTotal.

Section Validation.

Context {T : Type} {num : Number T} {ord : NumberOrder T} {tot : NumberTotal T}.

(** X6. [validateSubtitles] accepts arrays only, and no empty one.  In an
    array it accepts, every entry whose start and end are not NaN has
    [0 <= start < end], so that the sequence is proper when no time is NaN;
    the order of the entries is not looked at: the array is accepted in any
    other order too. *)
Theorem validateSubtitles_accepts (x : js_value T) :
  validateSubtitles x = true ->
  exists a, x = JsArray a /\ a <> [] /\
    (forall sub, In sub a -> comparable sub = true ->
       leb (of_Z 0) (start sub) = true /\ ltb (start sub) (end_ sub) = true) /\
    (forallb comparable a = true -> proper a = true) /\
    (forall a', Permutation a a' -> validateSubtitles (JsArray a') = true).
Proof.
  destruct x as [| | | | | |a]; try discriminate. cbn [validateSubtitles].
  destruct a as [|first rest] eqn:E; [discriminate |]. rewrite <- E. intros Hv.
  assert (Hne : a <> []) by (rewrite E; discriminate).
  assert (Hsub : forall sub, In sub a -> comparable sub = true ->
            leb (of_Z 0) (start sub) = true /\ ltb (start sub) (end_ sub) = true).
  { intros sub Hin [Hs He]%andb_prop. rewrite forallb_forall in Hv.
    specialize (Hv sub Hin). apply negb_true_iff, orb_false_elim in Hv as [Hneg Hle].
    split.
    - apply ltb_total; trivial. apply zero_comparable.
    - apply leb_total; trivial. }
  exists a. repeat split; trivial.
  - apply Hsub; assumption.
  - apply Hsub; assumption.
  - intros Hc. unfold proper. rewrite forallb_forall in *. intros sub Hin.
    apply ltb_leb, Hsub; auto.
  - intros a' Hperm. cbn [validateSubtitles].
    destruct a' as [|f' r'] eqn:E'.
    + apply Permutation_sym, Permutation_nil in Hperm. contradiction.
    + rewrite <- E' in *. rewrite forallb_forall in *. intros sub Hin.
      apply Hv. apply Permutation_sym in Hperm. eapply Permutation_in; eassumption.
Qed.

End Validation.

Section Search.

Context {T : Type} {num : Number T}.

Implicit Types (subs : list (Entry T)) (time : T).

(** X7. [Utils.findSubtitleAtTime] never throws, whatever the sequence
    (also [null], and unordered ones); a subtitle it returns is one of the
    sequence and holds [currentTime + offset]. *)
Theorem findSubtitleAtTime_sound (subtitles : option (list (Entry T))) (currentTime offset : T) :
  exists r, findSubtitleAtTime subtitles currentTime offset = Return r /\
    forall sub, r = Some sub ->
      exists subs, subtitles = Some subs /\ In sub subs /\
                   contains sub (add currentTime offset) = true.
Proof.
  unfold findSubtitleAtTime. destruct subtitles as [subs|];
    [| exists None; split; [reflexivity | discriminate]].
  destruct (Z.of_nat (length subs) =? 0) eqn:E0; [exists None; split; [reflexivity | discriminate] |].
  destruct (binary_search_returns subs (add currentTime offset) 0 (Z.of_nat (length subs) - 1))
    as [r Hr]; [lia | lia |].
  rewrite Hr. destruct r as [[e k]|].
  - exists (Some e). split; [reflexivity |]. intros sub [= <-].
    apply binary_search_index in Hr as (_ & Hg & Hc).
    exists subs. repeat split; trivial. eapply get_In; eassumption.
  - exists None. split; [reflexivity | discriminate].
Qed.

Lemma findIndex_find subs time : forall i : Z,
  findIndex_from (fun sub => contains sub time) i subs =
    match find_from i subs time with Some found => snd found | None => -1 end.
Proof.
  induction subs as [|a rest IH]; intros i; cbn [findIndex_from find_from]; [reflexivity |].
  destruct (contains a time); [reflexivity | apply IH].
Qed.

Lemma scan_window_spec subs time (steps : nat) : forall i : Z,
  0 <= i -> (steps <> O -> i + Z.of_nat steps <= Z.of_nat (length subs)) ->
  exists r, scan_window subs time i steps = Return r /\
    match r with
    | Some k => exists sub, get subs k = Some sub /\ contains sub time = true
    | None => True
    end.
Proof.
  induction steps as [|steps IH]; intros i Hi Hn; cbn [scan_window];
    [exists None; auto |].
  specialize (Hn ltac:(discriminate)).
  destruct (get_defined subs i ltac:(lia)) as [sub Hsub]. rewrite Hsub.
  destruct (contains sub time) eqn:Hc; [exists (Some i); eauto |].
  apply IH; lia.
Qed.

(** The index returned for a sequence: -1 and no subtitle holds the
    adjusted time, or the index of one that does. *)
Lemma findSubtitleIndexAtTime_index subs (currentTime offset : T) (lastIndex : Z) :
  exists i, findSubtitleIndexAtTime (Some subs) currentTime offset lastIndex = Return i /\
    ((i = -1 /\ forall sub, In sub subs -> contains sub (add currentTime offset) = false) \/
     (exists sub, get subs i = Some sub /\ contains sub (add currentTime offset) = true)).
Proof.
  unfold findSubtitleIndexAtTime.
  destruct (Z.eqb_spec (Z.of_nat (length subs)) 0) as [E0 | E0].
  { exists (-1). split; [reflexivity |]. left. split; [reflexivity |].
    destruct subs; [intros sub [] | cbn in E0; lia]. }
  set (adj := add currentTime offset).
  set (startIndex := Z.max 0 (lastIndex - 5)).
  set (endIndex := Z.min (Z.of_nat (length subs)) (lastIndex + 10)).
  destruct (scan_window_spec subs adj (Z.to_nat (endIndex - startIndex)) startIndex)
    as (r & -> & Hr); [unfold startIndex; lia | unfold startIndex, endIndex; lia |].
  destruct r as [k|]; [exists k; split; [reflexivity | right; exact Hr] |].
  exists (findIndex (fun sub => contains sub adj) subs). split; [reflexivity |].
  unfold findIndex. rewrite findIndex_find.
  destruct (find_from 0 subs adj) as [[e k]|] eqn:F.
  - right. exists e. apply entry_at_some. exact F.
  - left. split; [reflexivity |]. apply entry_at_none. exact F.
Qed.

(** X8. [Utils.findSubtitleIndexAtTime] never throws, whatever the
    sequence (also [null], and unordered ones) and whatever the last index,
    an integer; it returns -1 exactly when no subtitle of the sequence holds
    [currentTime + offset], and otherwise the index of one that does. *)
Theorem findSubtitleIndexAtTime_sound (subtitles : option (list (Entry T)))
        (currentTime offset : T) (lastIndex : Z) :
  exists i, findSubtitleIndexAtTime subtitles currentTime offset lastIndex = Return i /\
    ((i = -1 /\
      forall subs sub, subtitles = Some subs -> In sub subs ->
        contains sub (add currentTime offset) = false) \/
     (exists subs sub, subtitles = Some subs /\ get subs i = Some sub /\
        contains sub (add currentTime offset) = true)).
Proof.
  destruct subtitles as [subs|].
  - destruct (findSubtitleIndexAtTime_index subs currentTime offset lastIndex)
      as (i & E & Hi).
    exists i. split; [exact E |]. destruct Hi as [[Hi Hnone] | (sub & Hg & Hc)].
    + left. split; [exact Hi |]. intros subs' sub [= <-]. apply Hnone.
    + right. exists subs, sub. auto.
  - exists (-1). split; [reflexivity |]. left. split; [reflexivity |]. discriminate.
Qed.

End Search.

Section SearchOrdered.

Context {T : Type} {num : Number T} {ord : NumberOrder T}.

(** X9. On an ordered sequence the two searches of [Utils] agree with the
    engine: [findSubtitleAtTime] returns what an enabled engine holding the
    sequence returns from [getSubtitleAtTime], and
    [findSubtitleIndexAtTime], from any last index, returns the index the
    cursor is left on (-1 when nothing is shown). *)
Theorem utils_agree_with_engine (eng : Engine T) (time : T) (lastIndex : Z) :
  sorted (subtitles eng) = true -> non_overlapping (subtitles eng) = true ->
  cursor_ok eng -> enabled eng = true ->
  findSubtitleAtTime (Some (subtitles eng)) time (offset eng) =
    fst (getSubtitleAtTime eng time) /\
  findSubtitleIndexAtTime (Some (subtitles eng)) time (offset eng) lastIndex =
    Return (match fst (getSubtitleAtTime eng time) with
            | Return (Some _) => currentIndex (snd (getSubtitleAtTime eng time))
            | _ => -1
            end).
Proof.
  intros Hs Hn Hcur Hen. rewrite getSubtitleAtTime_spec by assumption.
  set (subs := subtitles eng). set (adj := add time (offset eng)).
  split.
  - unfold findSubtitleAtTime. fold subs adj.
    destruct (Z.eqb_spec (Z.of_nat (length subs)) 0) as [E0 | E0].
    { destruct subs; [reflexivity | cbn in E0; lia]. }
    destruct (entry_at subs adj) as [[e k]|] eqn:E.
    + apply entry_at_some in E as [He Hc].
      rewrite (binary_search_found subs adj k e Hs Hn He Hc); [reflexivity | lia | lia |].
      apply get_range in He. lia.
    + rewrite binary_search_none; [reflexivity | apply entry_at_none; exact E | lia | lia].
  - destruct (findSubtitleIndexAtTime_index subs time (offset eng) lastIndex)
      as (i & -> & Hi). fold adj in Hi. f_equal.
    destruct (entry_at subs adj) as [[e k]|] eqn:E; cbn [fst snd set_currentIndex currentIndex].
    + apply entry_at_some in E as [He Hc].
      destruct Hi as [[_ Hnone] | (sub & Hg & Hcs)].
      * apply get_In in He. rewrite (Hnone e He) in Hc. discriminate.
      * destruct (contains_unique subs i k sub e adj Hs Hn Hg He Hcs Hc). assumption.
    + destruct Hi as [[-> _] | (sub & Hg & Hcs)]; [reflexivity |].
      apply get_In in Hg. rewrite (entry_at_none subs adj E sub Hg) in Hcs. discriminate.
Qed.

End SearchOrdered.

Import Float64Total ExactTotal.

(** * The parser of the popup *)

Module TrimFacts.

Import JsStringFacts.

Lemma trimStart_nil (s : jsstring) : trimStart s = [] -> forallb is_space s = true.
Proof.
  induction s as [|c s IH]; [reflexivity |]. cbn [trimStart forallb].
  destruct (is_space c); [exact IH | discriminate].
Qed.

Lemma trimStart_idem (s : jsstring) : trimStart (trimStart s) = trimStart s.
Proof.
  induction s as [|c s IH]; [reflexivity |]. cbn [trimStart].
  destruct (is_space c) eqn:E; [exact IH | apply trimStart_fixed, E].
Qed.

Lemma trimEnd_idem (s : jsstring) : trimEnd (trimEnd s) = trimEnd s.
Proof. unfold trimEnd. rewrite rev_involutive, trimStart_idem. reflexivity. Qed.

Lemma trimEnd_nil (s : jsstring) : trimEnd s = [] -> forallb is_space s = true.
Proof.
  unfold trimEnd. intros E. apply (f_equal (@rev _)) in E. rewrite rev_involutive in E.
  apply trimStart_nil in E. rewrite forallb_forall in *. intros x Hx. apply E.
  apply in_rev in Hx. exact Hx.
Qed.

Lemma trim_nil (s : jsstring) : trim s = [] -> forallb is_space s = true.
Proof.
  unfold trim. intros E%trimEnd_nil.
  destruct (trimStart_suffix s) as (w & Hs & Hw). rewrite Hs, forallb_app, Hw, E. reflexivity.
Qed.

Lemma trimEnd_trim (s : jsstring) : trimEnd (trim s) = trim s.
Proof. unfold trim. apply trimEnd_idem. Qed.

(** The lines after the second of a trimmed block hold a character that is
    not white space: the last of the block. *)
Lemma text_left (b l0 l1 : jsstring) (rest : list jsstring) :
  split_char LF (trim b) = l0 :: l1 :: rest -> rest <> [] ->
  trim (join [LF] rest) <> [].
Proof.
  intros Hl Hne Hnil%trim_nil.
  pose proof (join_split_char (trim b)) as Hj. rewrite Hl in Hj.
  rewrite join_cons in Hj by discriminate. rewrite join_cons in Hj by assumption.
  pose proof (trimEnd_trim b) as Ht. rewrite <- Hj in Ht.
  replace (l0 ++ [LF] ++ l1 ++ [LF] ++ join [LF] rest)
    with ((l0 ++ [LF] ++ l1) ++ ([LF] ++ join [LF] rest)) in Ht
    by (rewrite <- !app_assoc; reflexivity).
  rewrite trimEnd_spaces in Ht by (cbn [app forallb]; rewrite Hnil; reflexivity).
  pose proof (trimEnd_length (l0 ++ [LF] ++ l1)) as Hlen. rewrite Ht in Hlen.
  rewrite !length_app in Hlen. cbn [length] in Hlen. lia.
Qed.

End TrimFacts.

Section Popup.

Context {T : Type} {num : Number T}.

Lemma popup_parse_block_app (subs : list (Entry T)) (b : jsstring) :
  popup_parse_block subs b = subs ++ popup_parse_block [] b.
Proof.
  unfold popup_parse_block.
  destruct (length (split_char LF (trim b)) <? 3)%nat; [symmetry; apply app_nil_r |].
  destruct (search timestamp_re _); [reflexivity | symmetry; apply app_nil_r].
Qed.

Lemma fold_popup_parse_block (blocks : list jsstring) (subs : list (Entry T)) :
  fold_left popup_parse_block blocks subs = subs ++ flat_map (popup_parse_block []) blocks.
Proof.
  revert subs. induction blocks as [|b rest IH]; intros subs; cbn [fold_left flat_map].
  - symmetry. apply app_nil_r.
  - rewrite IH, (popup_parse_block_app subs b), <- app_assoc. reflexivity.
Qed.

(** What the engine makes of a block is what the popup makes of it, with
    the text trimmed. *)
Lemma parse_block_popup (b : jsstring) :
  parse_block (T := T) [] b = map trim_text (popup_parse_block [] b).
Proof.
  unfold parse_block, popup_parse_block.
  destruct (Nat.ltb_spec (length (split_char LF (trim b))) 3) as [Hlt | Hge]; [reflexivity |].
  destruct (search timestamp_re _) as [timeMatch|]; [| reflexivity].
  destruct (split_char LF (trim b)) as [|l0 [|l1 rest]] eqn:El; [cbn in Hge; lia .. |].
  cbn [skipn].
  assert (Hrest : rest <> []) by (destruct rest; [cbn in Hge; lia | discriminate]).
  pose proof (TrimFacts.text_left b l0 l1 rest El Hrest) as Hne.
  destruct (trim (join [LF] rest)) as [|c t] eqn:Et; [contradiction |].
  cbn [app map]. unfold trim_text. cbn [start end_ text]. rewrite Et. reflexivity.
Qed.

(** X10. The two parsers: on every content, [parseSRT] of the engine
    returns the subtitles [parseSRT] of the popup returns, in the same
    order and with the same times, each text trimmed.  So the engine's test
    of the text never drops a block: the two parsers keep the same
    blocks. *)
Theorem parseSRT_popup (content : jsstring) :
  parseSRT (T := T) content = map trim_text (popup_parseSRT content) /\
  length (parseSRT (T := T) content) = length (popup_parseSRT (T := T) content).
Proof.
  assert (E : parseSRT (T := T) content = map trim_text (popup_parseSRT content)).
  { rewrite BlockFacts.parseSRT_flat_map. unfold popup_parseSRT.
    rewrite fold_popup_parse_block. cbn [app].
    induction (split blank_line_re (trim content)) as [|b rest IH]; [reflexivity |].
    cbn [flat_map]. rewrite map_app, IH, parse_block_popup. reflexivity. }
  split; [exact E |]. rewrite E. apply length_map.
Qed.

End Popup.

(** * What the parser returns *)

Module PatternFacts.

Import JsStringFacts RegexFacts TimestampFacts.

Lemma in_matches_seq (r1 r2 : regex) (s : jsstring) (m : list jsstring * jsstring) :
  In m (matches (Seq r1 r2) s) ->
  exists m1 m2, In m1 (matches r1 s) /\ In m2 (matches r2 (snd m1)) /\
                m = (fst m1 ++ fst m2, snd m2).
Proof.
  cbn [matches]. intros (m1 & H1 & (m2 & <- & H2)%in_map_iff)%in_flat_map. eauto.
Qed.

Lemma in_matches_chr (c : code_unit) (s : jsstring) (m : list jsstring * jsstring) :
  In m (matches (Chr c) s) -> fst m = [] /\ s = c :: snd m.
Proof.
  cbn [matches]. destruct s as [|x s']; [intros [] |].
  destruct (N.eqb_spec x c) as [-> | _]; [| intros []].
  intros [<- | []]. auto.
Qed.

Lemma in_matches_star (p : code_unit -> bool) (s : jsstring) (m : list jsstring * jsstring) :
  In m (matches (Star p) s) -> fst m = [].
Proof. cbn [matches]. intros (rest & <- & _)%in_map_iff. reflexivity. Qed.

Lemma in_matches_cls (p : code_unit -> bool) (s : jsstring) (m : list jsstring * jsstring) :
  In m (matches (Cls p) s) -> exists x, p x = true /\ s = x :: snd m /\ fst m = [].
Proof.
  cbn [matches]. destruct s as [|x s']; [intros [] |].
  destruct (p x) eqn:E; [| intros []]. intros [<- | []]. eauto.
Qed.

Lemma in_matches_grp (r : regex) (s : jsstring) (m : list jsstring * jsstring) :
  In m (matches (Grp r) s) ->
  exists m', In m' (matches r s) /\ m = (consumed s (snd m') :: fst m', snd m').
Proof. cbn [matches]. intros (m' & <- & H)%in_map_iff. eauto. Qed.

Lemma in_matches_digits2 (s : jsstring) (m : list jsstring * jsstring) :
  In m (matches digits2 s) -> exists h, fst m = [h] /\ digits 2 h.
Proof.
  unfold digits2. intros (m' & H & ->)%in_matches_grp.
  apply in_matches_seq in H as (m1 & m2 & H1 & H2 & ->).
  apply in_matches_cls in H1 as (d1 & E1 & -> & F1).
  apply in_matches_cls in H2 as (d2 & E2 & S2 & F2).
  cbn [fst snd]. rewrite F1, F2, S2. cbn [app].
  change (d1 :: d2 :: snd m2) with ([d1; d2] ++ snd m2). rewrite consumed_app.
  exists [d1; d2]. split; [reflexivity |]. split; [reflexivity |]. cbn. rewrite E1, E2. reflexivity.
Qed.

Lemma in_matches_digits3 (s : jsstring) (m : list jsstring * jsstring) :
  In m (matches digits3 s) -> exists h, fst m = [h] /\ digits 3 h.
Proof.
  unfold digits3. intros (m' & H & ->)%in_matches_grp.
  apply in_matches_seq in H as (m1 & m23 & H1 & H23 & ->).
  apply in_matches_seq in H23 as (m2 & m3 & H2 & H3 & ->).
  apply in_matches_cls in H1 as (d1 & E1 & -> & F1).
  apply in_matches_cls in H2 as (d2 & E2 & S2 & F2).
  apply in_matches_cls in H3 as (d3 & E3 & S3 & F3).
  cbn [fst snd]. rewrite F1, F2, F3, S2, S3. cbn [app].
  change (d1 :: d2 :: d3 :: snd m3) with ([d1; d2; d3] ++ snd m3). rewrite consumed_app.
  exists [d1; d2; d3]. split; [reflexivity |]. split; [reflexivity |].
  cbn. rewrite E1, E2, E3. reflexivity.
Qed.

Lemma in_matches_clock (s : jsstring) (m : list jsstring * jsstring) :
  In m (matches clock s) ->
  exists h mi se ms, fst m = [h; mi; se; ms] /\
    digits 2 h /\ digits 2 mi /\ digits 2 se /\ digits 3 ms.
Proof.
  unfold clock.
  intros (a1 & r1 & (h & Eh & Hh)%in_matches_digits2 & H1 & ->)%in_matches_seq.
  apply in_matches_seq in H1 as (a2 & r2 & [E2 _]%in_matches_chr & H2 & ->).
  apply in_matches_seq in H2 as (a3 & r3 & (mi & Emi & Hmi)%in_matches_digits2 & H3 & ->).
  apply in_matches_seq in H3 as (a4 & r4 & [E4 _]%in_matches_chr & H4 & ->).
  apply in_matches_seq in H4 as (a5 & r5 & (se & Ese & Hse)%in_matches_digits2 & H5 & ->).
  apply in_matches_seq in H5 as (a6 & r6 & [E6 _]%in_matches_chr & (ms & Ems & Hms)%in_matches_digits3 & ->).
  cbn [fst snd]. rewrite Eh, E2, Emi, E4, Ese, E6, Ems. cbn [app].
  exists h, mi, se, ms. auto.
Qed.

Lemma in_matches_timestamp (s : jsstring) (m : list jsstring * jsstring) :
  In m (matches timestamp_re s) ->
  exists h mi se ms h' mi' se' ms', fst m = [h; mi; se; ms; h'; mi'; se'; ms'] /\
    (digits 2 h /\ digits 2 mi /\ digits 2 se /\ digits 3 ms) /\
    (digits 2 h' /\ digits 2 mi' /\ digits 2 se' /\ digits 3 ms').
Proof.
  unfold timestamp_re.
  intros (a1 & r1 & (h & mi & se & ms & E1 & Hd)%in_matches_clock & H1 & ->)%in_matches_seq.
  apply in_matches_seq in H1 as (a2 & r2 & E2%in_matches_star & H2 & ->).
  apply in_matches_seq in H2 as (a3 & r3 & [E3 _]%in_matches_chr & H3 & ->).
  apply in_matches_seq in H3 as (a4 & r4 & [E4 _]%in_matches_chr & H4 & ->).
  apply in_matches_seq in H4 as (a5 & r5 & [E5 _]%in_matches_chr & H5 & ->).
  apply in_matches_seq in H5
    as (a6 & r6 & E6%in_matches_star & (h' & mi' & se' & ms' & E7 & Hd')%in_matches_clock & ->).
  cbn [fst snd]. rewrite E1, E2, E3, E4, E5, E6, E7. cbn [app].
  exists h, mi, se, ms, h', mi', se', ms'. auto.
Qed.

(** The groups of a match of the timestamp pattern: eight fields of
    digits. *)
Lemma search_timestamp (s : jsstring) (timeMatch : list jsstring) :
  search timestamp_re s = Some timeMatch ->
  exists h mi se ms h' mi' se' ms', timeMatch = [h; mi; se; ms; h'; mi'; se'; ms'] /\
    (digits 2 h /\ digits 2 mi /\ digits 2 se /\ digits 3 ms) /\
    (digits 2 h' /\ digits 2 mi' /\ digits 2 se' /\ digits 3 ms').
Proof.
  assert (Hexec : forall s m, exec_at timestamp_re s = Some m -> In m (matches timestamp_re s)).
  { intros s0 m. unfold exec_at. destruct (matches timestamp_re s0); [discriminate |].
    intros [= <-]. left. reflexivity. }
  induction s as [|c s IH]; cbn [search].
  - destruct (exec_at timestamp_re []) as [m|] eqn:E; [| discriminate].
    intros [= <-]. apply in_matches_timestamp with (s := []), Hexec, E.
  - destruct (exec_at timestamp_re (c :: s)) as [m|] eqn:E; [| exact IH].
    intros [= <-]. apply in_matches_timestamp with (s := c :: s), Hexec, E.
Qed.

(** ** The pieces of a split hold no blank line *)

Lemma star_matches_suffix (p : code_unit -> bool) (s rest : jsstring) :
  In rest (star_matches p s) -> (length rest <= length s)%nat.
Proof.
  induction s as [|c s IH]; cbn [star_matches].
  - intros [<- | []]. lia.
  - destruct (p c).
    + intros [H | [<- | []]]%in_app_or; [apply IH in H; cbn [length]; lia | lia].
    + intros [<- | []]. lia.
Qed.

Lemma in_after_blank (s : jsstring) (m : list jsstring * jsstring) :
  In m (after_blank s) -> (length (snd m) < length s)%nat.
Proof.
  rewrite after_blank_unfold. intros (rest & Hrest & Hm)%in_flat_map.
  apply star_matches_suffix in Hrest. destruct rest as [|x s']; [destruct Hm |].
  destruct (N.eqb x LF); [| destruct Hm]. destruct Hm as [<- | []].
  cbn [snd length] in *. lia.
Qed.

(** A match of the blank line takes two characters or more. *)
Lemma exec_at_consumes (s : jsstring) (m : list jsstring * jsstring) :
  exec_at blank_line_re s = Some m -> (length (snd m) + 2 <= length s)%nat.
Proof.
  rewrite exec_at_unfold. destruct s as [|x s']; [discriminate |].
  destruct (N.eqb x LF); [| discriminate].
  destruct (after_blank s') as [|m' l] eqn:E; [discriminate |]. intros [= <-].
  assert (Hin : In m' (after_blank s')) by (rewrite E; left; reflexivity).
  apply in_after_blank in Hin. cbn [length]. lia.
Qed.

(** Two line feeds with white space only between them are matched. *)
Lemma exec_at_blank (w rest : jsstring) :
  forallb is_space w = true -> exec_at blank_line_re (LF :: w ++ LF :: rest) <> None.
Proof.
  intros Hw. rewrite exec_at_unfold, N.eqb_refl.
  assert (Hin : In ([], rest) (after_blank (w ++ LF :: rest))).
  { rewrite after_blank_unfold. apply in_flat_map. exists (LF :: rest). split.
    - destruct (star_matches_app is_space w (LF :: rest) Hw) as [more ->].
      apply in_or_app. left. cbn [star_matches]. rewrite is_space_LF.
      apply in_or_app. right. left. reflexivity.
    - rewrite N.eqb_refl. left. reflexivity. }
  destruct (after_blank (w ++ LF :: rest)); [destruct Hin | discriminate].
Qed.

Lemma snoc_cases {A} (l : list A) : l = [] \/ exists l' x, l = l' ++ [x].
Proof.
  induction l as [|a l IH]; [left; reflexivity | right].
  destruct IH as [-> | (l' & x & ->)]; [exists [], a | exists (a :: l'), x]; reflexivity.
Qed.

Lemma no_blank_nil : no_blank [].
Proof. intros a w b E _. destruct a; discriminate. Qed.

Lemma no_blank_inside (a s b : jsstring) : no_blank (a ++ s ++ b) -> no_blank s.
Proof.
  intros H a' w b' -> Hw. apply (H (a ++ a') w (b' ++ b)); [| exact Hw].
  rewrite <- !app_assoc. cbn [app]. rewrite <- !app_assoc. reflexivity.
Qed.

(** While a piece is gathered no blank line lies in it, and none starts in
    it that the rest of the input would end. *)
Lemma split_from_quiet (s : jsstring) : forall (piece : jsstring) (skip : nat),
  (skip <> O -> piece = []) ->
  no_blank (rev piece) ->
  (forall a w w' rest, rev piece = a ++ LF :: w -> s = w' ++ LF :: rest ->
     forallb is_space (w ++ w') = true -> False) ->
  Forall no_blank (split_from blank_line_re s piece skip).
Proof.
  induction s as [|c s IH]; intros piece skip Hskip Hin Hopen; cbn [split_from].
  { constructor; [exact Hin | constructor]. }
  destruct skip as [|k].
  - destruct (exec_at blank_line_re (c :: s)) as [m|] eqn:E.
    + pose proof (exec_at_consumes _ _ E) as Hlen.
      destruct (length (c :: s) - length (snd m))%nat as [|k] eqn:En; [cbn [length] in *; lia |].
      constructor; [exact Hin |]. apply IH; [reflexivity | apply no_blank_nil |].
      intros a w w' rest Ea. destruct a; discriminate.
    + apply IH; [intros H; contradiction | |]; cbn [rev].
      * intros a w b Eq Hw. destruct (snoc_cases b) as [-> | (b' & x & ->)].
        -- assert (Eq' : rev piece ++ [c] = (a ++ LF :: w) ++ [LF])
             by (rewrite Eq, <- app_assoc; reflexivity).
           apply app_inj_tail in Eq' as [Ep ->].
           apply (Hopen a w [] s Ep eq_refl). rewrite app_nil_r. exact Hw.
        -- assert (Eq' : rev piece ++ [c] = (a ++ LF :: w ++ LF :: b') ++ [x])
             by (rewrite Eq, <- !app_assoc; cbn [app]; rewrite <- app_assoc; reflexivity).
           apply app_inj_tail in Eq' as [Ep _].
           apply (Hin a w b' Ep Hw).
      * intros a w w' rest Eq -> Hw. destruct (snoc_cases w) as [-> | (w0 & x & ->)].
        -- apply app_inj_tail in Eq as [_ ->]. cbn [app] in Hw.
           exact (exec_at_blank w' rest Hw E).
        -- assert (Eq' : rev piece ++ [c] = (a ++ LF :: w0) ++ [x])
             by (rewrite Eq, <- app_assoc; reflexivity).
           apply app_inj_tail in Eq' as [Ep ->].
           apply (Hopen a w0 (x :: w') rest Ep eq_refl).
           rewrite <- app_assoc in Hw. exact Hw.
  - rewrite (Hskip ltac:(discriminate)). apply IH; [reflexivity | apply no_blank_nil |].
    intros a w w' rest Ea. destruct a; discriminate.
Qed.

Lemma split_quiet (s : jsstring) : Forall no_blank (split blank_line_re s).
Proof.
  unfold split. destruct s as [|c s].
  - destruct (exec_at blank_line_re []); constructor; [apply no_blank_nil | constructor].
  - apply split_from_quiet; [intros H; contradiction | apply no_blank_nil |].
    intros a w w' rest Ea. destruct a; discriminate.
Qed.

(** ** Trimmed strings *)

Lemma trimEnd_prefix (s : jsstring) : exists w, s = trimEnd s ++ w /\ forallb is_space w = true.
Proof.
  unfold trimEnd. destruct (trimStart_suffix (rev s)) as (w & Hs & Hw).
  exists (rev w). split.
  - rewrite <- rev_app_distr, <- Hs, rev_involutive. reflexivity.
  - rewrite forallb_forall in *. intros x Hx. apply Hw, in_rev. exact Hx.
Qed.

Lemma trim_inside (s : jsstring) : exists a b, s = a ++ trim s ++ b.
Proof.
  destruct (trimStart_suffix s) as (a & Hs & _).
  destruct (trimEnd_prefix (trimStart s)) as (b & Ht & _).
  exists a, b. unfold trim. rewrite <- Ht. exact Hs.
Qed.

Lemma trimStart_spaces (s : jsstring) : forallb is_space s = true -> trimStart s = [].
Proof.
  induction s as [|c s IH]; [reflexivity |]. cbn. intros [-> Hs]%andb_prop. auto.
Qed.

Lemma trimStart_trimEnd (u : jsstring) : trimStart u = u -> trimStart (trimEnd u) = trimEnd u.
Proof.
  intros Hu. destruct (trimEnd_prefix u) as (w & Hw & _).
  destruct (trimEnd u) as [|c r]; [reflexivity |].
  cbn [trimStart]. destruct (is_space c) eqn:Ec; [exfalso | reflexivity].
  rewrite Hw in Hu. cbn [app trimStart] in Hu. rewrite Ec in Hu.
  pose proof (trimStart_length (r ++ w)) as Hl. rewrite Hu in Hl. cbn [length] in Hl. lia.
Qed.

Lemma trim_idem (s : jsstring) : trim (trim s) = trim s.
Proof.
  unfold trim. rewrite (trimStart_trimEnd (trimStart s)) by apply TrimFacts.trimStart_idem.
  apply TrimFacts.trimEnd_idem.
Qed.

Lemma not_visible (l : jsstring) : visible l = false -> forallb is_space l = true.
Proof.
  induction l as [|c l IH]; [reflexivity |]. cbn.
  intros [Hc Hl]%orb_false_elim. apply negb_false_iff in Hc. rewrite Hc. auto.
Qed.

Lemma join_around (l : jsstring) (before after : list jsstring) :
  exists p q, join [LF] (before ++ l :: after) = p ++ l ++ q /\
    (before = [] /\ p = [] \/ exists p', p = p' ++ [LF]) /\
    (after = [] /\ q = [] \/ exists q', q = LF :: q').
Proof.
  assert (Hafter : exists q, join [LF] (l :: after) = l ++ q /\
            (after = [] /\ q = [] \/ exists q', q = LF :: q')).
  { destruct after as [|x after].
    - exists []. cbn. rewrite app_nil_r. auto.
    - exists (LF :: join [LF] (x :: after)). rewrite join_cons by discriminate. eauto. }
  destruct Hafter as (q & Eq & Hq).
  induction before as [|b before IH].
  - exists [], q. cbn [app]. auto.
  - destruct IH as (p & q0 & E & Hp & Hq0).
    cbn [app]. rewrite join_cons by (destruct before; discriminate). rewrite E.
    exists (b ++ [LF] ++ p), q0. split; [rewrite <- !app_assoc; reflexivity |].
    split; [right | exact Hq0].
    destruct Hp as [[-> ->] | (p' & ->)].
    + exists b. rewrite app_nil_r. reflexivity.
    + exists (b ++ [LF] ++ p'). rewrite <- !app_assoc. reflexivity.
Qed.

(** A trimmed string without a blank line has a visible character on every
    line. *)
Lemma lines_visible (t : jsstring) :
  trim t = t -> t <> [] -> no_blank t -> forallb visible (split_char LF t) = true.
Proof.
  intros Ht Hne Hnb. apply trim_fixed_ends in Ht as [Hstart Hend].
  apply forallb_forall. intros l Hl.
  destruct (visible l) eqn:Hv; [reflexivity | exfalso]. apply not_visible in Hv.
  apply in_split in Hl as (before & after & El).
  destruct (join_around l before after) as (p & q & E & Hp & Hq).
  rewrite <- El, join_split_char in E.
  destruct Hp as [[_ ->] | (p' & ->)], Hq as [[_ ->] | (q' & ->)].
  - cbn [app] in E. rewrite app_nil_r in E. subst t.
    rewrite (trimStart_spaces l Hv) in Hstart. congruence.
  - cbn [app] in E. subst t. destruct l as [|c l].
    + cbn in Hstart. pose proof (trimStart_length q') as Hlen. rewrite Hstart in Hlen.
      cbn [length] in Hlen. lia.
    + cbn in Hv. apply andb_prop in Hv as [Hc _]. cbn [app trimStart] in Hstart.
      rewrite Hc in Hstart. pose proof (trimStart_length (l ++ LF :: q')) as Hlen.
      rewrite Hstart in Hlen. cbn [length] in Hlen. lia.
  - rewrite app_nil_r in E. subst t. rewrite <- app_assoc in Hend.
    rewrite app_assoc in Hend.
    rewrite trimEnd_spaces in Hend by exact Hv.
    rewrite trimEnd_spaces in Hend by reflexivity.
    pose proof (trimEnd_length p') as Hlen. rewrite Hend in Hlen.
    rewrite !length_app in Hlen. cbn [length] in Hlen. lia.
  - apply (Hnb p' l q'); [| exact Hv]. rewrite E, <- app_assoc. reflexivity.
Qed.

End PatternFacts.

Section ParserOutput.

Context {T : Type} {num : Number T}.

Import JsStringFacts PatternFacts.

(** A subtitle returned by [parseSRT]: its text is not empty, trimmed and
    without a blank line, its times are read from fields of digits. *)
Lemma parseSRT_entry (content : jsstring) (sub : Entry T) :
  In sub (parseSRT content) ->
  (text sub <> [] /\ solid (text sub)) /\
  exists h mi se ms h' mi' se' ms',
    (digits 2 h /\ digits 2 mi /\ digits 2 se /\ digits 3 ms) /\
    (digits 2 h' /\ digits 2 mi' /\ digits 2 se' /\ digits 3 ms') /\
    start sub = _parseTimestamp h mi se ms /\
    end_ sub = _parseTimestamp h' mi' se' ms'.
Proof.
  rewrite BlockFacts.parseSRT_flat_map.
  intros (b & Hb & Hsub)%in_flat_map.
  pose proof (split_quiet (trim content)) as Hq. rewrite Forall_forall in Hq.
  specialize (Hq b Hb). unfold parse_block in Hsub.
  destruct (Nat.ltb_spec (length (split_char LF (trim b))) 3) as [Hlt | Hge]; [destruct Hsub |].
  destruct (search timestamp_re _) as [timeMatch|] eqn:Es; [| destruct Hsub].
  apply search_timestamp in Es
    as (h & mi & se & ms & h' & mi' & se' & ms' & -> & Hd & Hd').
  destruct (split_char LF (trim b)) as [|l0 [|l1 rest]] eqn:El; [cbn in Hge; lia .. |].
  cbn [skipn] in Hsub.
  assert (Hrest : rest <> []) by (destruct rest; [cbn in Hge; lia | discriminate]).
  assert (Hnb : no_blank (trim (join [LF] rest))).
  { destruct (trim_inside (join [LF] rest)) as (a1 & b1 & E1).
    destruct (trim_inside b) as (a2 & b2 & E2).
    pose proof (join_split_char (trim b)) as Hj. rewrite El in Hj.
    rewrite join_cons in Hj by discriminate. rewrite join_cons in Hj by assumption.
    apply (no_blank_inside a1 _ b1). rewrite <- E1.
    apply (no_blank_inside (l0 ++ [LF] ++ l1 ++ [LF]) _ []).
    rewrite app_nil_r, <- !app_assoc. rewrite Hj.
    apply (no_blank_inside a2 _ b2). rewrite <- E2. exact Hq. }
  pose proof (trim_idem (join [LF] rest)) as Hidem.
  destruct (trim (join [LF] rest)) as [|c t] eqn:Et; [destruct Hsub |].
  cbn [app] in Hsub. destruct Hsub as [<- | []]. cbn [text start end_ group nth Nat.sub].
  split.
  - split; [discriminate |]. split; [exact Hidem |].
    apply lines_visible; [exact Hidem | discriminate | exact Hnb].
  - exists h, mi, se, ms, h', mi', se', ms'. auto.
Qed.

(** X13. Whatever the content, every subtitle [parseSRT] returns has a
    text [exportToSRT] can write and [parseSRT] reads back as it is: not
    empty, without white space at either end and without a blank line
    inside; and its times are those of eight fields of two, two, two and
    three digits. *)
Theorem parseSRT_output (content : jsstring) :
  Forall (fun sub : Entry T =>
            text sub <> [] /\ solid (text sub) /\
            exists h mi se ms h' mi' se' ms',
              (digits 2 h /\ digits 2 mi /\ digits 2 se /\ digits 3 ms) /\
              (digits 2 h' /\ digits 2 mi' /\ digits 2 se' /\ digits 3 ms') /\
              start sub = _parseTimestamp h mi se ms /\
              end_ sub = _parseTimestamp h' mi' se' ms')
         (parseSRT content).
Proof.
  apply Forall_forall. intros sub Hin.
  destruct (parseSRT_entry content sub Hin) as ([Hne Hsolid] & Hfields). auto.
Qed.

End ParserOutput.


(** ** The properties above on the entries a, b, c *)

(** [getSubtitleAtTime_sound] at 4 s, with the cursor on a. *)
Lemma getSubtitleAtTime_sound_witness :
  (exists r, fst (getSubtitleAtTime (playing 0 (of_Z 0)) (of_Z 4)) = Return r) /\
  (forall sub, fst (getSubtitleAtTime (playing 0 (of_Z 0)) (of_Z 4)) = Return (Some sub) ->
     contains sub (add (of_Z 4) (offset (playing 0 (of_Z 0)))) = true /\
     getSubtitleByIndex (snd (getSubtitleAtTime (playing 0 (of_Z 0)) (of_Z 4)))
                        (currentIndex (snd (getSubtitleAtTime (playing 0 (of_Z 0)) (of_Z 4))))
       = Some sub) /\
  (fst (getSubtitleAtTime (playing 0 (of_Z 0)) (of_Z 4)) = Return None ->
     snd (getSubtitleAtTime (playing 0 (of_Z 0)) (of_Z 4)) = playing 0 (of_Z 0)).
Proof.
  apply (getSubtitleAtTime_sound (playing 0 (of_Z 0)) (of_Z 4)).
  unfold cursor_ok; cbn; lia.
Defined.

(** [cursor_transparent]: at 4 s the cursor on c gives what the cursor on a
    gives. *)
Lemma cursor_transparent_witness :
  fst (getSubtitleAtTime (set_currentIndex (playing 0 (of_Z 0)) 2) (of_Z 4)) =
  fst (getSubtitleAtTime (playing 0 (of_Z 0)) (of_Z 4)).
Proof.
  apply (cursor_transparent (playing 0 (of_Z 0)) (of_Z 4) 2); try reflexivity.
  - unfold cursor_ok; cbn; lia.
  - cbn; lia.
Defined.

(** [getSubtitlesInRange_point] at 4 s: the list holds b alone, and b is
    what the lookup returns. *)
Lemma getSubtitlesInRange_point_witness :
  getSubtitlesInRange (playing 0 (of_Z 0)) (of_Z 4) (of_Z 4) =
    filter (fun sub => contains sub (add (of_Z 4) (offset (playing 0 (of_Z 0))))) abc /\
  (length (getSubtitlesInRange (playing 0 (of_Z 0)) (of_Z 4) (of_Z 4)) <= 1)%nat /\
  fst (getSubtitleAtTime (playing 0 (of_Z 0)) (of_Z 4)) =
    Return (hd_error (getSubtitlesInRange (playing 0 (of_Z 0)) (of_Z 4) (of_Z 4))).
Proof.
  destruct (getSubtitlesInRange_point (playing 0 (of_Z 0)) (of_Z 4)) as [Hfilter Hordered].
  destruct (Hordered eq_refl eq_refl) as [Hlen Hlookup].
  split; [exact Hfilter |]. split; [exact Hlen |].
  apply Hlookup; [unfold cursor_ok; cbn; lia | reflexivity].
Defined.

(** [silent_outside] at 9 s, after the end of c. *)
Lemma silent_outside_witness :
  getSubtitleAtTime (playing 1 (of_Z 0)) (of_Z 9) = (Return None, playing 1 (of_Z 0)).
Proof.
  apply (silent_outside (playing 1 (of_Z 0)) (of_Z 9)); try reflexivity.
  - unfold cursor_ok; cbn; lia.
  - left. vm_compute. reflexivity.
Defined.

(** [validateSubtitles_accepts] on the array of a, b, c. *)
Lemma validateSubtitles_accepts_witness :
  exists a, JsArray abc = JsArray a /\ a <> [] /\
    (forall sub, In sub a -> comparable sub = true ->
       leb (of_Z 0) (start sub) = true /\ ltb (start sub) (end_ sub) = true) /\
    (forallb comparable a = true -> proper a = true) /\
    (forall a', Permutation a a' -> validateSubtitles (JsArray a') = true).
Proof.
  apply (validateSubtitles_accepts (JsArray abc)). vm_compute. reflexivity.
Defined.

(** [utils_agree_with_engine] at 4 s, from the last index 0. *)
Lemma utils_agree_with_engine_witness :
  findSubtitleAtTime (Some abc) (of_Z 4) (of_Z 0) =
    fst (getSubtitleAtTime (playing 1 (of_Z 0)) (of_Z 4)) /\
  findSubtitleIndexAtTime (Some abc) (of_Z 4) (of_Z 0) 0 =
    Return (match fst (getSubtitleAtTime (playing 1 (of_Z 0)) (of_Z 4)) with
            | Return (Some _) => currentIndex (snd (getSubtitleAtTime (playing 1 (of_Z 0)) (of_Z 4)))
            | _ => -1
            end).
Proof.
  apply (utils_agree_with_engine (playing 1 (of_Z 0)) (of_Z 4) 0); try reflexivity.
  unfold cursor_ok; cbn; lia.
Defined.

(** * Writing and reading back, on any numbers *)

Section RoundTrip.

Context {T : Type} {num : Number T}.

Import CodecFacts.


End RoundTrip.


(** In binary64 a time of whole milliseconds need not come back within a
    millisecond: the start read from [00:00:04,005] is written as
    [00:00:04,004], and the time read from that is more than 0.001 below
    it, as the program's own subtraction and comparison tell. *)
Example millisecond_exceeded :
  exportToSRT late_start = js "1\n00:00:04,004 --> 00:00:05,000\nx" /\
  parseSRT (exportToSRT late_start)
    = [mkEntry (_parseTimestamp (js "00") (js "00") (js "04") (js "004")) 5%float (js "x")] /\
  leb (sub four_005 (_parseTimestamp (js "00") (js "00") (js "04") (js "004")))
      (div (of_Z 1) (of_Z 1000)) = false.
Proof. repeat split; vm_compute; reflexivity. Qed.

(** [String(x)] above 2^53, where the digits are not those of the integer:
    2^60, the hours of 2^70 seconds, and 2^70, which takes an exponent. *)
Example to_string_shortest :
  float_to_string (Z.ldexp 1 60) = js "1152921504606847000" /\
  float_to_string (float_floor (Z.ldexp 1 70 / 3600)) = js "327942116865947600" /\
  float_to_string (Z.ldexp 1 70) = js "1.1805916207174113e+21" /\
  float_to_string (Z.ldexp 1 53) = js "9007199254740992".
Proof. repeat split; vm_compute; reflexivity. Qed.

(** * The first line of a block *)

Module FirstLineFacts.

Import JsStringFacts RegexFacts BlockFacts TrimFacts PatternFacts.

Lemma trimStart_app_spaces (w u : jsstring) :
  forallb is_space w = true -> trimStart (w ++ u) = trimStart u.
Proof.
  induction w as [|c w IH]; [reflexivity |]. cbn. intros [-> Hw]%andb_prop. auto.
Qed.

Lemma trimStart_app_visible (t w : jsstring) :
  trimStart t <> [] -> trimStart (t ++ w) = trimStart t ++ w.
Proof.
  induction t as [|c t IH]; [contradiction |]. cbn [app trimStart].
  destruct (is_space c); [exact IH | reflexivity].
Qed.

Lemma split_char_concat (a u : jsstring) :
  split_char LF (a ++ LF :: u) = split_char LF a ++ split_char LF u.
Proof.
  induction a as [|x a IH]; cbn [app split_char].
  - rewrite N.eqb_refl. reflexivity.
  - rewrite IH. destruct (N.eqb x LF); [reflexivity |].
    pose proof (split_char_nonempty LF a) as Hne.
    destruct (split_char LF a) as [|l ls]; [contradiction | reflexivity].
Qed.

Lemma last_LF (t : jsstring) : no_LF t \/ exists a u, t = a ++ LF :: u /\ no_LF u.
Proof.
  induction t as [|x t IH]; [left; intros [] |].
  destruct IH as [Ht | (a & u & -> & Hu)].
  - destruct (N.eq_dec x LF) as [-> | Hx].
    + right. exists [], t. auto.
    + left. intros [E | Hin]; [congruence | exact (Ht Hin)].
  - right. exists (x :: a), u. auto.
Qed.

Lemma visible_app (a b : jsstring) : visible (a ++ b) = visible a || visible b.
Proof. apply existsb_app. Qed.

Lemma spaces_not_visible (w : jsstring) : forallb is_space w = true -> visible w = false.
Proof.
  induction w as [|c w IH]; [reflexivity |]. cbn. intros [-> Hw]%andb_prop. auto.
Qed.

Lemma spaces_app (a b : jsstring) :
  forallb is_space (a ++ b) = true -> forallb is_space a = true /\ forallb is_space b = true.
Proof. rewrite forallb_app. apply andb_prop. Qed.

(** The lines of a text whose lines all hold a visible character, and of
    the text without the white space at its end: the same but for the
    last, which loses that white space. *)
Lemma trimEnd_lines (text : jsstring) :
  forallb visible (split_char LF text) = true ->
  exists init l w,
    forallb is_space w = true /\ text = trimEnd text ++ w /\
    split_char LF text = init ++ [l ++ w] /\
    split_char LF (trimEnd text) = init ++ [l] /\
    forallb visible init = true /\ visible l = true.
Proof.
  intros Hv. destruct (trimEnd_prefix text) as (w & Ht & Hw).
  assert (Hlf : no_LF w).
  { destruct (last_LF w) as [Hno | (a & u & -> & Hu)]; [exact Hno | exfalso].
    rewrite Ht, app_assoc, split_char_concat, forallb_app in Hv.
    apply andb_prop in Hv as [_ Hv]. rewrite split_char_line in Hv by exact Hu.
    cbn in Hv. apply spaces_app in Hw as [_ Hw].
    cbn [forallb] in Hw. apply andb_prop in Hw as [_ Hw].
    rewrite (spaces_not_visible u Hw) in Hv. discriminate. }
  destruct (last_LF (trimEnd text)) as [Hno | (a & u & Et & Hu)].
  - exists [], (trimEnd text), w.
    assert (Hall : no_LF (trimEnd text ++ w)).
    { intros [H | H]%in_app_or; [exact (Hno H) | exact (Hlf H)]. }
    rewrite Ht, split_char_line in Hv by exact Hall. cbn in Hv.
    rewrite andb_true_r, visible_app, (spaces_not_visible w Hw), orb_false_r in Hv.
    repeat split; trivial.
    + rewrite Ht at 1. apply split_char_line. exact Hall.
    + apply split_char_line. exact Hno.
  - exists (split_char LF a), u, w.
    assert (Huw : no_LF (u ++ w)).
    { intros [H | H]%in_app_or; [exact (Hu H) | exact (Hlf H)]. }
    assert (El : split_char LF text = split_char LF a ++ [u ++ w]).
    { rewrite Ht at 1. rewrite Et, <- app_assoc. cbn [app].
      rewrite split_char_concat, (split_char_line (u ++ w)) by exact Huw. reflexivity. }
    rewrite El, forallb_app in Hv. apply andb_prop in Hv as [Ha Hl]. cbn in Hl.
    rewrite andb_true_r, visible_app, (spaces_not_visible w Hw), orb_false_r in Hl.
    repeat split; trivial.
    rewrite Et at 1. rewrite split_char_concat, (split_char_line u) by exact Hu. reflexivity.
Qed.

Lemma visible_lines_nonempty (t : jsstring) :
  forallb visible (split_char LF t) = true -> trimStart t <> [].
Proof.
  intros Hv Hnil%trimStart_nil.
  pose proof (split_char_nonempty LF t) as Hne.
  pose proof (join_split_char t) as Hj.
  destruct (split_char LF t) as [|l ls]; [contradiction |].
  cbn in Hv. apply andb_prop in Hv as [Hl _].
  destruct (visible_split l Hl) as (w & x & s & -> & _ & Hx).
  assert (Hin : In x t).
  { assert (Hl0 : In x (w ++ x :: s)) by (apply in_or_app; right; left; reflexivity).
    rewrite <- Hj. destruct ls; cbn [join]; [exact Hl0 | apply in_or_app; left; exact Hl0]. }
  rewrite forallb_forall in Hnil. rewrite (Hnil x Hin) in Hx. discriminate.
Qed.

(** [trim] of a text with a visible character on every line is [trim] of
    the text without the white space at its end. *)
Lemma trim_trimEnd (text : jsstring) :
  forallb visible (split_char LF text) = true -> trim (trimEnd text) = trim text.
Proof.
  intros Hv. destruct (trimEnd_lines text Hv) as (init & l & w & Hw & Ht & _ & Et & Hi & Hl).
  assert (Hvt : forallb visible (split_char LF (trimEnd text)) = true).
  { rewrite Et, forallb_app, Hi. cbn. rewrite Hl. reflexivity. }
  pose proof (visible_lines_nonempty _ Hvt) as Hne.
  assert (E : trimStart text = trimStart (trimEnd text) ++ w).
  { rewrite Ht at 1. apply trimStart_app_visible. exact Hne. }
  unfold trim. rewrite E, trimEnd_spaces by exact Hw. reflexivity.
Qed.

(** The block that [trim] leaves of some white space, a head that starts
    with a visible character, a line feed and a text: the head, the line
    feed and the text without the white space at its end.  It is solid,
    and its lines are those of the head, then those of the text. *)
Lemma block_of (w pre text : jsstring) (x : code_unit) (s : jsstring) :
  forallb is_space w = true ->
  pre = x :: s -> is_space x = false ->
  forallb visible (split_char LF pre) = true ->
  forallb visible (split_char LF text) = true ->
  trim (w ++ pre ++ LF :: text) = pre ++ LF :: trimEnd text /\
  solid (pre ++ LF :: trimEnd text) /\
  split_char LF (pre ++ LF :: trimEnd text) = split_char LF pre ++ split_char LF (trimEnd text).
Proof.
  intros Hw -> Hx Hpre Hv.
  destruct (trimEnd_lines text Hv) as (init & l & w2 & Hw2 & Ht & _ & Et & Hi & Hl).
  assert (Hvt : forallb visible (split_char LF (trimEnd text)) = true).
  { rewrite Et, forallb_app, Hi. cbn. rewrite Hl. reflexivity. }
  assert (Hne : trimEnd text <> []).
  { intros E. rewrite E in Hvt. discriminate. }
  assert (Hfix : trim ((x :: s) ++ LF :: trimEnd text) = (x :: s) ++ LF :: trimEnd text).
  { replace ((x :: s) ++ LF :: trimEnd text) with (x :: (s ++ [LF]) ++ trimEnd text)
      by (cbn [app]; rewrite <- app_assoc; reflexivity).
    apply trim_app; [exact Hx | apply trimEnd_idem | exact Hne]. }
  split; [| split].
  - unfold trim. rewrite trimStart_app_spaces by exact Hw.
    cbn [app]. rewrite trimStart_fixed by exact Hx.
    rewrite Ht at 1.
    replace (x :: s ++ LF :: trimEnd text ++ w2) with ((x :: s ++ LF :: trimEnd text) ++ w2)
      by (cbn [app]; rewrite <- app_assoc; reflexivity).
    rewrite trimEnd_spaces by exact Hw2.
    apply trim_fixed_ends in Hfix as [_ Hend]. exact Hend.
  - split; [exact Hfix |]. rewrite split_char_concat, forallb_app, Hpre, Hvt. reflexivity.
  - apply split_char_concat.
Qed.

(** A line on which the timestamp pattern is found holds a digit. *)
Lemma in_matches_timestamp_digit (s : jsstring) (m : list jsstring * jsstring) :
  In m (matches timestamp_re s) -> exists d rest, s = d :: rest /\ is_digit d = true.
Proof.
  unfold timestamp_re. intros (m1 & _ & H1 & _)%in_matches_seq.
  unfold clock in H1. apply in_matches_seq in H1 as (m2 & _ & H2 & _).
  unfold digits2 in H2. apply in_matches_grp in H2 as (m3 & H3 & _).
  apply in_matches_seq in H3 as (m4 & _ & H4 & _).
  apply in_matches_cls in H4 as (d & Hd & -> & _). eauto.
Qed.

Lemma search_visible (s : jsstring) (m : list jsstring) :
  search timestamp_re s = Some m -> visible s = true.
Proof.
  induction s as [|c s IH]; cbn [search].
  - destruct (exec_at timestamp_re []) eqn:E; [| discriminate]. discriminate E.
  - destruct (exec_at timestamp_re (c :: s)) as [m'|] eqn:E.
    + intros _. unfold exec_at in E.
      destruct (matches timestamp_re (c :: s)) as [|m0 l] eqn:Em; [discriminate |].
      assert (Hin : In m0 (matches timestamp_re (c :: s))) by (rewrite Em; left; reflexivity).
      apply in_matches_timestamp_digit in Hin as (d & rest & [= <- <-] & Hd).
      cbn. rewrite (TimestampFacts.digit_not_space c Hd). reflexivity.
    + intros H. specialize (IH H). unfold visible in *. cbn [existsb].
      rewrite IH. apply orb_true_r.
Qed.

End FirstLineFacts.

Section FirstLine.

Context {T : Type} {num : Number T}.

Import JsStringFacts RegexFacts BlockFacts TrimFacts PatternFacts FirstLineFacts.

(** C4 (amended). [parseSRT] reads the timestamps from the second line of
    a block and the text from the third line on; the first line is not
    looked at, but it has to be there.  For every first line with a visible
    character, ordinal or not, every second line on which the timestamp
    pattern is found, and every text whose lines each hold a visible
    character, the block gives one entry: the times of the timestamps,
    and the text with its lines joined by line feeds and trimmed.  The
    same block without the first line gives no entry, unless the first
    line of the text holds timestamps itself. *)
Theorem parseSRT_first_line (first stamp text : jsstring) (m : list jsstring) :
  no_LF first -> visible first = true ->
  no_LF stamp -> search timestamp_re stamp = Some m ->
  forallb visible (split_char LF text) = true ->
  parseSRT (first ++ LF :: stamp ++ LF :: text) =
    [mkEntry (T := T)
       (_parseTimestamp (group m 1) (group m 2) (group m 3) (group m 4))
       (_parseTimestamp (group m 5) (group m 6) (group m 7) (group m 8))
       (trim (join [LF] (split_char LF text)))] /\
  (search timestamp_re (hd [] (split_char LF text)) = None ->
   parseSRT (T := T) (stamp ++ LF :: text) = []).
Proof.
  intros Hfirst Hvfirst Hstamp Hm Hv.
  pose proof (search_visible stamp m Hm) as Hvstamp.
  destruct (trimEnd_lines text Hv) as (init & l & w2 & Hw2 & Ht & El & Et & Hi & Hl).
  split.
  - destruct (visible_split first Hvfirst) as (w & x & s & -> & Hw & Hx).
    assert (Hf : no_LF (x :: s)).
    { intros Hin. apply Hfirst. apply in_or_app. right. exact Hin. }
    assert (Hlines : split_char LF ((x :: s) ++ LF :: stamp) = [x :: s; stamp]).
    { rewrite split_char_app by exact Hf. rewrite split_char_line by exact Hstamp. reflexivity. }
    destruct (block_of w ((x :: s) ++ LF :: stamp) text x (s ++ LF :: stamp))
      as (Etrim & Hsolid & Esplit); trivial.
    { rewrite Hlines. cbn [forallb visible existsb]. rewrite Hx. cbn [negb orb andb].
      fold (visible stamp). rewrite Hvstamp. reflexivity. }
    replace ((w ++ x :: s) ++ LF :: stamp ++ LF :: text)
      with (w ++ ((x :: s) ++ LF :: stamp) ++ LF :: text)
      by (rewrite <- !app_assoc; reflexivity).
    rewrite parseSRT_flat_map, Etrim.
    change (((x :: s) ++ LF :: stamp) ++ LF :: trimEnd text)
      with (join [LF; LF] [((x :: s) ++ LF :: stamp) ++ LF :: trimEnd text]) at 1.
    rewrite split_blocks by first [discriminate | constructor; [exact Hsolid | constructor]].
    cbn [flat_map]. rewrite app_nil_r.
    assert (Hlo : lines_of (((x :: s) ++ LF :: stamp) ++ LF :: trimEnd text)
                  = (x :: s) :: stamp :: split_char LF (trimEnd text)).
    { unfold lines_of. rewrite (proj1 Hsolid), Esplit, Hlines. reflexivity. }
    rewrite (well_formed_parsed _ m []).
    + rewrite Hlo. cbn [skipn app]. rewrite !join_split_char, (trim_trimEnd text Hv). reflexivity.
    + rewrite Hlo, Et. cbn [length]. rewrite length_app. cbn [length]. lia.
    + rewrite Hlo. exact Hm.
    + rewrite Hlo. cbn [skipn]. rewrite join_split_char, (trim_trimEnd text Hv).
      intros E. apply trim_nil, trimStart_spaces in E.
      apply (visible_lines_nonempty text Hv). exact E.
  - intros Hnone.
    destruct (visible_split stamp Hvstamp) as (w & x & s & -> & Hw & Hx).
    assert (Hf : no_LF (x :: s)).
    { intros Hin. apply Hstamp. apply in_or_app. right. exact Hin. }
    destruct (block_of w (x :: s) text x s) as (Etrim & Hsolid & Esplit); trivial.
    { rewrite split_char_line by exact Hf. cbn [forallb visible existsb]. rewrite Hx. reflexivity. }
    replace ((w ++ x :: s) ++ LF :: text) with (w ++ (x :: s) ++ LF :: text)
      by (rewrite <- !app_assoc; reflexivity).
    rewrite parseSRT_flat_map, Etrim.
    change ((x :: s) ++ LF :: trimEnd text)
      with (join [LF; LF] [(x :: s) ++ LF :: trimEnd text]) at 1.
    rewrite split_blocks by first [discriminate | constructor; [exact Hsolid | constructor]].
    cbn [flat_map]. rewrite app_nil_r.
    apply malformed_skipped. unfold malformed, lines_of.
    rewrite (proj1 Hsolid), Esplit, (split_char_line (x :: s)) by exact Hf.
    rewrite Et. cbn [app]. rewrite El in Hnone.
    destruct init as [|l0 init]; [left; cbn; lia | right; left].
    cbn [app nth]. cbn [app hd] in Hnone. exact Hnone.
Qed.

End FirstLine.

(** [parseSRT_first_line] in binary64, on a block whose first line is no
    ordinal and whose text ends with a space. *)
Lemma parseSRT_first_line_witness :
  parseSRT (js "x" ++ LF :: js "00:00:01,000 --> 00:00:04,000" ++ LF :: js "Hello\nWorld ") =
    [mkEntry (T := float)
       (_parseTimestamp (js "00") (js "00") (js "01") (js "000"))
       (_parseTimestamp (js "00") (js "00") (js "04") (js "000"))
       (trim (join [LF] (split_char LF (js "Hello\nWorld "))))] /\
  (search timestamp_re (hd [] (split_char LF (js "Hello\nWorld "))) = None ->
   parseSRT (T := float) (js "00:00:01,000 --> 00:00:04,000" ++ LF :: js "Hello\nWorld ") = []).
Proof.
  apply (parseSRT_first_line (js "x") (js "00:00:01,000 --> 00:00:04,000") (js "Hello\nWorld ")
           [js "00"; js "00"; js "01"; js "000"; js "00"; js "00"; js "04"; js "000"]).
  - intros H. vm_compute in H. intuition discriminate.
  - reflexivity.
  - intros H. vm_compute in H. intuition discriminate.
  - vm_compute. reflexivity.
  - vm_compute. reflexivity.
Defined.

(** C4 as stated fails: a block that is a timestamp line followed by two
    lines of text, without an ordinal line, gives no entry. *)
Lemma ordinal_absent_counterexample :
  search timestamp_re (js "00:00:01,000 --> 00:00:04,000")
    = Some [js "00"; js "00"; js "01"; js "000"; js "00"; js "00"; js "04"; js "000"] /\
  split_char LF (js "Hello\nWorld") = [js "Hello"; js "World"] /\
  parseSRT (js "00:00:01,000 --> 00:00:04,000\nHello\nWorld") = @nil (Entry float).
Proof. repeat split; vm_compute; reflexivity. Qed.
